(** * madeleine: a schema-less reader for Bond Compact Binary

    A shallow embedding of the Python package [madeleine]
    ([_bond_types.py], [_uleb.py], [_madeleine.py], [_bond_reader.py])
    and the properties of its decoder and of its value tree.

    Python integers are unbounded, so they are [Z]; a byte of the
    stream is a [Byte.byte], read as an integer through [byte_val].
    The stream [data] is kept as its offset together with the bytes that
    are still unread; [read] hands out at most what is left and
    [seek(n, 1)] moves the offset by [n] whatever is left. Sizes and
    positions of a stream are C integers: [read] and [seek] raise
    [OverflowError] outside their range, as the in-memory streams of
    [io] do on a 64-bit build (a [BufferedReader] reports a count that
    is itself no C offset, [2 ^ 63] or more, as [ValueError] where
    [BytesIO] raises [OverflowError]; no statement below depends on
    which). What the interpreter does when it runs out of stack or of
    memory ([RecursionError], [MemoryError]) is not part of the model. *)

From Stdlib Require Import ZArith List Bool Lia PeanoNat.
From Stdlib Require Import Strings.Byte.
Import ListNotations.
Local Open Scope Z_scope.

Set Implicit Arguments.

(** ** _bond_types.py *)

Inductive BondType : Type :=
| Stop | StopBase | Bool | Uint8 | Uint16 | Uint32 | Uint64
| Float | Double | String | Struct | List | Set_ | Map
| Int8 | Int16 | Int32 | Int64 | Wstring | Unavailable.

Definition BondType_code (t : BondType) : Z :=
  match t with
  | Stop => 0 | StopBase => 1 | Bool => 2 | Uint8 => 3 | Uint16 => 4
  | Uint32 => 5 | Uint64 => 6 | Float => 7 | Double => 8 | String => 9
  | Struct => 10 | List => 11 | Set_ => 12 | Map => 13 | Int8 => 14
  | Int16 => 15 | Int32 => 16 | Int64 => 17 | Wstring => 18
  | Unavailable => 127
  end.

(** [BondType(n)]: the member whose value is [n]; [None] stands for the
    [ValueError] the enum raises on any other integer. *)
Definition BondType_of_int (n : Z) : option BondType :=
  match n with
  | 0 => Some Stop | 1 => Some StopBase | 2 => Some Bool | 3 => Some Uint8
  | 4 => Some Uint16 | 5 => Some Uint32 | 6 => Some Uint64 | 7 => Some Float
  | 8 => Some Double | 9 => Some String | 10 => Some Struct | 11 => Some List
  | 12 => Some Set_ | 13 => Some Map | 14 => Some Int8 | 15 => Some Int16
  | 16 => Some Int32 | 17 => Some Int64 | 18 => Some Wstring
  | 127 => Some Unavailable
  | _ => None
  end.

Definition BondType_eqb (a b : BondType) : bool :=
  BondType_code a =? BondType_code b.

(** ** Exceptions and outcomes *)

Inductive Exception : Type :=
| IndexError            (* indexing an empty [bytes]: [data.read(1)[0]] at end of input *)
| ValueError            (* [BondType(n)] for an [n] that is no member *)
| StructError           (* [struct.unpack] on a buffer of the wrong size *)
| OverflowError         (* a size or a position that is no [Py_ssize_t] *)
| StringReadError
| WStringReadError
| ValueOutOfRangeError.

(** ** _madeleine.py: the value tree

    [BondValue] defines neither [__eq__] nor [__hash__]: two values are
    equal, and hash alike, only when they are the same object. [oid] is
    that identity: the serial number of the allocation that made the
    object. A float is kept as the bytes [struct.unpack] was given, a
    [str] as its code points. *)

Inductive BondValue : Type :=
  mkBondValue (oid : nat) (id : Z) (type : BondType) (value : Payload)
with Payload : Type :=
| PNone
| PInt (n : Z)
| PBool (b : bool)
| PFloat (bits : list byte)
| PStr (s : list N)
| PList (l : list BondValue)
| PDict (d : list (BondValue * BondValue)).

Definition oid (v : BondValue) : nat := let (o, _, _, _) := v in o.
Definition id (v : BondValue) : Z := let (_, i, _, _) := v in i.
Definition type (v : BondValue) : BondType := let (_, _, t, _) := v in t.
Definition value (v : BondValue) : Payload := let (_, _, _, p) := v in p.

Inductive PyResult (A : Type) : Type :=
| Returns (a : A)
| Raises (e : Exception).
Arguments Raises {A} e.

Definition get_elements (self : BondValue) : list BondValue :=
  if BondType_eqb (type self) List || BondType_eqb (type self) Set_
     || BondType_eqb (type self) Struct
  then match value self with PList l => l | _ => [] end
  else [].

Fixpoint find_id (i : Z) (elements : list BondValue) : option BondValue :=
  match elements with
  | [] => None
  | element :: more => if id element =? i then Some element else find_id i more
  end.

Definition get_by_id (self : BondValue) (i : Z) : option BondValue :=
  find_id i (get_elements self).

(** [seq[index]] on a tuple or a list: a negative index counts from the
    end, an index outside the sequence raises [IndexError] ([None]). *)
Definition py_item {A : Type} (seq : list A) (index : Z) : option A :=
  let n := Z.of_nat (length seq) in
  if (0 <=? index) && (index <? n) then nth_error seq (Z.to_nat index)
  else if (- n <=? index) && (index <? 0) then nth_error seq (Z.to_nat (n + index))
  else None.

(** [traverse(self, *ids, index=0)]. [index] is keyword-only, and the
    recursive call is [element.traverse(index + 1, *ids)]: the number
    [index + 1] becomes the first positional argument, so the callee's
    [ids] is [(index + 1, *ids)] and its [index] is the default 0. *)
Fixpoint traverse (self : BondValue) (ids : list Z) (index : Z) {struct self}
  : PyResult BondValue :=
  let scan :=
    fix scan (elements : list BondValue) : PyResult BondValue :=
      match elements with
      | [] => Returns self
      | element :: more =>
          match py_item ids index with
          | None => Raises IndexError
          | Some wanted =>
              if id element =? wanted then
                if index =? Z.of_nat (length ids) - 1 then Returns element
                else traverse element ((index + 1) :: ids) 0
              else scan more
          end
      end in
  match self with
  | mkBondValue _ _ t p =>
      if BondType_eqb t List || BondType_eqb t Set_ || BondType_eqb t Struct
      then match p with PList l => scan l | _ => Returns self end
      else Returns self
  end.

Definition get_value (self : BondValue) (index : Z) : PyResult BondValue :=
  let elements := get_elements self in
  if index <? Z.of_nat (length elements) then
    match py_item elements index with
    | Some element => Returns element
    | None => Raises IndexError
    end
  else Raises ValueOutOfRangeError.

(** ** The byte source and the decoding monad

    [offset] is the reader's position, [unread] the bytes from that
    position to the end of the input (none once the position is at or
    past the end), [fresh] the serial number the next allocated
    [BondValue] receives. *)

Record State : Type := mkState {
  offset : nat;
  unread : list byte;
  fresh : nat
}.

Inductive Outcome (A : Type) : Type :=
| Return (a : A) (s : State)
| Raise (e : Exception)
| OutOfFuel.
Arguments Raise {A} e.
Arguments OutOfFuel {A}.

Definition M (A : Type) : Type := State -> Outcome A.

Definition ret {A} (a : A) : M A := fun s => Return a s.
Definition raise {A} (e : Exception) : M A := fun _ => Raise e.
Definition bind {A B} (m : M A) (f : A -> M B) : M B :=
  fun s => match m s with
           | Return a s' => f a s'
           | Raise e => Raise e
           | OutOfFuel => OutOfFuel
           end.

Notation "x <- m ;; k" := (bind m (fun x => k))
  (at level 61, m at next level, right associativity).
Notation "' pat <- m ;; k" := (bind m (fun x => match x with pat => k end))
  (at level 61, pat pattern, m at next level, right associativity).

Definition byte_val (b : byte) : Z := Z.of_N (Byte.to_N b).

(** The largest [Py_ssize_t], [2 ^ 63 - 1]: sizes and positions of a
    stream go up to here. *)
Definition PY_SSIZE_T_MAX : Z := 0x7FFFFFFFFFFFFFFF.

(** [data.read(n)] for [n >= 0]: the next [n] bytes, fewer when fewer are
    left; an [n] that is no [Py_ssize_t] is refused before anything is
    read. *)
Definition read (n : nat) : M (list byte) :=
  fun s => if Z.of_nat n <=? PY_SSIZE_T_MAX
           then Return (firstn n (unread s))
                       (mkState (offset s + length (firstn n (unread s)))
                                (skipn n (unread s)) (fresh s))
           else Raise OverflowError.

(** [data.seek(n, 1)] for [n >= 0]: the position moves by [n], also past
    the end of the input, unless the new position is no [Py_ssize_t]. *)
Definition seek_cur (n : nat) : M unit :=
  fun s => if Z.of_nat (offset s + n) <=? PY_SSIZE_T_MAX
           then Return tt (mkState (offset s + n) (skipn n (unread s)) (fresh s))
           else Raise OverflowError.

(** [data.read(1)[0]] *)
Definition read_byte : M Z :=
  bs <- read 1 ;;
  match bs with
  | b :: _ => ret (byte_val b)
  | [] => raise IndexError
  end.

(** [BondValue(id, type, value)]: a new object. *)
Definition new_BondValue (i : Z) (t : BondType) (p : Payload) : M BondValue :=
  fun s => Return (mkBondValue (fresh s) i t p)
                  (mkState (offset s) (unread s) (S (fresh s))).

(** [BondType(n)] *)
Definition to_BondType (n : Z) : M BondType :=
  match BondType_of_int n with
  | Some t => ret t
  | None => raise ValueError
  end.

(** [int.from_bytes(bs, byteorder="little")] *)
Fixpoint int_from_bytes_little (bs : list byte) : Z :=
  match bs with
  | [] => 0
  | b :: more => byte_val b + 256 * int_from_bytes_little more
  end.

(** ** _uleb.py *)

(** The [while True] loop of [_uleb128_decode]: every turn reads one
    byte, so the loop is a recursion on the unread bytes; [off] counts
    the bytes read so far. *)
Fixpoint uleb128_loop (bs : list byte) (result shift : Z) (off : nat)
  : PyResult (Z * nat * list byte) :=
  match bs with
  | [] => Raises IndexError
  | b :: more =>
      let result := Z.lor result (Z.shiftl (Z.land (byte_val b) 0x7F) shift) in
      if Z.land (byte_val b) 0x80 =? 0 then Returns (result, S off, more)
      else uleb128_loop more result (shift + 7) (S off)
  end.

Definition _uleb128_decode : M Z :=
  fun s => match uleb128_loop (unread s) 0 0 0 with
           | Returns (result, n, more) =>
               Return result (mkState (offset s + n) more (fresh s))
           | Raises e => Raise e
           end.

Definition _sleb128_decode : M Z :=
  u <- _uleb128_decode ;;
  ret (Z.lxor (Z.shiftr u 1) (- (Z.land u 1))).

(** ** _bond_reader.py: tags *)

Definition _type_and_id : M (Z * BondType) :=
  id_and_type <- read_byte ;;
  bond_type <- to_BondType (Z.land id_and_type 0x1F) ;;
  let i := Z.shiftr id_and_type 5 in
  if i =? 6 then
    i <- read_byte ;; ret (i, bond_type)
  else if i =? 7 then
    bs <- read 2 ;; ret (int_from_bytes_little bs, bond_type)
  else ret (i, bond_type).

Definition _get_type_count : M (BondType * Z) :=
  len_and_type <- read_byte ;;
  bond_type <- to_BondType (Z.land len_and_type 0x1F) ;;
  let length := Z.shiftr len_and_type 5 in
  if length =? 0 then
    length <- _uleb128_decode ;; ret (bond_type, length)
  else ret (bond_type, length - 1).

Definition _read_blobs (count : Z) : M unit := seek_cur (Z.to_nat count).

Definition start (bs : list byte) : State := mkState 0 bs 0.

(** ** Text codecs

    [bytes.decode("utf-8")] and [bytes.decode("utf-16")] belong to the
    interpreter, not to the package: the reader is written over any
    pair of decoders, [None] standing for [UnicodeDecodeError]. *)

Class Codecs : Type := {
  decode_utf8 : list byte -> option (list N);
  decode_utf16 : list byte -> option (list N)
}.

(** The strict decoders of CPython, to run the reader on examples. *)
Module CPython.

Definition cont (b : byte) : bool :=
  (0x80 <=? byte_val b) && (byte_val b <=? 0xBF).

Definition between (lo hi : Z) (b : byte) : bool :=
  (lo <=? byte_val b) && (byte_val b <=? hi).

Definition low6 (b : byte) : Z := Z.land (byte_val b) 0x3F.

Fixpoint utf8 (bs : list byte) : option (list N) :=
  match bs with
  | [] => Some []
  | b0 :: more =>
      if byte_val b0 <? 0x80 then
        option_map (cons (Z.to_N (byte_val b0))) (utf8 more)
      else if between 0xC2 0xDF b0 then
        match more with
        | b1 :: more1 =>
            if cont b1
            then option_map
                   (cons (Z.to_N (Z.shiftl (Z.land (byte_val b0) 0x1F) 6 + low6 b1)))
                   (utf8 more1)
            else None
        | _ => None
        end
      else if between 0xE0 0xEF b0 then
        match more with
        | b1 :: b2 :: more2 =>
            if (if byte_val b0 =? 0xE0 then between 0xA0 0xBF b1
                else if byte_val b0 =? 0xED then between 0x80 0x9F b1
                else cont b1) && cont b2
            then option_map
                   (cons (Z.to_N (Z.shiftl (Z.land (byte_val b0) 0x0F) 12
                                  + Z.shiftl (low6 b1) 6 + low6 b2)))
                   (utf8 more2)
            else None
        | _ => None
        end
      else if between 0xF0 0xF4 b0 then
        match more with
        | b1 :: b2 :: b3 :: more3 =>
            if (if byte_val b0 =? 0xF0 then between 0x90 0xBF b1
                else if byte_val b0 =? 0xF4 then between 0x80 0x8F b1
                else cont b1) && cont b2 && cont b3
            then option_map
                   (cons (Z.to_N (Z.shiftl (Z.land (byte_val b0) 0x07) 18
                                  + Z.shiftl (low6 b1) 12
                                  + Z.shiftl (low6 b2) 6 + low6 b3)))
                   (utf8 more3)
            else None
        | _ => None
        end
      else None
  end.

(** The 16-bit units of a byte string, low byte first or high byte
    first; an odd byte left over is an error. *)
Fixpoint units (big_endian : bool) (bs : list byte) : option (list Z) :=
  match bs with
  | [] => Some []
  | [_] => None
  | b0 :: b1 :: more =>
      option_map
        (cons (if big_endian then 256 * byte_val b0 + byte_val b1
               else byte_val b0 + 256 * byte_val b1))
        (units big_endian more)
  end.

Fixpoint pairs (us : list Z) : option (list N) :=
  match us with
  | [] => Some []
  | u :: more =>
      if (0xD800 <=? u) && (u <=? 0xDBFF) then
        match more with
        | lo :: more1 =>
            if (0xDC00 <=? lo) && (lo <=? 0xDFFF)
            then option_map
                   (cons (Z.to_N (0x10000 + Z.shiftl (u - 0xD800) 10 + (lo - 0xDC00))))
                   (pairs more1)
            else None
        | [] => None
        end
      else if (0xDC00 <=? u) && (u <=? 0xDFFF) then None
      else option_map (cons (Z.to_N u)) (pairs more)
  end.

(** ["utf-16"]: a leading byte order mark sets the byte order and is
    dropped, without one the order is the machine's, little-endian. *)
Definition utf16 (bs : list byte) : option (list N) :=
  match bs with
  | b0 :: b1 :: more =>
      if (byte_val b0 =? 0xFF) && (byte_val b1 =? 0xFE) then
        match units false more with Some us => pairs us | None => None end
      else if (byte_val b0 =? 0xFE) && (byte_val b1 =? 0xFF) then
        match units true more with Some us => pairs us | None => None end
      else match units false bs with Some us => pairs us | None => None end
  | _ => match units false bs with Some us => pairs us | None => None end
  end.

Definition codecs : Codecs := {| decode_utf8 := utf8; decode_utf16 := utf16 |}.

End CPython.

(** ** _bond_reader.py: values *)

(** [val.value = p]: the object stays the same, its payload changes. *)
Definition set_value (val : BondValue) (p : Payload) : BondValue :=
  mkBondValue (oid val) (id val) (type val) p.

(** [values[key] = value] on a [dict] whose keys are [BondValue]s: the
    entry of the same key object is replaced where it stands, any other
    key is added at the end. *)
Fixpoint dict_set (values : list (BondValue * BondValue)) (key val : BondValue)
  : list (BondValue * BondValue) :=
  match values with
  | [] => [(key, val)]
  | (k, v) :: more =>
      if Nat.eqb (oid k) (oid key) then (k, val) :: more
      else (k, v) :: dict_set more key val
  end.

(** [values[key]] *)
Fixpoint dict_get (values : list (BondValue * BondValue)) (key : BondValue)
  : option BondValue :=
  match values with
  | [] => None
  | (k, v) :: more => if Nat.eqb (oid k) (oid key) then Some v else dict_get more key
  end.

(** [struct.unpack("b", bs)[0]] *)
Definition unpack_b (bs : list byte) : M Z :=
  match bs with
  | [b] => ret (if byte_val b <? 128 then byte_val b else byte_val b - 256)
  | _ => raise StructError
  end.

(** [struct.unpack("f", bs)[0]] and [struct.unpack("d", bs)[0]], for the
    sizes 4 and 8. *)
Definition unpack_float (size : nat) (bs : list byte) : M Payload :=
  if Nat.eqb (length bs) size then ret (PFloat bs) else raise StructError.

Section Reader.

Context {codecs : Codecs}.

(** The recursive call [_read_value(id, type, data)]. *)
Variable read_value : Z -> BondType -> M BondValue.

(** [for _ in range(count): values.append(_read_value(0, type, data))] *)
Fixpoint read_list_loop (count : nat) (t : BondType) (values : list BondValue)
  : M (list BondValue) :=
  match count with
  | O => ret values
  | S count =>
      val <- read_value 0 t ;;
      read_list_loop count t (values ++ [val])
  end.

(** The parameter [type] of [_read_list] is overwritten at once by the
    element type of the container tag. *)
Definition _read_list (_ : BondType) : M (list BondValue) :=
  '(t, count) <- _get_type_count ;;
  if BondType_eqb t List || BondType_eqb t Int8 || BondType_eqb t Uint8 then
    _ <- _read_blobs count ;; ret []
  else read_list_loop (Z.to_nat count) t [].

Fixpoint read_map_loop (count : nat) (key_type value_type : BondType)
         (values : list (BondValue * BondValue))
  : M (list (BondValue * BondValue)) :=
  match count with
  | O => ret values
  | S count =>
      key <- read_value 0 key_type ;;
      val <- read_value 0 value_type ;;
      read_map_loop count key_type value_type (dict_set values key val)
  end.

Definition _read_map : M (list (BondValue * BondValue)) :=
  k <- read_byte ;;
  key_type <- to_BondType (Z.land k 0x1F) ;;
  v <- read_byte ;;
  value_type <- to_BondType (Z.land v 0x1F) ;;
  count <- _uleb128_decode ;;
  read_map_loop (Z.to_nat count) key_type value_type [].

Definition _read_wstring : M (list N) :=
  length <- _uleb128_decode ;;
  bs <- read (Z.to_nat (length * 2)) ;;
  match decode_utf16 bs with
  | Some dat => ret dat
  | None => raise WStringReadError
  end.

Definition _read_string : M (list N) :=
  length <- _uleb128_decode ;;
  bs <- read (Z.to_nat length) ;;
  match decode_utf8 bs with
  | Some dat => ret dat
  | None => raise StringReadError
  end.

Definition _read_field : M BondValue :=
  '(i, t) <- _type_and_id ;;
  read_value i t.

(** The [while True] loop of [_read_struct]; [fuel] bounds its turns. *)
Fixpoint read_struct_loop (fuel : nat) (values : list BondValue)
  : M (list BondValue) :=
  match fuel with
  | O => fun _ => OutOfFuel
  | S fuel =>
      val <- _read_field ;;
      match type val with
      | Stop => ret values
      | StopBase => read_struct_loop fuel values
      | _ => read_struct_loop fuel (values ++ [val])
      end
  end.

Definition _read_struct (fuel : nat) : M (list BondValue) :=
  _length <- _uleb128_decode ;;
  read_struct_loop fuel [].

(** The body of [_read_value]. *)
Definition read_value_body (fuel : nat) (i : Z) (t : BondType) : M BondValue :=
  val <- new_BondValue i t PNone ;;
  match t with
  | Struct =>
      l <- _read_struct fuel ;; ret (set_value val (PList l))
  | Int32 | Int64 | Int16 =>
      n <- _sleb128_decode ;; ret (set_value val (PInt n))
  | Uint16 | Uint32 | Uint64 =>
      n <- _uleb128_decode ;; ret (set_value val (PInt n))
  | Uint8 =>
      n <- read_byte ;; ret (set_value val (PInt n))
  | Int8 =>
      bs <- read 1 ;; n <- unpack_b bs ;; ret (set_value val (PInt n))
  | Bool =>
      n <- read_byte ;; ret (set_value val (PBool (negb (n =? 0))))
  | Float =>
      bs <- read 4 ;; p <- unpack_float 4 bs ;; ret (set_value val p)
  | Double =>
      bs <- read 8 ;; p <- unpack_float 8 bs ;; ret (set_value val p)
  | Set_ | List =>
      l <- _read_list t ;; ret (set_value val (PList l))
  | Map =>
      d <- _read_map ;; ret (set_value val (PDict d))
  | Wstring =>
      s <- _read_wstring ;; ret (set_value val (PStr s))
  | String =>
      s <- _read_string ;; ret (set_value val (PStr s))
  | Stop | StopBase | Unavailable => ret val
  end.

End Reader.

(** [_read_value]: [fuel] bounds the depth of the recursion, and the
    turns of every struct loop on the way. *)
Fixpoint _read_value {codecs : Codecs} (fuel : nat) (i : Z) (t : BondType)
  : M BondValue :=
  match fuel with
  | O => fun _ => OutOfFuel
  | S fuel => read_value_body (_read_value fuel) fuel i t
  end.

(** Every level of nesting and every turn of a struct loop reads at
    least one byte, so one more unit of fuel than there are unread bytes
    is never used up ([fuel_suffices]). *)
Definition enough (s : State) : nat := S (length (unread s)).

Definition _get_base_struct {codecs : Codecs} : M BondValue :=
  fun s =>
    (l <- _read_struct (_read_value (enough s)) (enough s) ;;
     new_BondValue 0 Struct (PList l)) s.


(** * Vocabulary of the statements *)

(** A byte that asks for another one: its high bit is set. *)
Definition continues (b : byte) : bool := negb (Z.land (byte_val b) 0x80 =? 0).

(** The number a sequence of 7-bit groups writes in base 128, lowest
    group first. *)
Fixpoint base128 (bs : list byte) : Z :=
  match bs with
  | [] => 0
  | b :: more => Z.land (byte_val b) 0x7F + 128 * base128 more
  end.

(** The walk the documentation of [traverse] describes: [get_by_id] for
    one id after the other, stopping at the node reached last when an id
    has no match. *)
Fixpoint walk (fuel : list Z) (self : BondValue) : BondValue :=
  match fuel with
  | [] => self
  | i :: ids =>
      match get_by_id self i with
      | Some element => walk ids element
      | None => self
      end
  end.

(** What [traverse] does after its first step: it keeps descending into
    the first child whose id is 1. *)
Fixpoint follow_ones (self : BondValue) : BondValue :=
  let scan :=
    fix scan (elements : list BondValue) : BondValue :=
      match elements with
      | [] => self
      | element :: more => if id element =? 1 then follow_ones element else scan more
      end in
  match self with
  | mkBondValue _ _ t p =>
      if BondType_eqb t List || BondType_eqb t Set_ || BondType_eqb t Struct
      then match p with PList l => scan l | _ => self end
      else self
  end.

(** A root whose child 1 is a struct whose child 2 is the string "x". *)
Definition leaf_x : BondValue := mkBondValue 2 2 String (PStr [120%N]).
Definition child_1 : BondValue := mkBondValue 1 1 Struct (PList [leaf_x]).
Definition root_1_2 : BondValue := mkBondValue 0 0 Struct (PList [child_1]).

(** [m'] gives what [m] gives wherever [m] has fuel enough to answer. *)
Definition refines {A} (m m' : M A) : Prop :=
  forall s, m s <> OutOfFuel -> m' s = m s.

(** [_get_base_struct] with the fuel given from outside. *)
Definition base_struct_with {codecs : Codecs} (fuel : nat) : M BondValue :=
  l <- _read_struct (_read_value fuel) fuel ;;
  new_BondValue 0 Struct (PList l).

(** [m] never gives back more unread bytes than it was given; [m] reads
    at least one byte when it returns. *)
Definition shrinks {A} (m : M A) : Prop :=
  forall s a s', m s = Return a s' -> (length (unread s') <= length (unread s))%nat.

Definition consumes {A} (m : M A) : Prop :=
  forall s a s', m s = Return a s' -> (length (unread s') < length (unread s))%nat.

(** [m] answers without running out of fuel whenever fewer than [n]
    bytes are unread. *)
Definition safe {A} (n : nat) (m : M A) : Prop :=
  forall s, (length (unread s) < n)%nat -> m s <> OutOfFuel.

(** The same reader over an input cut after [k] more bytes. *)
Definition trunc (k : nat) (s : State) : State :=
  mkState (offset s) (firstn k (unread s)) (fresh s).

(** The exceptions a read that comes up short can end in. *)
Definition truncation_error (e : Exception) : bool :=
  match e with
  | IndexError | StructError | StringReadError | WStringReadError => true
  | ValueError | OverflowError | ValueOutOfRangeError => false
  end.

(** An outcome that is no answer; an outcome that is no answer unless
    the input is used up. *)
Definition stuck {A} (r : Outcome A) : Prop :=
  match r with
  | Return _ _ => False
  | Raise e => truncation_error e = true
  | OutOfFuel => True
  end.

Definition starved {A} (r : Outcome A) : Prop :=
  match r with
  | Return _ s => unread s = []
  | Raise e => truncation_error e = true
  | OutOfFuel => True
  end.

(** [m] moves forward only, and a cut of the input changes nothing as
    long as [m] stays before the cut; once it would cross the cut the
    outcome is [bad]. *)
Definition stable {A} (bad : Outcome A -> Prop) (m : M A) : Prop :=
  forall s a s', m s = Return a s' ->
    exists c : nat,
      offset s' = (offset s + c)%nat /\ unread s' = skipn c (unread s)
      /\ (fresh s <= fresh s')%nat
      /\ forall k : nat,
          ((c <= k)%nat -> m (trunc k s) = Return a (trunc (k - c) s'))
          /\ ((k < c)%nat -> bad (m (trunc k s))).

(** [m] at the end of the input. *)
Definition at_end {A} (bad : Outcome A -> Prop) (m : M A) : Prop :=
  forall s, unread s = [] -> bad (m s).

(** [m] needs no fuel. *)
Definition total {A} (m : M A) : Prop := forall s, m s <> OutOfFuel.

(** The fields a struct loop reads from [s]: all of them up to the first
    one of type [Stop], which is read and left out. *)
Inductive fields_to_stop (read_field : M BondValue)
  : State -> list BondValue -> State -> Prop :=
| stop_field s val s' :
    read_field s = Return val s' -> type val = Stop ->
    fields_to_stop read_field s [] s'
| more_field s val s1 vals s' :
    read_field s = Return val s1 -> type val <> Stop ->
    fields_to_stop read_field s1 vals s' ->
    fields_to_stop read_field s (val :: vals) s'.

(** The fields a struct keeps: all but those of type [StopBase]. *)
Definition kept (vals : list BondValue) : list BondValue :=
  filter (fun val => negb (BondType_eqb (type val) StopBase)) vals.

(** [n] fields read one after the other, none of type [Stop]. *)
Inductive fields_before (read_field : M BondValue) : State -> nat -> State -> Prop :=
| before_none s : fields_before read_field s 0 s
| before_next s val s1 n s' :
    read_field s = Return val s1 -> type val <> Stop ->
    fields_before read_field s1 n s' ->
    fields_before read_field s (S n) s'.

(** [n] values of type [t] and id 0 read one after the other. *)
Inductive elements_read (read_value : Z -> BondType -> M BondValue) (t : BondType)
  : nat -> State -> list BondValue -> State -> Prop :=
| elements_none s : elements_read read_value t 0 s [] s
| elements_next n s val s1 vals s' :
    read_value 0 t s = Return val s1 ->
    elements_read read_value t n s1 vals s' ->
    elements_read read_value t (S n) s (val :: vals) s'.

(** [n] keys and values read in turn, both with id 0. *)
Inductive entries_read (read_value : Z -> BondType -> M BondValue)
          (key_type value_type : BondType)
  : nat -> State -> list (BondValue * BondValue) -> State -> Prop :=
| entries_none s : entries_read read_value key_type value_type 0 s [] s
| entries_next n s key s1 val s2 entries s' :
    read_value 0 key_type s = Return key s1 ->
    read_value 0 value_type s1 = Return val s2 ->
    entries_read read_value key_type value_type n s2 entries s' ->
    entries_read read_value key_type value_type (S n) s ((key, val) :: entries) s'.

(** Two nodes that hold the same thing. *)
Definition same_content (a b : BondValue) : Prop :=
  id a = id b /\ type a = type b /\ value a = value b.

(** The outcome of decoding an input that was cut short, against the
    node [v] the whole input decodes to: the same node or an exception
    of the kind a short read ends in. *)
Definition same_or_fails (v : BondValue) (r : Outcome BondValue) : Prop :=
  match r with
  | Return v' _ => v' = v
  | Raise e => truncation_error e = true
  | OutOfFuel => False
  end.

(** The signed integer zig-zag makes of the unsigned [u]: the even
    numbers count up from 0, the odd ones down from -1. *)
Definition zigzag (u : Z) : Z := if Z.even u then u / 2 else - (u / 2) - 1.

(** The unsigned number zig-zag stands for the signed [z] by. *)
Definition zigzag_code (z : Z) : Z := if 0 <=? z then 2 * z else - 2 * z - 1.

(** The byte of value [z], for [0 <= z < 256]. *)
Definition byte_of (z : Z) : byte :=
  match Byte.of_N (Z.to_N z) with Some b => b | None => x00 end.

(** The writer's side of the varint, which the package does not have:
    [v] in [more] continuing bytes and a last one, seven bits each,
    lowest bits first. *)
Fixpoint uleb128_bytes (more : nat) (v : Z) : list byte :=
  match more with
  | O => [byte_of (v mod 128)]
  | S more => byte_of (v mod 128 + 128) :: uleb128_bytes more (v / 128)
  end.

(** [x] is [v] or lies below it, along [get_elements]. *)
Inductive inside : BondValue -> BondValue -> Prop :=
| inside_self v : inside v v
| inside_child v c x : In c (get_elements v) -> inside c x -> inside v x.

(** The same reader with its unread bytes at position [o] of the
    stream. *)
Definition at_offset (o : nat) (s : State) : State :=
  mkState o (unread s) (fresh s).

(** [m] looks at the position only to keep it in range. A run that
    returns after moving on by [c] returns the same from every position
    nearer to the start of the stream, and from every position from
    which moving on by [c] stays in range; a run that raises anything
    but [OverflowError] raises the same from every position nearer to
    the start. *)
Definition relocatable {A} (m : M A) : Prop :=
  forall s,
    (forall a s',
        m s = Return a s' ->
        exists c : nat,
          offset s' = (offset s + c)%nat
          /\ forall o : nat,
               (o <= offset s)%nat \/ Z.of_nat (o + c) <= PY_SSIZE_T_MAX ->
               m (at_offset o s) = Return a (at_offset (o + c) s'))
    /\ (forall e,
           m s = Raise e -> e <> OverflowError ->
           forall o : nat, (o <= offset s)%nat -> m (at_offset o s) = Raise e).

(** The payload a type comes with. *)
Definition payload_shape (t : BondType) (p : Payload) : Prop :=
  match t, p with
  | (Stop | StopBase | Unavailable), PNone => True
  | Bool, PBool _ => True
  | Uint8, PInt n => 0 <= n <= 255
  | Int8, PInt n => -128 <= n <= 127
  | (Uint16 | Uint32 | Uint64), PInt n => 0 <= n
  | (Int16 | Int32 | Int64), PInt _ => True
  | Float, PFloat bits => length bits = 4%nat
  | Double, PFloat bits => length bits = 8%nat
  | (String | Wstring), PStr _ => True
  | _, _ => False
  end.

(** A tree as the reader builds them: every node has the payload of its
    type; the fields of a struct are no stop markers and have ids that
    fit 16 bits; the elements of a list or set have id 0 and one common
    type, and there are none when that type is skipped as a blob; the
    keys of a map and its values have id 0 and one type each. *)
#[warnings="-register-all"]
Inductive well_formed : BondValue -> Prop :=
| wf_scalar o i t p :
    payload_shape t p -> well_formed (mkBondValue o i t p)
| wf_struct o i l :
    Forall well_formed l ->
    Forall (fun c => type c <> Stop /\ type c <> StopBase /\ type c <> Unavailable
                     /\ 0 <= id c < 65536) l ->
    well_formed (mkBondValue o i Struct (PList l))
| wf_list o i t et l :
    t = List \/ t = Set_ -> et <> Unavailable ->
    Forall well_formed l ->
    Forall (fun c => id c = 0 /\ type c = et) l ->
    (et = List \/ et = Int8 \/ et = Uint8 -> l = []) ->
    well_formed (mkBondValue o i t (PList l))
| wf_map o i kt vt d :
    kt <> Unavailable -> vt <> Unavailable ->
    Forall well_formed (map fst d) -> Forall well_formed (map snd d) ->
    Forall (fun kv => id (fst kv) = 0 /\ type (fst kv) = kt
                      /\ id (snd kv) = 0 /\ type (snd kv) = vt) d ->
    well_formed (mkBondValue o i Map (PDict d)).

(** The identities of the nodes of a tree, the node first, then its
    elements in order, for a map every key before its value. *)
Fixpoint node_oids (v : BondValue) : list nat :=
  match v with
  | mkBondValue o _ _ p =>
      o :: match p with
           | PList l =>
               (fix of_list (l : list BondValue) : list nat :=
                  match l with
                  | [] => []
                  | x :: more => node_oids x ++ of_list more
                  end) l
           | PDict d =>
               (fix of_dict (d : list (BondValue * BondValue)) : list nat :=
                  match d with
                  | [] => []
                  | (k, x) :: more => node_oids k ++ node_oids x ++ of_dict more
                  end) d
           | _ => []
           end
  end.

(** Identities that are pairwise different and were given out while the
    object counter went from [lo] to [hi]. *)
Definition owned (lo hi : nat) (l : list nat) : Prop :=
  NoDup l /\ Forall (fun o => (lo <= o < hi)%nat) l.

(** The exceptions of the reader: every one but the one of [get_value]. *)
Definition reader_error (e : Exception) : bool :=
  match e with
  | ValueOutOfRangeError => false
  | _ => true
  end.

(** [m] raises nothing but the exceptions of the reader. *)
Definition raises_reader_errors {A} (m : M A) : Prop :=
  forall s e, m s = Raise e -> reader_error e = true.

(** * Properties *)

(** ** Bytes, tags and the monad *)

Lemma byte_val_range (b : byte) : 0 <= byte_val b < 256.
Proof.
  unfold byte_val. pose proof (Byte.to_N_bounded b). lia.
Qed.

Lemma BondType_of_int_code (n : Z) (t : BondType) :
  BondType_of_int n = Some t -> BondType_code t = n.
Proof.
  destruct n as [|p|p]; simpl; intros H; try discriminate.
  - now inversion H.
  - do 7 (try destruct p as [p|p|]); try discriminate H; now inversion H.
Qed.

Lemma BondType_of_code (t : BondType) : BondType_of_int (BondType_code t) = Some t.
Proof. now destruct t. Qed.

Lemma BondType_eqb_eq (a b : BondType) : BondType_eqb a b = true <-> a = b.
Proof.
  split; [|intros ->; apply Z.eqb_refl].
  destruct a, b; intros H; try reflexivity; discriminate H.
Qed.

Lemma selector_range (b : byte) : 0 <= Z.shiftr (byte_val b) 5 <= 7.
Proof.
  pose proof (byte_val_range b) as Hb.
  rewrite Z.shiftr_div_pow2 by lia. change (2 ^ 5) with 32.
  split; [apply Z.div_pos; lia|].
  assert (byte_val b / 32 < 8) by (apply Z.div_lt_upper_bound; lia). lia.
Qed.

Lemma bind_Return {A B} (m : M A) (f : A -> M B) s b s' :
  bind m f s = Return b s' ->
  exists a s1, m s = Return a s1 /\ f a s1 = Return b s'.
Proof.
  unfold bind. destruct (m s) as [a s1| |]; try discriminate. eauto.
Qed.

Lemma bind_eq_Return {A B} (m : M A) (f : A -> M B) s a s1 :
  m s = Return a s1 -> bind m f s = f a s1.
Proof. unfold bind. now intros ->. Qed.

Lemma bind_eq_Raise {A B} (m : M A) (f : A -> M B) s e :
  m s = Raise e -> bind m f s = Raise e.
Proof. unfold bind. now intros ->. Qed.

(** ** The byte source *)

Lemma PY_SSIZE_T_MAX_eq : PY_SSIZE_T_MAX = 2 ^ 63 - 1.
Proof. reflexivity. Qed.

Lemma read_in_range (n : nat) (s : State) :
  Z.of_nat n <= PY_SSIZE_T_MAX ->
  read n s = Return (firstn n (unread s))
                    (mkState (offset s + length (firstn n (unread s)))
                             (skipn n (unread s)) (fresh s)).
Proof. intros H. unfold read. apply Z.leb_le in H. now rewrite H. Qed.

Lemma read_too_large (n : nat) (s : State) :
  PY_SSIZE_T_MAX < Z.of_nat n -> read n s = Raise OverflowError.
Proof. intros H. unfold read. apply Z.leb_gt in H. now rewrite H. Qed.

Lemma read_Return (n : nat) (s : State) bs s' :
  read n s = Return bs s' ->
  Z.of_nat n <= PY_SSIZE_T_MAX /\ bs = firstn n (unread s)
  /\ s' = mkState (offset s + length (firstn n (unread s))) (skipn n (unread s)) (fresh s).
Proof.
  unfold read. destruct (Z.leb_spec (Z.of_nat n) PY_SSIZE_T_MAX) as [Hle|Hgt];
    [|discriminate].
  intros H. inversion H. now repeat split.
Qed.

Lemma read_Raise (n : nat) (s : State) e :
  read n s = Raise e -> e = OverflowError /\ PY_SSIZE_T_MAX < Z.of_nat n.
Proof.
  unfold read. destruct (Z.leb_spec (Z.of_nat n) PY_SSIZE_T_MAX) as [Hle|Hgt];
    [discriminate|].
  intros H. inversion H. now split.
Qed.

Lemma seek_cur_in_range (n : nat) (s : State) :
  Z.of_nat (offset s + n) <= PY_SSIZE_T_MAX ->
  seek_cur n s = Return tt (mkState (offset s + n) (skipn n (unread s)) (fresh s)).
Proof. intros H. unfold seek_cur. apply Z.leb_le in H. now rewrite H. Qed.

Lemma seek_cur_too_far (n : nat) (s : State) :
  PY_SSIZE_T_MAX < Z.of_nat (offset s + n) -> seek_cur n s = Raise OverflowError.
Proof. intros H. unfold seek_cur. apply Z.leb_gt in H. now rewrite H. Qed.

Lemma seek_cur_Return (n : nat) (s : State) x s' :
  seek_cur n s = Return x s' ->
  Z.of_nat (offset s + n) <= PY_SSIZE_T_MAX
  /\ s' = mkState (offset s + n) (skipn n (unread s)) (fresh s).
Proof.
  unfold seek_cur. destruct (Z.leb_spec (Z.of_nat (offset s + n)) PY_SSIZE_T_MAX)
    as [Hle|Hgt]; [|discriminate].
  intros H. inversion H. now split.
Qed.

Lemma seek_cur_Raise (n : nat) (s : State) e :
  seek_cur n s = Raise e ->
  e = OverflowError /\ PY_SSIZE_T_MAX < Z.of_nat (offset s + n).
Proof.
  unfold seek_cur. destruct (Z.leb_spec (Z.of_nat (offset s + n)) PY_SSIZE_T_MAX)
    as [Hle|Hgt]; [discriminate|].
  intros H. inversion H. now split.
Qed.

Lemma read_byte_cons (b : byte) more off fr :
  read_byte (mkState off (b :: more) fr) = Return (byte_val b) (mkState (off + 1) more fr).
Proof. reflexivity. Qed.

Lemma read_byte_nil off fr : read_byte (mkState off [] fr) = Raise IndexError.
Proof. reflexivity. Qed.

(** ** Varints *)

Lemma low7_range (b : byte) : 0 <= Z.land (byte_val b) 0x7F < 128.
Proof.
  change 0x7F with (Z.ones 7). rewrite Z.land_ones by lia.
  apply Z.mod_pos_bound. reflexivity.
Qed.

Lemma base128_nonneg (bs : list byte) : 0 <= base128 bs.
Proof.
  induction bs as [|b more IH]; cbn [base128]; [lia|].
  pose proof (low7_range b). lia.
Qed.

Lemma base128_bound (bs : list byte) : base128 bs < 128 ^ Z.of_nat (length bs).
Proof.
  induction bs as [|b more IH]; [reflexivity|].
  cbn [base128 length]. rewrite Nat2Z.inj_succ, Z.pow_succ_r by lia.
  pose proof (low7_range b). pose proof (base128_nonneg more). lia.
Qed.

Lemma lor_shiftl_add (r x s : Z) :
  0 <= s -> 0 <= r < 2 ^ s -> Z.lor r (Z.shiftl x s) = r + x * 2 ^ s.
Proof.
  intros Hs Hr.
  assert (Hdisj : Z.land r (Z.shiftl x s) = 0).
  { apply Z.bits_inj'. intros m Hm.
    rewrite Z.land_spec, Z.bits_0.
    destruct (Z.lt_ge_cases m s) as [Hlt|Hge].
    - rewrite Z.shiftl_spec_low by assumption. apply andb_false_r.
    - rewrite <- (Z.mod_small r (2 ^ s)) by assumption.
      rewrite Z.mod_pow2_bits_high by lia. reflexivity. }
  rewrite <- Z.lxor_lor, <- Z.add_nocarry_lxor by assumption.
  now rewrite Z.shiftl_mul_pow2.
Qed.

Lemma uleb128_loop_exact (body : list byte) :
  forall (last : byte) (more : list byte) (result shift : Z) (off : nat),
    forallb continues body = true -> continues last = false ->
    0 <= shift -> 0 <= result < 2 ^ shift ->
    uleb128_loop (body ++ last :: more) result shift off
    = Returns (result + 2 ^ shift * base128 (body ++ [last]),
               (off + length body + 1)%nat, more).
Proof.
  induction body as [|b body IH]; intros last more result shift off Hbody Hlast Hs Hr.
  - cbn [app uleb128_loop base128 length].
    unfold continues in Hlast. apply negb_false_iff in Hlast. rewrite Hlast.
    rewrite lor_shiftl_add by assumption.
    do 3 f_equal; [lia | now rewrite Nat.add_0_r, Nat.add_1_r].
  - cbn [forallb] in Hbody. apply andb_true_iff in Hbody as [Hb Hbody].
    cbn [app uleb128_loop base128 length].
    unfold continues in Hb. apply negb_true_iff in Hb. rewrite Hb.
    pose proof (low7_range b) as Hlow.
    rewrite lor_shiftl_add by assumption.
    rewrite IH; try assumption; try lia.
    + do 3 f_equal; [|lia].
      rewrite Z.pow_add_r by lia. change (2 ^ 7) with 128. cbn [app]. lia.
    + rewrite Z.pow_add_r by lia. change (2 ^ 7) with 128. nia.
Qed.

Lemma uleb128_decode_exact (body : list byte) (last : byte) (more : list byte) off fr :
  forallb continues body = true -> continues last = false ->
  _uleb128_decode (mkState off (body ++ last :: more) fr)
  = Return (base128 (body ++ [last])) (mkState (off + length body + 1) more fr).
Proof.
  intros Hbody Hlast. unfold _uleb128_decode. cbn [unread offset fresh].
  rewrite (@uleb128_loop_exact body last more 0 0 0 Hbody Hlast) by (simpl; lia).
  rewrite Z.pow_0_r, Z.mul_1_l, Z.add_0_l. do 2 f_equal. lia.
Qed.

(** Whatever [_uleb128_decode] returns was written by the bytes it read:
    some continuing bytes and one that ends the number. *)
Lemma uleb128_loop_inv (bs : list byte) :
  forall result shift off v n more,
    uleb128_loop bs result shift off = Returns (v, n, more) ->
    exists body last,
      bs = body ++ last :: more /\ forallb continues body = true /\
      continues last = false /\ n = (off + length body + 1)%nat.
Proof.
  induction bs as [|b bs IH]; intros result shift off v n more H; [discriminate|].
  cbn [uleb128_loop] in H.
  destruct (Z.land (byte_val b) 128 =? 0) eqn:Hb.
  - inversion H; subst. exists [], b. unfold continues. rewrite Hb.
    repeat split. simpl. lia.
  - apply IH in H as (body & last & -> & Hbody & Hlast & ->).
    exists (b :: body), last. cbn [forallb length app]. unfold continues at 1.
    rewrite Hb, Hbody. repeat split; try assumption. lia.
Qed.

Lemma uleb128_decode_inv s v s' :
  _uleb128_decode s = Return v s' ->
  exists body last,
    unread s = body ++ last :: unread s' /\ forallb continues body = true /\
    continues last = false /\ offset s' = (offset s + length body + 1)%nat /\
    fresh s' = fresh s /\ v = base128 (body ++ [last]).
Proof.
  unfold _uleb128_decode. intros H.
  destruct (uleb128_loop (unread s) 0 0 0) as [[[r n] more]|e] eqn:Hloop; [|discriminate].
  inversion H; subst; clear H. cbn [unread offset fresh].
  destruct (uleb128_loop_inv _ _ _ _ Hloop) as (body & last & Hbs & Hbody & Hlast & ->).
  exists body, last. repeat split; try assumption; try lia.
  rewrite Hbs in Hloop.
  rewrite (@uleb128_loop_exact body last more 0 0 0 Hbody Hlast) in Hloop by (simpl; lia).
  rewrite Z.pow_0_r, Z.mul_1_l, Z.add_0_l in Hloop. now inversion Hloop.
Qed.

Lemma uleb128_decode_nonneg s v s' : _uleb128_decode s = Return v s' -> 0 <= v.
Proof.
  intros H. apply uleb128_decode_inv in H as (body & last & _ & _ & _ & _ & _ & ->).
  apply base128_nonneg.
Qed.

(** No terminating byte among the unread ones: the loop runs into the
    end of the input. *)
Lemma uleb128_loop_exhausted (bs : list byte) :
  forall result shift off,
    forallb continues bs = true ->
    uleb128_loop bs result shift off = Raises IndexError.
Proof.
  induction bs as [|b bs IH]; intros result shift off H; [reflexivity|].
  cbn [forallb] in H. apply andb_true_iff in H as [Hb H].
  cbn [uleb128_loop]. unfold continues in Hb. apply negb_true_iff in Hb.
  rewrite Hb. now apply IH.
Qed.

Lemma base128_continuing (n : nat) :
  base128 (repeat x80 n ++ [x01]) = 128 ^ Z.of_nat n.
Proof.
  induction n as [|n IH]; [reflexivity|].
  cbn [repeat app base128]. rewrite IH, Nat2Z.inj_succ, Z.pow_succ_r by lia.
  change (Z.land (byte_val x80) 127) with 0. lia.
Qed.

Lemma forallb_continues_repeat (n : nat) : forallb continues (repeat x80 n) = true.
Proof. induction n as [|n IH]; [reflexivity|]. cbn [repeat forallb]. now rewrite IH. Qed.

(** C9 (as stated, refuted). No width [w] makes the decoded number the
    base-128 value reduced modulo [2 ^ w]: [w] continuing bytes [0x80]
    and a final [0x01] decode to [128 ^ w], which no such reduction
    returns. *)
Lemma uleb128_decode_never_wraps :
  ~ exists w : Z, 0 <= w /\
      forall (bs : list byte) (v : Z) (s' : State),
        _uleb128_decode (start bs) = Return v s' ->
        v = base128 (firstn (offset s') bs) mod 2 ^ w.
Proof.
  intros (w & Hw & Hwrap).
  pose (n := Z.to_nat w).
  pose proof (@uleb128_decode_exact (repeat x80 n) x01 [] 0 0
                (forallb_continues_repeat n) eq_refl) as Hrun.
  apply Hwrap in Hrun. cbn [offset] in Hrun.
  rewrite firstn_all2 in Hrun by (rewrite length_app; simpl; lia).
  rewrite base128_continuing in Hrun. unfold n in Hrun. rewrite Z2Nat.id in Hrun by lia.
  change 128 with (2 ^ 7) in Hrun. rewrite <- Z.pow_mul_r in Hrun by lia.
  replace (7 * w) with (6 * w + w) in Hrun by lia.
  rewrite Z.pow_add_r, Z.mod_mul in Hrun by lia.
  assert (0 < 2 ^ (6 * w) * 2 ^ w) by (apply Z.mul_pos_pos; apply Z.pow_pos_nonneg; lia).
  lia.
Qed.

(** C9 (amended). [_uleb128_decode] bounds neither the number of bytes
    nor the number: on any run of continuing bytes closed by a byte with
    its high bit clear it returns exactly the base-128 value those bytes
    write, having read them and nothing else. *)
Theorem uleb128_decode_unbounded (body : list byte) (last : byte) (more : list byte)
        (off fr : nat) :
  forallb continues body = true -> continues last = false ->
  _uleb128_decode (mkState off (body ++ last :: more) fr)
  = Return (base128 (body ++ [last])) (mkState (off + length body + 1) more fr).
Proof. apply uleb128_decode_exact. Qed.

Lemma uleb128_decode_unbounded_witness :
  (forallb continues [x80; x80; x80; x80; x80; x80; x80; x80; x80] = true
   /\ continues x02 = false)
  /\ _uleb128_decode (mkState 0 ([x80; x80; x80; x80; x80; x80; x80; x80; x80] ++ [x02]) 0)
     = Return (2 ^ 64) (mkState 10 [] 0).
Proof.
  split; [split; reflexivity|].
  exact (@uleb128_decode_unbounded [x80; x80; x80; x80; x80; x80; x80; x80; x80]
           x02 [] 0 0 eq_refl eq_refl).
Defined.

(** ** Tags *)

Lemma type_and_id_cons (b : byte) (t : BondType) (more : list byte) (off fr : nat) :
  BondType_of_int (Z.land (byte_val b) 0x1F) = Some t ->
  _type_and_id (mkState off (b :: more) fr)
  = (if Z.shiftr (byte_val b) 5 =? 6 then
       i <- read_byte ;; ret (i, t)
     else if Z.shiftr (byte_val b) 5 =? 7 then
       bs <- read 2 ;; ret (int_from_bytes_little bs, t)
     else ret (Z.shiftr (byte_val b) 5, t)) (mkState (off + 1) more fr).
Proof.
  intros Ht. unfold _type_and_id. unfold bind at 1. rewrite read_byte_cons.
  unfold bind at 1. unfold to_BondType. rewrite Ht. reflexivity.
Qed.

Lemma get_type_count_cons (b : byte) (t : BondType) (more : list byte) (off fr : nat) :
  BondType_of_int (Z.land (byte_val b) 0x1F) = Some t ->
  _get_type_count (mkState off (b :: more) fr)
  = (if Z.shiftr (byte_val b) 5 =? 0 then
       length <- _uleb128_decode ;; ret (t, length)
     else ret (t, Z.shiftr (byte_val b) 5 - 1)) (mkState (off + 1) more fr).
Proof.
  intros Ht. unfold _get_type_count. unfold bind at 1. rewrite read_byte_cons.
  unfold bind at 1. unfold to_BondType. rewrite Ht. reflexivity.
Qed.

(** C4. A field header byte gives the type in its low 5 bits and an id
    selector in its high 3 bits: a selector up to 5 is the id and
    nothing more is read; selector 6 takes the next byte as the id;
    selector 7 takes the next two bytes, low byte first. *)
Theorem type_and_id_packing (b : byte) (t : BondType) (more : list byte) (off fr : nat) :
  BondType_of_int (Z.land (byte_val b) 0x1F) = Some t ->
  BondType_code t = Z.land (byte_val b) 0x1F
  /\ 0 <= Z.shiftr (byte_val b) 5 <= 7
  /\ (Z.shiftr (byte_val b) 5 <= 5 ->
      _type_and_id (mkState off (b :: more) fr)
      = Return (Z.shiftr (byte_val b) 5, t) (mkState (off + 1) more fr))
  /\ (Z.shiftr (byte_val b) 5 = 6 ->
      forall x rest, more = x :: rest ->
        0 <= byte_val x <= 255
        /\ _type_and_id (mkState off (b :: more) fr)
           = Return (byte_val x, t) (mkState (off + 2) rest fr))
  /\ (Z.shiftr (byte_val b) 5 = 7 ->
      forall lo hi rest, more = lo :: hi :: rest ->
        0 <= byte_val lo + 256 * byte_val hi < 2 ^ 16
        /\ _type_and_id (mkState off (b :: more) fr)
           = Return (byte_val lo + 256 * byte_val hi, t) (mkState (off + 3) rest fr)).
Proof.
  intros Ht. pose proof (selector_range b) as Hsel.
  split; [now apply BondType_of_int_code|]. split; [exact Hsel|].
  rewrite (type_and_id_cons b more off fr Ht).
  repeat split.
  - intros H5. destruct (Z.eqb_spec (Z.shiftr (byte_val b) 5) 6); [lia|].
    destruct (Z.eqb_spec (Z.shiftr (byte_val b) 5) 7); [lia|]. reflexivity.
  - pose proof (byte_val_range x). lia.
  - pose proof (byte_val_range x). lia.
  - subst more. rewrite H. cbn [Z.eqb Pos.eqb]. unfold bind. rewrite read_byte_cons.
    unfold ret. f_equal. f_equal. lia.
  - pose proof (byte_val_range lo). pose proof (byte_val_range hi). lia.
  - pose proof (byte_val_range lo). pose proof (byte_val_range hi).
    change (2 ^ 16) with 65536. lia.
  - subst more. rewrite H. cbn [Z.eqb Pos.eqb]. unfold bind.
    rewrite read_in_range by (unfold PY_SSIZE_T_MAX; lia). unfold ret.
    cbn [unread offset fresh firstn skipn length int_from_bytes_little].
    f_equal; [f_equal; lia | f_equal; lia].
Qed.

Lemma type_and_id_packing_witness :
  BondType_of_int (Z.land (byte_val xea) 0x1F) = Some Struct
  /\ _type_and_id (mkState 0 [xea; x02; x01; x55] 0)
     = Return (258, Struct) (mkState 3 [x55] 0).
Proof.
  split; [reflexivity|].
  exact (proj2 (proj2 (proj2 (proj2 (proj2
           (@type_and_id_packing xea Struct [x02; x01; x55] 0 0 eq_refl))))
           eq_refl x02 x01 [x55] eq_refl)).
Defined.

(** C5. A container tag byte gives the element type in its low 5 bits
    and a count selector in its high 3 bits: selector 0 means the count
    follows as an unsigned varint, any other selector is the count plus
    one and nothing more is read. [0b011_00011] is [Uint8] with count 2. *)
Theorem get_type_count_packing (b : byte) (t : BondType) (more : list byte) (off fr : nat) :
  BondType_of_int (Z.land (byte_val b) 0x1F) = Some t ->
  BondType_code t = Z.land (byte_val b) 0x1F
  /\ (Z.shiftr (byte_val b) 5 = 0 ->
      _get_type_count (mkState off (b :: more) fr)
      = (count <- _uleb128_decode ;; ret (t, count)) (mkState (off + 1) more fr))
  /\ (Z.shiftr (byte_val b) 5 <> 0 ->
      _get_type_count (mkState off (b :: more) fr)
      = Return (t, Z.shiftr (byte_val b) 5 - 1) (mkState (off + 1) more fr))
  /\ _get_type_count (mkState off (x63 :: more) fr)
     = Return (Uint8, 2) (mkState (off + 1) more fr).
Proof.
  intros Ht. split; [now apply BondType_of_int_code|].
  rewrite (get_type_count_cons b more off fr Ht). repeat split.
  - intros ->. reflexivity.
  - intros Hsel. apply Z.eqb_neq in Hsel. rewrite Hsel. reflexivity.
Qed.

Lemma get_type_count_packing_witness :
  BondType_of_int (Z.land (byte_val x0b) 0x1F) = Some List
  /\ _get_type_count (mkState 0 [x0b; xac; x02; x55] 0)
     = Return (List, 300) (mkState 3 [x55] 0).
Proof.
  split; [reflexivity|].
  exact (proj1 (proj2
           (@get_type_count_packing x0b List [xac; x02; x55] 0 0 eq_refl)) eq_refl).
Defined.

(** ** Navigation *)

Lemma py_item_0 (i : Z) (ids : list Z) : py_item (i :: ids) 0 = Some i.
Proof.
  unfold py_item. cbn [length]. rewrite Nat2Z.inj_succ.
  replace (0 <? Z.succ (Z.of_nat (length ids))) with true by (symmetry; apply Z.ltb_lt; lia).
  reflexivity.
Qed.

(** With one id [traverse] is one step of [get_by_id]. *)
Lemma traverse_one_id (self : BondValue) (i : Z) :
  traverse self [i] 0 = Returns (walk [i] self).
Proof.
  destruct self as [o n t p]. cbn [walk]. unfold get_by_id, get_elements.
  cbn [traverse type value].
  destruct (BondType_eqb t List || BondType_eqb t Set_ || BondType_eqb t Struct);
    [|reflexivity].
  destruct p; try reflexivity.
  generalize (mkBondValue o n t (PList l)) as self.
  induction l as [|e more IH]; intros self; [reflexivity|].
  cbn [find_id]. rewrite py_item_0. cbn [length Z.of_nat Z.eqb Z.sub Z.add Z.opp Z.pos_sub].
  destruct (id e =? i); [reflexivity|]. apply IH.
Qed.

(** With another id behind it, the first positional argument of every
    recursive call is [0 + 1]: from the second level on [traverse] looks
    for id 1, whatever ids it was given. *)
Lemma traverse_from_one :
  forall (self : BondValue) (ids : list Z),
    ids <> [] -> traverse self (1 :: ids) 0 = Returns (follow_ones self).
Proof.
  fix IH 1. intros [o n t p] ids Hids. cbn [traverse follow_ones].
  destruct (BondType_eqb t List || BondType_eqb t Set_ || BondType_eqb t Struct);
    [|reflexivity].
  destruct p; try reflexivity.
  generalize (mkBondValue o n t (PList l)) as self.
  induction l as [|e more IHl]; intros self; [reflexivity|].
  rewrite py_item_0.
  destruct (id e =? 1).
  - assert (Hlen : (0 =? Z.of_nat (length (1 :: ids)) - 1) = false).
    { apply Z.eqb_neq. destruct ids; [congruence|]. cbn [length].
      rewrite !Nat2Z.inj_succ. lia. }
    rewrite Hlen. change (0 + 1) with 1. apply IH. discriminate.
  - apply IHl.
Qed.

Lemma traverse_many_ids (self : BondValue) (i : Z) (ids : list Z) :
  ids <> [] ->
  traverse self (i :: ids) 0
  = Returns (match get_by_id self i with
             | Some element => follow_ones element
             | None => self
             end).
Proof.
  intros Hids. destruct self as [o n t p]. unfold get_by_id, get_elements.
  cbn [traverse type value].
  destruct (BondType_eqb t List || BondType_eqb t Set_ || BondType_eqb t Struct);
    [|reflexivity].
  destruct p; try reflexivity.
  generalize (mkBondValue o n t (PList l)) as self.
  induction l as [|e more IHl]; intros self; [reflexivity|].
  cbn [find_id]. rewrite py_item_0.
  destruct (id e =? i).
  - assert (Hlen : (0 =? Z.of_nat (length (i :: ids)) - 1) = false).
    { apply Z.eqb_neq. destruct ids; [congruence|]. cbn [length].
      rewrite !Nat2Z.inj_succ. lia. }
    rewrite Hlen. change (0 + 1) with 1. apply traverse_from_one. discriminate.
  - apply IHl.
Qed.

(** C1 (the code misses it). On the root whose child 1 holds the string
    child 2, the documented walk along [1; 2] ends at the string, and
    [traverse(1, 2)] returns child 1: the second level looked for id 1.
    [traverse(1, 9)] returns child 1 as well, and a single id is
    followed as documented. *)
Theorem traverse_ignores_second_id :
  walk [1; 2] root_1_2 = leaf_x
  /\ traverse root_1_2 [1; 2] 0 = Returns child_1
  /\ child_1 <> leaf_x
  /\ traverse root_1_2 [1; 9] 0 = Returns child_1
  /\ (forall self i, traverse self [i] 0 = Returns (walk [i] self))
  /\ (forall self i j ids,
        traverse self (i :: j :: ids) 0
        = Returns (match get_by_id self i with
                   | Some element => follow_ones element
                   | None => self
                   end)).
Proof.
  repeat split; try reflexivity.
  - discriminate.
  - apply traverse_one_id.
  - intros. apply traverse_many_ids. discriminate.
Qed.

(** ** Fuel

    More fuel never changes an answer, and one unit more than the number
    of unread bytes always gives one. *)

Lemma refines_refl {A} (m : M A) : refines m m.
Proof. now intros s _. Qed.

Lemma refines_bind {A B} (m m' : M A) (f f' : A -> M B) :
  refines m m' -> (forall a, refines (f a) (f' a)) ->
  refines (bind m f) (bind m' f').
Proof.
  intros Hm Hf s H. unfold bind in *.
  destruct (m s) as [a s1| |] eqn:E.
  - rewrite (Hm s) by congruence. rewrite E. now apply Hf.
  - rewrite (Hm s) by congruence. now rewrite E.
  - congruence.
Qed.

Section FuelMonotone.

Context {codecs : Codecs}.
Variables rv rv' : Z -> BondType -> M BondValue.
Hypothesis Hrv : forall i t, refines (rv i t) (rv' i t).

Lemma refines_read_list_loop count t values :
  refines (read_list_loop rv count t values) (read_list_loop rv' count t values).
Proof.
  revert values. induction count as [|count IH]; intros values; cbn [read_list_loop].
  - apply refines_refl.
  - apply refines_bind; [apply Hrv|]. intros val. apply IH.
Qed.

Lemma refines_read_list t : refines (_read_list rv t) (_read_list rv' t).
Proof.
  unfold _read_list. apply refines_bind; [apply refines_refl|]. intros [t' count].
  destruct (BondType_eqb t' List || BondType_eqb t' Int8 || BondType_eqb t' Uint8).
  - apply refines_refl.
  - apply refines_read_list_loop.
Qed.

Lemma refines_read_map_loop count kt vt values :
  refines (read_map_loop rv count kt vt values) (read_map_loop rv' count kt vt values).
Proof.
  revert values. induction count as [|count IH]; intros values; cbn [read_map_loop].
  - apply refines_refl.
  - apply refines_bind; [apply Hrv|]. intros key.
    apply refines_bind; [apply Hrv|]. intros val. apply IH.
Qed.

Lemma refines_read_map : refines (_read_map rv) (_read_map rv').
Proof.
  unfold _read_map. repeat (apply refines_bind; [apply refines_refl|]; intros ?).
  apply refines_read_map_loop.
Qed.

Lemma refines_read_field : refines (_read_field rv) (_read_field rv').
Proof.
  unfold _read_field. apply refines_bind; [apply refines_refl|]. intros [i t]. apply Hrv.
Qed.

Lemma refines_read_struct_loop fuel :
  forall fuel' values, (fuel <= fuel')%nat ->
    refines (read_struct_loop rv fuel values) (read_struct_loop rv' fuel' values).
Proof.
  induction fuel as [|fuel IH]; intros fuel' values Hle.
  - intros s H. now contradiction H.
  - destruct fuel' as [|fuel']; [lia|]. cbn [read_struct_loop].
    apply refines_bind; [apply refines_read_field|]. intros val.
    destruct (type val); try (apply IH; lia). apply refines_refl.
Qed.

Lemma refines_read_struct fuel fuel' :
  (fuel <= fuel')%nat -> refines (_read_struct rv fuel) (_read_struct rv' fuel').
Proof.
  intros Hle. unfold _read_struct. apply refines_bind; [apply refines_refl|].
  intros _. now apply refines_read_struct_loop.
Qed.

Lemma refines_read_value_body fuel fuel' i t :
  (fuel <= fuel')%nat ->
  refines (read_value_body rv fuel i t) (read_value_body rv' fuel' i t).
Proof.
  intros Hle. unfold read_value_body. apply refines_bind; [apply refines_refl|].
  intros val. destruct t; try apply refines_refl.
  - apply refines_bind; [now apply refines_read_struct|]. intros ?. apply refines_refl.
  - apply refines_bind; [now apply refines_read_list|]. intros ?. apply refines_refl.
  - apply refines_bind; [now apply refines_read_list|]. intros ?. apply refines_refl.
  - apply refines_bind; [now apply refines_read_map|]. intros ?. apply refines_refl.
Qed.

End FuelMonotone.

Lemma refines_read_value {codecs : Codecs} (fuel : nat) :
  forall fuel' i t, (fuel <= fuel')%nat ->
    refines (_read_value fuel i t) (_read_value fuel' i t).
Proof.
  induction fuel as [|fuel IH]; intros fuel' i t Hle.
  - intros s H. now contradiction H.
  - destruct fuel' as [|fuel']; [lia|]. cbn [_read_value].
    apply refines_read_value_body; [|lia]. intros i' t'. apply IH. lia.
Qed.

Lemma refines_base_struct_with {codecs : Codecs} (fuel fuel' : nat) :
  (fuel <= fuel')%nat -> refines (base_struct_with fuel) (base_struct_with fuel').
Proof.
  intros Hle. unfold base_struct_with. apply refines_bind.
  - apply refines_read_struct; [|assumption]. intros i t. now apply refines_read_value.
  - intros l. apply refines_refl.
Qed.

(** ** Cutting the input short *)

Lemma stuck_starved {A} (r : Outcome A) : stuck r -> starved r.
Proof. destruct r; simpl; tauto. Qed.

Lemma stable_stuck_starved {A} (m : M A) : stable stuck m -> stable starved m.
Proof.
  intros H s a s' Hm. destruct (H s a s' Hm) as (c & Ho & Hu & Hf & Hk).
  exists c. repeat split; try assumption.
  - now apply Hk.
  - intros Hlt. apply stuck_starved. now apply Hk.
Qed.

Lemma at_end_stuck_starved {A} (m : M A) : at_end stuck m -> at_end starved m.
Proof. intros H s Hs. apply stuck_starved. now apply H. Qed.

Lemma stable_ret {A} (bad : Outcome A -> Prop) (a : A) : stable bad (ret a).
Proof.
  intros s x s' H. inversion H; subst. exists 0%nat.
  repeat split; try lia.
  - intros _. unfold ret. now rewrite Nat.sub_0_r.
Qed.

Lemma stable_raise {A} (bad : Outcome A -> Prop) (e : Exception) : stable bad (raise e).
Proof. intros s x s' H. discriminate H. Qed.

Lemma stable_to_BondType (bad : Outcome BondType -> Prop) (n : Z) :
  stable bad (to_BondType n).
Proof.
  unfold to_BondType. destruct (BondType_of_int n); [apply stable_ret|apply stable_raise].
Qed.

Lemma stable_new_BondValue (bad : Outcome BondValue -> Prop) i t p :
  stable bad (new_BondValue i t p).
Proof.
  intros s x s' H. inversion H; subst. exists 0%nat. cbn [offset unread fresh].
  repeat split; try lia.
  intros _. unfold new_BondValue, trunc. cbn [offset unread fresh]. now rewrite Nat.sub_0_r.
Qed.

(** A cut of the input leaves the position alone, so a seek that is in
    range on the whole input is in range on the cut one. *)
Lemma stable_seek_cur (n : nat) : stable starved (seek_cur n).
Proof.
  intros s [] s' H. apply seek_cur_Return in H as [Hle ->].
  exists n. cbn [offset unread fresh].
  repeat split; try lia.
  - intros _. rewrite seek_cur_in_range by exact Hle.
    unfold trunc. cbn [offset unread fresh]. now rewrite skipn_firstn_comm.
  - intros Hlt. rewrite seek_cur_in_range by exact Hle.
    unfold trunc. cbn [starved offset unread fresh].
    apply skipn_all2. rewrite length_firstn. lia.
Qed.

Lemma stable_read (n : nat) : stable starved (read n).
Proof.
  intros s x s' H. apply read_Return in H as (Hle & -> & ->).
  destruct s as [o u f]. cbn [offset unread fresh].
  exists (length (firstn n u)). rewrite length_firstn.
  destruct (Nat.le_gt_cases n (length u)) as [Hn|Hn].
  - rewrite Nat.min_l by assumption. repeat split; try lia.
    + intros Hk. rewrite read_in_range by exact Hle.
      unfold trunc. cbn [offset unread fresh].
      rewrite firstn_firstn, Nat.min_l by assumption.
      rewrite skipn_firstn_comm, length_firstn, Nat.min_l by assumption. reflexivity.
    + intros Hk. rewrite read_in_range by exact Hle.
      unfold trunc. cbn [starved offset unread fresh].
      apply skipn_all2. rewrite length_firstn. lia.
  - rewrite Nat.min_r by lia.
    assert (Hs : skipn n u = []) by (apply skipn_all2; lia).
    repeat split; try lia.
    + rewrite Hs. symmetry. now apply skipn_all2.
    + intros Hk. rewrite read_in_range by exact Hle.
      unfold trunc. cbn [offset unread fresh].
      rewrite (firstn_all2 (n:=k) u) by assumption.
      rewrite (firstn_all2 (n:=n) u) by lia. rewrite Hs, firstn_nil. reflexivity.
    + intros Hk. rewrite read_in_range by exact Hle.
      unfold trunc. cbn [starved offset unread fresh].
      apply skipn_all2. rewrite length_firstn. lia.
Qed.

Lemma stable_read_byte : stable stuck read_byte.
Proof.
  intros [o u f] x s' H. destruct u as [|b more]; [discriminate H|].
  rewrite read_byte_cons in H. inversion H; subst; clear H.
  exists 1%nat. cbn [offset unread fresh skipn]. repeat split; try lia.
  - intros Hk. destruct k as [|k]; [lia|]. unfold trunc. cbn [offset unread fresh firstn].
    rewrite read_byte_cons. cbn [Nat.sub]. now rewrite Nat.sub_0_r.
  - intros Hk. assert (k = 0)%nat as -> by lia. reflexivity.
Qed.

Lemma forallb_firstn {A} (p : A -> bool) (k : nat) (l : list A) :
  forallb p l = true -> forallb p (firstn k l) = true.
Proof.
  revert k. induction l as [|x l IH]; intros [|k] H; try reflexivity.
  cbn [forallb firstn] in *. apply andb_true_iff in H as [Hx Hl].
  now rewrite Hx, IH.
Qed.

Lemma stable_uleb128_decode : stable stuck _uleb128_decode.
Proof.
  intros s v s' H.
  destruct (uleb128_decode_inv _ H) as (body & last & Hu & Hbody & Hlast & Ho & Hf & Hv).
  exists (length body + 1)%nat. repeat split; try lia.
  - rewrite Hu, skipn_app, skipn_all2 by lia.
    replace (length body + 1 - length body)%nat with 1%nat by lia. reflexivity.
  - intros Hk. unfold trunc. rewrite Hu, firstn_app.
    rewrite firstn_all2 by lia.
    replace (k - length body)%nat with (S (k - (length body + 1))) by lia.
    cbn [firstn]. rewrite uleb128_decode_exact by assumption.
    rewrite Hv, Hf, Ho. reflexivity.
  - intros Hk. unfold trunc, _uleb128_decode. cbn [unread offset fresh].
    rewrite Hu, firstn_app. replace (k - length body)%nat with 0%nat by lia.
    cbn [firstn]. rewrite app_nil_r.
    rewrite uleb128_loop_exhausted by now apply forallb_firstn. reflexivity.
Qed.

Lemma stable_bind {A B} (m : M A) (f : A -> M B) :
  stable starved m -> (forall a, stable starved (f a)) ->
  (forall a, at_end starved (f a)) ->
  stable starved (bind m f).
Proof.
  intros Hm Hf He s b s'' H.
  destruct (bind_Return _ _ _ H) as (a & s1 & Hms & Hfs).
  destruct (Hm _ _ _ Hms) as (c1 & Ho1 & Hu1 & Hf1 & Hk1).
  destruct (Hf a _ _ _ Hfs) as (c2 & Ho2 & Hu2 & Hf2 & Hk2).
  exists (c1 + c2)%nat. repeat split; try lia.
  - rewrite Hu2, Hu1, skipn_skipn. f_equal. lia.
  - intros Hk. unfold bind. rewrite (proj1 (Hk1 k)) by lia.
    rewrite (proj1 (Hk2 (k - c1)%nat)) by lia. do 2 f_equal. lia.
  - intros Hk. unfold bind. destruct (Nat.le_gt_cases c1 k) as [Hc|Hc].
    + rewrite (proj1 (Hk1 k)) by lia. apply Hk2. lia.
    + pose proof (proj2 (Hk1 k) Hc) as Hbad.
      destruct (m (trunc k s)) as [a' st| |]; try exact Hbad.
      now apply He.
Qed.

Lemma stable_bind_stuck {A B} (bad : Outcome B -> Prop) (m : M A) (f : A -> M B) :
  (forall e, truncation_error e = true -> bad (Raise e)) -> bad OutOfFuel ->
  stable stuck m -> (forall a, stable bad (f a)) ->
  stable bad (bind m f).
Proof.
  intros Hraise Hoof Hm Hf s b s'' H.
  destruct (bind_Return _ _ _ H) as (a & s1 & Hms & Hfs).
  destruct (Hm _ _ _ Hms) as (c1 & Ho1 & Hu1 & Hf1 & Hk1).
  destruct (Hf a _ _ _ Hfs) as (c2 & Ho2 & Hu2 & Hf2 & Hk2).
  exists (c1 + c2)%nat. repeat split; try lia.
  - rewrite Hu2, Hu1, skipn_skipn. f_equal. lia.
  - intros Hk. unfold bind. rewrite (proj1 (Hk1 k)) by lia.
    rewrite (proj1 (Hk2 (k - c1)%nat)) by lia. do 2 f_equal. lia.
  - intros Hk. unfold bind. destruct (Nat.le_gt_cases c1 k) as [Hc|Hc].
    + rewrite (proj1 (Hk1 k)) by lia. apply Hk2. lia.
    + pose proof (proj2 (Hk1 k) Hc) as Hbad.
      destruct (m (trunc k s)) as [a' st| |]; [contradiction Hbad| |exact Hoof].
      now apply Hraise.
Qed.

Lemma at_end_bind {A B} (m : M A) (f : A -> M B) :
  at_end starved m -> (forall a, at_end starved (f a)) -> at_end starved (bind m f).
Proof.
  intros Hm Hf s Hs. unfold bind. pose proof (Hm s Hs) as H.
  destruct (m s) as [a s1| |]; try exact H. now apply Hf.
Qed.

Lemma at_end_bind_stuck {A B} (m : M A) (f : A -> M B) :
  at_end stuck m -> at_end stuck (bind m f).
Proof.
  intros Hm s Hs. unfold bind. pose proof (Hm s Hs) as H.
  destruct (m s) as [a s1| |]; [contradiction H|exact H|exact H].
Qed.

Lemma at_end_ret {A} (a : A) : at_end starved (ret a).
Proof. intros s Hs. exact Hs. Qed.

Lemma at_end_raise {A} (e : Exception) :
  truncation_error e = true -> at_end (@starved A) (raise e).
Proof. intros He s _. exact He. Qed.

(** At the end of the input a read of a size in range returns nothing;
    a size out of range is refused there as anywhere, which is why the
    sizes that come from the input are read by [_uleb128_decode], stuck
    at the end, before they are used. *)
Lemma at_end_read (n : nat) :
  Z.of_nat n <= PY_SSIZE_T_MAX -> at_end starved (read n).
Proof.
  intros Hle s Hs. rewrite read_in_range by exact Hle.
  cbn [starved unread]. rewrite Hs. apply skipn_nil.
Qed.

Lemma at_end_new_BondValue i t p : at_end starved (new_BondValue i t p).
Proof. intros s Hs. exact Hs. Qed.

Lemma at_end_read_byte : at_end stuck read_byte.
Proof. intros [o u f] Hs. cbn [unread] in Hs. subst u. reflexivity. Qed.

Lemma at_end_uleb128_decode : at_end stuck _uleb128_decode.
Proof.
  intros [o u f] Hs. cbn [unread] in Hs. subst u. reflexivity.
Qed.

Lemma stable_after_stuck {A B} (m : M A) (f : A -> M B) :
  stable stuck m -> (forall a, stable starved (f a)) -> stable starved (bind m f).
Proof.
  intros Hm Hf. apply stable_bind_stuck; try assumption.
  - intros e He. exact He.
  - exact I.
Qed.

Lemma at_end_after_stuck {A B} (m : M A) (f : A -> M B) :
  at_end stuck m -> at_end starved (bind m f).
Proof. intros Hm. apply at_end_stuck_starved. now apply at_end_bind_stuck. Qed.

Create HintDb cut discriminated.

#[local] Hint Resolve stable_ret stable_raise stable_to_BondType stable_new_BondValue
  stable_seek_cur stable_read stable_read_byte stable_uleb128_decode
  at_end_ret at_end_new_BondValue
  at_end_read_byte at_end_uleb128_decode : cut.

#[local] Hint Extern 1 (at_end starved (read _)) =>
  apply at_end_read; unfold PY_SSIZE_T_MAX; lia : cut.

Ltac cut_step :=
  match goal with
  | |- forall _, _ => intros ?
  | |- stable starved (bind read_byte _) => apply stable_after_stuck
  | |- stable starved (bind _uleb128_decode _) => apply stable_after_stuck
  | |- stable starved (bind _get_type_count _) => apply stable_after_stuck
  | |- stable starved (bind _ _) => apply stable_bind
  | |- at_end starved (bind read_byte _) => apply at_end_after_stuck
  | |- at_end starved (bind _uleb128_decode _) => apply at_end_after_stuck
  | |- at_end starved (bind _ _) => apply at_end_bind
  | |- at_end starved (raise _) => apply at_end_raise; reflexivity
  | |- stable _ (match ?x with _ => _ end) => destruct x
  | |- at_end _ (match ?x with _ => _ end) => destruct x
  | |- stable _ (if ?x then _ else _) => destruct x
  | |- at_end _ (if ?x then _ else _) => destruct x
  | |- _ => solve [auto with cut]
  end.

Ltac cut_auto := repeat cut_step.

Lemma stable_sleb128_decode : stable starved _sleb128_decode.
Proof. unfold _sleb128_decode. cut_auto. Qed.

Lemma at_end_sleb128_decode : at_end starved _sleb128_decode.
Proof. unfold _sleb128_decode. cut_auto. Qed.

Lemma stable_type_and_id : stable starved _type_and_id.
Proof. unfold _type_and_id. cut_auto. Qed.

Lemma at_end_type_and_id : at_end stuck _type_and_id.
Proof. unfold _type_and_id. apply at_end_bind_stuck, at_end_read_byte. Qed.

Lemma stable_get_type_count : stable starved _get_type_count.
Proof. unfold _get_type_count. cut_auto. Qed.

Lemma at_end_get_type_count : at_end stuck _get_type_count.
Proof. unfold _get_type_count. apply at_end_bind_stuck, at_end_read_byte. Qed.

(** A tag and its count are read whole or not at all. *)
Lemma stable_stuck_get_type_count : stable stuck _get_type_count.
Proof.
  assert (Hraise : forall e, truncation_error e = true ->
                             @stuck (BondType * Z) (Raise e)) by (intros e He; exact He).
  unfold _get_type_count.
  apply stable_bind_stuck; [exact Hraise|exact I|apply stable_read_byte|]. intros b.
  apply stable_bind_stuck; [exact Hraise|exact I|apply stable_to_BondType|]. intros t.
  destruct (Z.shiftr b 5 =? 0); [|apply stable_ret].
  apply stable_bind_stuck; [exact Hraise|exact I|apply stable_uleb128_decode|].
  intros n. apply stable_ret.
Qed.

Lemma stable_unpack_b bs : stable starved (unpack_b bs).
Proof. unfold unpack_b. cut_auto. Qed.

Lemma at_end_unpack_b bs : at_end starved (unpack_b bs).
Proof. unfold unpack_b. cut_auto. Qed.

Lemma stable_unpack_float n bs : stable starved (unpack_float n bs).
Proof. unfold unpack_float. cut_auto. Qed.

Lemma at_end_unpack_float n bs : at_end starved (unpack_float n bs).
Proof. unfold unpack_float. cut_auto. Qed.

#[local] Hint Resolve stable_sleb128_decode at_end_sleb128_decode
  stable_type_and_id stable_get_type_count stable_stuck_get_type_count
  stable_unpack_b at_end_unpack_b
  stable_unpack_float at_end_unpack_float : cut.

#[local] Hint Extern 1 (at_end starved _type_and_id) =>
  apply at_end_stuck_starved, at_end_type_and_id : cut.
#[local] Hint Extern 1 (at_end starved _get_type_count) =>
  apply at_end_stuck_starved, at_end_get_type_count : cut.

Section Cut.

Context {codecs : Codecs}.

Lemma stable_read_string : stable starved _read_string.
Proof. unfold _read_string. cut_auto. Qed.

Lemma at_end_read_string : at_end starved _read_string.
Proof. unfold _read_string. cut_auto. Qed.

Lemma stable_read_wstring : stable starved _read_wstring.
Proof. unfold _read_wstring. cut_auto. Qed.

Lemma at_end_read_wstring : at_end starved _read_wstring.
Proof. unfold _read_wstring. cut_auto. Qed.

Variable rv : Z -> BondType -> M BondValue.
Hypothesis stable_rv : forall i t, stable starved (rv i t).
Hypothesis at_end_rv : forall i t, at_end starved (rv i t).

Lemma at_end_read_list_loop count t values :
  at_end starved (read_list_loop rv count t values).
Proof.
  revert values. induction count as [|count IH]; intros values; cbn [read_list_loop].
  - apply at_end_ret.
  - apply at_end_bind; auto.
Qed.

Lemma stable_read_list_loop count t values :
  stable starved (read_list_loop rv count t values).
Proof.
  revert values. induction count as [|count IH]; intros values; cbn [read_list_loop].
  - apply stable_ret.
  - apply stable_bind; auto. intros val. apply at_end_read_list_loop.
Qed.

Lemma stable_read_list t : stable starved (_read_list rv t).
Proof.
  unfold _read_list, _read_blobs. pose proof stable_read_list_loop.
  pose proof at_end_read_list_loop. cut_auto.
Qed.

Lemma at_end_read_list t : at_end starved (_read_list rv t).
Proof.
  unfold _read_list. apply at_end_stuck_starved, at_end_bind_stuck, at_end_get_type_count.
Qed.

Lemma at_end_read_map_loop count kt vt values :
  at_end starved (read_map_loop rv count kt vt values).
Proof.
  revert values. induction count as [|count IH]; intros values; cbn [read_map_loop].
  - apply at_end_ret.
  - apply at_end_bind; auto. intros key. apply at_end_bind; auto.
Qed.

Lemma stable_read_map_loop count kt vt values :
  stable starved (read_map_loop rv count kt vt values).
Proof.
  revert values. induction count as [|count IH]; intros values; cbn [read_map_loop].
  - apply stable_ret.
  - apply stable_bind; auto.
    + intros key. apply stable_bind; auto. intros val. apply at_end_read_map_loop.
    + intros key. apply at_end_bind; auto. intros val. apply at_end_read_map_loop.
Qed.

Lemma stable_read_map : stable starved (_read_map rv).
Proof.
  unfold _read_map. pose proof stable_read_map_loop. cut_auto.
Qed.

Lemma at_end_read_map : at_end starved (_read_map rv).
Proof. unfold _read_map. apply at_end_after_stuck, at_end_read_byte. Qed.

Lemma stable_read_field : stable starved (_read_field rv).
Proof. unfold _read_field. cut_auto. Qed.

Lemma at_end_read_field : at_end stuck (_read_field rv).
Proof. unfold _read_field. apply at_end_bind_stuck, at_end_type_and_id. Qed.

Lemma at_end_read_struct_loop fuel values :
  at_end stuck (read_struct_loop rv fuel values).
Proof.
  destruct fuel as [|fuel]; cbn [read_struct_loop].
  - intros s _. exact I.
  - apply at_end_bind_stuck, at_end_read_field.
Qed.

Lemma stable_read_struct_loop fuel values :
  stable starved (read_struct_loop rv fuel values).
Proof.
  revert values. induction fuel as [|fuel IH]; intros values; cbn [read_struct_loop].
  - intros s a s' H. discriminate H.
  - apply stable_bind.
    + apply stable_read_field.
    + intros val. destruct (type val); auto with cut.
    + intros val.
      destruct (type val); auto with cut;
        apply at_end_stuck_starved, at_end_read_struct_loop.
Qed.

Lemma stable_read_struct fuel : stable starved (_read_struct rv fuel).
Proof.
  unfold _read_struct. apply stable_after_stuck; [apply stable_uleb128_decode|].
  intros _. apply stable_read_struct_loop.
Qed.

Lemma at_end_read_struct fuel : at_end stuck (_read_struct rv fuel).
Proof. unfold _read_struct. apply at_end_bind_stuck, at_end_uleb128_decode. Qed.

Lemma stable_read_value_body fuel i t : stable starved (read_value_body rv fuel i t).
Proof.
  unfold read_value_body.
  pose proof stable_read_struct. pose proof stable_read_list.
  pose proof stable_read_map. pose proof at_end_read_list. pose proof at_end_read_map.
  assert (forall fuel, at_end starved (_read_struct rv fuel))
    by (intros; apply at_end_stuck_starved, at_end_read_struct).
  pose proof stable_read_string. pose proof at_end_read_string.
  pose proof stable_read_wstring. pose proof at_end_read_wstring.
  destruct t; cut_auto.
Qed.

Lemma at_end_read_value_body fuel i t : at_end starved (read_value_body rv fuel i t).
Proof.
  unfold read_value_body.
  pose proof at_end_read_list. pose proof at_end_read_map.
  assert (forall fuel, at_end starved (_read_struct rv fuel))
    by (intros; apply at_end_stuck_starved, at_end_read_struct).
  pose proof at_end_read_string. pose proof at_end_read_wstring.
  destruct t; cut_auto.
Qed.

End Cut.

Lemma at_end_read_value {codecs : Codecs} (fuel : nat) :
  forall i t, at_end starved (_read_value fuel i t).
Proof.
  induction fuel as [|fuel IH]; intros i t; cbn [_read_value].
  - intros s _. exact I.
  - now apply at_end_read_value_body.
Qed.

Lemma stable_read_value {codecs : Codecs} (fuel : nat) :
  forall i t, stable starved (_read_value fuel i t).
Proof.
  induction fuel as [|fuel IH]; intros i t; cbn [_read_value].
  - intros s a s' H. discriminate H.
  - apply stable_read_value_body; [exact IH|apply at_end_read_value].
Qed.

(** ** Enough fuel *)

Lemma stable_shrinks {A} (bad : Outcome A -> Prop) (m : M A) : stable bad m -> shrinks m.
Proof.
  intros H s a s' Hm. destruct (H _ _ _ Hm) as (c & _ & Hu & _).
  rewrite Hu, length_skipn. lia.
Qed.

Lemma consumes_read_byte : consumes read_byte.
Proof.
  intros [o u f] a s' H. destruct u as [|b more]; [discriminate H|].
  rewrite read_byte_cons in H. inversion H. cbn [unread length]. lia.
Qed.

Lemma consumes_uleb128_decode : consumes _uleb128_decode.
Proof.
  intros s a s' H. apply uleb128_decode_inv in H as (body & last & Hu & _).
  rewrite Hu, length_app. cbn [length]. lia.
Qed.

Lemma consumes_bind {A B} (m : M A) (f : A -> M B) :
  consumes m -> (forall a, shrinks (f a)) -> consumes (bind m f).
Proof.
  intros Hm Hf s b s' H. destruct (bind_Return _ _ _ H) as (a & s1 & H1 & H2).
  apply Hm in H1. apply Hf in H2. lia.
Qed.

Lemma consumes_type_and_id : consumes _type_and_id.
Proof.
  unfold _type_and_id. apply consumes_bind; [apply consumes_read_byte|].
  intros b. apply (@stable_shrinks _ starved). cut_auto.
Qed.

Lemma consumes_get_type_count : consumes _get_type_count.
Proof.
  unfold _get_type_count. apply consumes_bind; [apply consumes_read_byte|].
  intros b. apply (@stable_shrinks _ starved). cut_auto.
Qed.

Lemma total_bind {A B} (m : M A) (f : A -> M B) :
  total m -> (forall a, total (f a)) -> total (bind m f).
Proof.
  intros Hm Hf s. unfold bind. specialize (Hm s).
  destruct (m s) as [a s1| |]; [apply Hf|discriminate|contradiction].
Qed.

Lemma total_uleb128_decode : total _uleb128_decode.
Proof.
  intros s. unfold _uleb128_decode.
  destruct (uleb128_loop (unread s) 0 0 0) as [[[r n] more]|e]; discriminate.
Qed.

Lemma total_read (n : nat) : total (read n).
Proof. intros s. unfold read. destruct (Z.of_nat n <=? PY_SSIZE_T_MAX); discriminate. Qed.

Lemma total_seek_cur (n : nat) : total (seek_cur n).
Proof.
  intros s. unfold seek_cur.
  destruct (Z.of_nat (offset s + n) <=? PY_SSIZE_T_MAX); discriminate.
Qed.

Ltac total_step :=
  match goal with
  | |- forall _, _ => intros ?
  | |- total (bind _ _) => apply total_bind
  | |- total _uleb128_decode => apply total_uleb128_decode
  | |- total (read _) => apply total_read
  | |- total (seek_cur _) => apply total_seek_cur
  | |- total (match ?x with _ => _ end) => destruct x
  | |- total (if ?x then _ else _) => destruct x
  | |- total _ => solve [intros ?; discriminate]
  end.

Ltac total_auto := repeat total_step.

Lemma total_read_byte : total read_byte.
Proof. unfold read_byte. total_auto. Qed.

Lemma total_type_and_id : total _type_and_id.
Proof. unfold _type_and_id, read_byte, to_BondType. total_auto. Qed.

Lemma total_get_type_count : total _get_type_count.
Proof. unfold _get_type_count, read_byte, to_BondType. total_auto. Qed.

Lemma safe_total {A} (n : nat) (m : M A) : total m -> safe n m.
Proof. intros H s _. apply H. Qed.

Lemma safe_weaken {A} (n n' : nat) (m : M A) : (n <= n')%nat -> safe n' m -> safe n m.
Proof. intros Hle H s Hs. apply H. lia. Qed.

Lemma safe_bind {A B} (n : nat) (m : M A) (f : A -> M B) :
  safe n m -> shrinks m -> (forall a, safe n (f a)) -> safe n (bind m f).
Proof.
  intros Hm Hsh Hf s Hs. unfold bind. specialize (Hm s Hs).
  destruct (m s) as [a s1| |] eqn:E; [|discriminate|contradiction].
  apply Hf. apply Hsh in E. lia.
Qed.

Lemma safe_bind_consumes {A B} (n : nat) (m : M A) (f : A -> M B) :
  safe (S n) m -> consumes m -> (forall a, safe n (f a)) -> safe (S n) (bind m f).
Proof.
  intros Hm Hc Hf s Hs. unfold bind. specialize (Hm s Hs).
  destruct (m s) as [a s1| |] eqn:E; [|discriminate|contradiction].
  apply Hf. apply Hc in E. lia.
Qed.

Section Enough.

Context {codecs : Codecs}.
Variable rv : Z -> BondType -> M BondValue.
Variable N : nat.
Hypothesis safe_rv : forall i t, safe N (rv i t).
Hypothesis stable_rv : forall i t, stable starved (rv i t).
Hypothesis at_end_rv : forall i t, at_end starved (rv i t).

Lemma shrinks_rv i t : shrinks (rv i t).
Proof. apply (@stable_shrinks _ starved), stable_rv. Qed.

Lemma safe_read_list_loop count t values : safe N (read_list_loop rv count t values).
Proof.
  revert values. induction count as [|count IH]; intros values; cbn [read_list_loop].
  - apply safe_total. intros s. discriminate.
  - apply safe_bind; auto using shrinks_rv.
Qed.

Lemma safe_read_list t : safe (S N) (_read_list rv t).
Proof.
  unfold _read_list. apply safe_bind_consumes.
  - apply safe_total, total_get_type_count.
  - apply consumes_get_type_count.
  - intros [t' count].
    destruct (BondType_eqb t' List || BondType_eqb t' Int8 || BondType_eqb t' Uint8).
    + apply safe_total. unfold _read_blobs. total_auto.
    + apply safe_read_list_loop.
Qed.

Lemma safe_read_map_loop count kt vt values :
  safe N (read_map_loop rv count kt vt values).
Proof.
  revert values. induction count as [|count IH]; intros values; cbn [read_map_loop].
  - apply safe_total. intros s. discriminate.
  - apply safe_bind; auto using shrinks_rv.
    intros key. apply safe_bind; auto using shrinks_rv.
Qed.

Lemma safe_read_map : safe (S N) (_read_map rv).
Proof.
  unfold _read_map. apply safe_bind_consumes.
  - apply safe_total, total_read_byte.
  - apply consumes_read_byte.
  - intros k. apply safe_bind.
    { apply safe_total. unfold to_BondType. total_auto. }
    { apply (@stable_shrinks _ starved). auto with cut. }
    intros kt. apply safe_bind.
    { apply safe_total, total_read_byte. }
    { apply (@stable_shrinks _ stuck), stable_read_byte. }
    intros v. apply safe_bind.
    { apply safe_total. unfold to_BondType. total_auto. }
    { apply (@stable_shrinks _ starved). auto with cut. }
    intros vt. apply safe_bind.
    { apply safe_total, total_uleb128_decode. }
    { apply (@stable_shrinks _ stuck), stable_uleb128_decode. }
    intros count. apply safe_read_map_loop.
Qed.

Lemma safe_read_field : safe (S N) (_read_field rv).
Proof.
  unfold _read_field. apply safe_bind_consumes.
  - apply safe_total, total_type_and_id.
  - apply consumes_type_and_id.
  - intros [i t]. apply safe_rv.
Qed.

Lemma consumes_read_field : consumes (_read_field rv).
Proof.
  unfold _read_field. apply consumes_bind; [apply consumes_type_and_id|].
  intros [i t]. apply shrinks_rv.
Qed.

Lemma safe_read_struct_loop fuel :
  (fuel <= S N)%nat -> forall values, safe fuel (read_struct_loop rv fuel values).
Proof.
  induction fuel as [|fuel IH]; intros Hle values.
  - intros s Hs. lia.
  - cbn [read_struct_loop]. apply safe_bind_consumes.
    + apply safe_weaken with (S N); [lia|apply safe_read_field].
    + apply consumes_read_field.
    + intros val. destruct (type val); try (apply IH; lia).
      apply safe_total. intros s. discriminate.
Qed.

Lemma safe_read_struct fuel :
  (fuel <= S N)%nat -> safe (S fuel) (_read_struct rv fuel).
Proof.
  intros Hle. unfold _read_struct. apply safe_bind_consumes.
  - apply safe_total, total_uleb128_decode.
  - apply consumes_uleb128_decode.
  - intros _. now apply safe_read_struct_loop.
Qed.

Lemma safe_read_value_body i t : safe (S N) (read_value_body rv N i t).
Proof.
  unfold read_value_body. apply safe_bind.
  - apply safe_total. intros s. discriminate.
  - apply (@stable_shrinks _ starved). auto with cut.
  - intros val.
    assert (Hret : forall p, safe (S N) (ret (set_value val p)))
      by (intros p; apply safe_total; intros s; discriminate).
    destruct t;
      try solve [apply safe_total;
                 unfold _sleb128_decode, _read_string, _read_wstring,
                   read_byte, unpack_b, unpack_float; total_auto].
    + apply safe_bind; [apply safe_read_struct; lia| |intros l; apply Hret].
      apply (@stable_shrinks _ starved), stable_read_struct; assumption.
    + apply safe_bind; [apply safe_read_list| |intros l; apply Hret].
      apply (@stable_shrinks _ starved), stable_read_list; assumption.
    + apply safe_bind; [apply safe_read_list| |intros l; apply Hret].
      apply (@stable_shrinks _ starved), stable_read_list; assumption.
    + apply safe_bind; [apply safe_read_map| |intros l; apply Hret].
      apply (@stable_shrinks _ starved), stable_read_map; assumption.
Qed.

End Enough.

Lemma safe_read_value {codecs : Codecs} (fuel : nat) :
  forall i t, safe fuel (_read_value fuel i t).
Proof.
  induction fuel as [|fuel IH]; intros i t.
  - intros s Hs. lia.
  - cbn [_read_value].
    apply safe_read_value_body;
      first [exact IH | apply stable_read_value | apply at_end_read_value].
Qed.

Lemma safe_base_struct_with {codecs : Codecs} (fuel : nat) :
  safe (S fuel) (base_struct_with fuel).
Proof.
  unfold base_struct_with. apply safe_bind.
  - apply safe_read_struct with (N := fuel);
      first [lia | apply safe_read_value | apply stable_read_value
             | apply at_end_read_value].
  - apply (@stable_shrinks _ starved), stable_read_struct.
    + apply stable_read_value.
    + apply at_end_read_value.
  - intros l. apply safe_total. intros s. discriminate.
Qed.

(** [_get_base_struct] always answers. *)
Lemma fuel_suffices {codecs : Codecs} (s : State) : _get_base_struct s <> OutOfFuel.
Proof.
  change (_get_base_struct s) with (base_struct_with (enough s) s).
  apply safe_base_struct_with. unfold enough. lia.
Qed.

(** Any answer found with some fuel is the answer of [_get_base_struct]. *)
Lemma base_struct_with_canonical {codecs : Codecs} (fuel : nat) (s : State) r :
  base_struct_with fuel s = r -> r <> OutOfFuel -> _get_base_struct s = r.
Proof.
  intros H Hr. change (_get_base_struct s) with (base_struct_with (enough s) s).
  destruct (Nat.le_gt_cases fuel (enough s)) as [Hle|Hgt].
  - rewrite <- H. apply refines_base_struct_with; [assumption|congruence].
  - rewrite <- H. symmetry. apply refines_base_struct_with; [lia|].
    apply fuel_suffices.
Qed.

(** ** Structs *)

Section StructLoop.

Context {codecs : Codecs}.
Variable rv : Z -> BondType -> M BondValue.

Lemma read_struct_loop_stop fuel values s val s1 :
  _read_field rv s = Return val s1 -> type val = Stop ->
  read_struct_loop rv (S fuel) values s = Return values s1.
Proof.
  intros H Ht. cbn [read_struct_loop]. unfold bind. rewrite H, Ht. reflexivity.
Qed.

Lemma read_struct_loop_next fuel values s val s1 :
  _read_field rv s = Return val s1 -> type val <> Stop ->
  read_struct_loop rv (S fuel) values s
  = read_struct_loop rv fuel (values ++ kept [val]) s1.
Proof.
  intros H Ht. cbn [read_struct_loop]. unfold bind. rewrite H.
  unfold kept. cbn [filter].
  destruct (type val); try contradiction; try reflexivity.
  cbn [BondType_eqb BondType_code Z.eqb negb]. now rewrite app_nil_r.
Qed.

Lemma read_struct_loop_raise fuel values s e :
  _read_field rv s = Raise e ->
  read_struct_loop rv (S fuel) values s = Raise e.
Proof. intros H. cbn [read_struct_loop]. unfold bind. now rewrite H. Qed.

Lemma read_struct_loop_sound fuel :
  forall values s vs s',
    read_struct_loop rv fuel values s = Return vs s' ->
    exists fields,
      fields_to_stop (_read_field rv) s fields s' /\ vs = values ++ kept fields.
Proof.
  induction fuel as [|fuel IH]; intros values s vs s' H; [discriminate H|].
  destruct (_read_field rv s) as [val s1|e|] eqn:Hf.
  - destruct (BondType_eqb (type val) Stop) eqn:Ht.
    + apply BondType_eqb_eq in Ht.
      rewrite (@read_struct_loop_stop fuel values s val s1 Hf Ht) in H. inversion H; subst.
      exists []. split; [now apply stop_field with val|].
      now rewrite app_nil_r.
    + assert (Hne : type val <> Stop).
      { intros E. apply BondType_eqb_eq in E. congruence. }
      rewrite (@read_struct_loop_next fuel values s val s1 Hf Hne) in H.
      apply IH in H as (fields & Hrun & ->).
      exists (val :: fields). split; [now apply more_field with s1|].
      rewrite <- app_assoc. f_equal. unfold kept. cbn [filter].
      now destruct (negb (BondType_eqb (type val) StopBase)).
  - rewrite (@read_struct_loop_raise fuel values s e Hf) in H. discriminate H.
  - cbn [read_struct_loop] in H. unfold bind in H. rewrite Hf in H. discriminate H.
Qed.

Lemma read_struct_loop_complete s fields s' :
  fields_to_stop (_read_field rv) s fields s' ->
  forall fuel values, (length fields < fuel)%nat ->
    read_struct_loop rv fuel values s = Return (values ++ kept fields) s'.
Proof.
  induction 1 as [s val s' Hf Ht|s val s1 vals s' Hf Ht Hrun IH];
    intros fuel values Hfuel.
  - destruct fuel as [|fuel]; [cbn [length] in Hfuel; lia|].
    rewrite (@read_struct_loop_stop fuel values s val s' Hf Ht). now rewrite app_nil_r.
  - destruct fuel as [|fuel]; [cbn [length] in Hfuel; lia|].
    rewrite (@read_struct_loop_next fuel values s val _ Hf Ht).
    rewrite IH by (cbn [length] in Hfuel; lia).
    rewrite <- app_assoc. f_equal. unfold kept. cbn [filter].
    now destruct (negb (BondType_eqb (type val) StopBase)).
Qed.

Lemma read_struct_loop_before fuel :
  forall values s n s1 e,
    fields_before (_read_field rv) s n s1 -> _read_field rv s1 = Raise e ->
    (n < fuel)%nat ->
    read_struct_loop rv fuel values s = Raise e.
Proof.
  induction fuel as [|fuel IH]; intros values s n s1 e Hrun He Hn; [lia|].
  destruct Hrun as [s|s val s2 n s1 Hf Ht Hrun].
  - now apply read_struct_loop_raise.
  - rewrite (@read_struct_loop_next fuel values s val _ Hf Ht).
    apply IH with n s1; try assumption. lia.
Qed.

End StructLoop.

Lemma read_value_Stop {codecs : Codecs} (fuel : nat) (i : Z) (s : State) :
  _read_value (S fuel) i Stop s
  = Return (mkBondValue (fresh s) i Stop PNone)
           (mkState (offset s) (unread s) (S (fresh s))).
Proof. reflexivity. Qed.

Lemma type_and_id_short (b : byte) (t : BondType) (more : list byte) (off fr : nat) :
  BondType_of_int (Z.land (byte_val b) 0x1F) = Some t ->
  Z.shiftr (byte_val b) 5 <= 5 ->
  _type_and_id (mkState off (b :: more) fr)
  = Return (Z.shiftr (byte_val b) 5, t) (mkState (off + 1) more fr).
Proof.
  intros Ht Hsel. rewrite (type_and_id_cons b more off fr Ht).
  destruct (Z.eqb_spec (Z.shiftr (byte_val b) 5) 6); [lia|].
  destruct (Z.eqb_spec (Z.shiftr (byte_val b) 5) 7); [lia|]. reflexivity.
Qed.

Lemma get_base_struct_empty {codecs : Codecs}
      (body : list byte) (last b : byte) (more : list byte) (off fr : nat) :
  forallb continues body = true -> continues last = false ->
  Z.land (byte_val b) 0x1F = 0 -> Z.shiftr (byte_val b) 5 <= 5 ->
  _get_base_struct (mkState off (body ++ last :: b :: more) fr)
  = Return (mkBondValue (S fr) 0 Struct (PList []))
           (mkState (off + length body + 1 + 1) more (S (S fr))).
Proof.
  intros Hbody Hlast Hb Hsel.
  apply base_struct_with_canonical with (fuel := 1%nat); [|discriminate].
  unfold base_struct_with, _read_struct. unfold bind at 1 2.
  rewrite uleb128_decode_exact by assumption.
  cbn [read_struct_loop]. unfold bind at 1. unfold _read_field. unfold bind at 1.
  rewrite (@type_and_id_short b Stop) by (try rewrite Hb; auto).
  rewrite read_value_Stop. reflexivity.
Qed.

Lemma fields_to_stop_refines {codecs : Codecs} (rv rv' : Z -> BondType -> M BondValue) :
  (forall i t, refines (rv i t) (rv' i t)) ->
  forall s fields s', fields_to_stop (_read_field rv) s fields s' ->
                      fields_to_stop (_read_field rv') s fields s'.
Proof.
  intros Hrv s fields s'.
  induction 1 as [s val s' Hf Ht|s val s1 vals s' Hf Ht Hrun IH].
  - apply stop_field with val; [|assumption].
    rewrite <- Hf. apply refines_read_field; [assumption|congruence].
  - apply more_field with s1; try assumption.
    rewrite <- Hf. apply refines_read_field; [assumption|congruence].
Qed.

Lemma read_struct_fields {codecs : Codecs} (rv : Z -> BondType -> M BondValue)
      (fuel : nat) s l s' :
  _read_struct rv fuel s = Return l s' ->
  exists len sa fields,
    _uleb128_decode s = Return len sa
    /\ fields_to_stop (_read_field rv) sa fields s'
    /\ l = kept fields.
Proof.
  unfold _read_struct. intros H.
  apply bind_Return in H as (len & sa & Hlen & Hloop).
  apply read_struct_loop_sound in Hloop as (fields & Hrun & ->).
  now exists len, sa, fields.
Qed.

Lemma read_struct_of_fields {codecs : Codecs} (rv : Z -> BondType -> M BondValue)
      (fuel : nat) s len sa fields s' :
  _uleb128_decode s = Return len sa ->
  fields_to_stop (_read_field rv) sa fields s' ->
  (length fields < fuel)%nat ->
  _read_struct rv fuel s = Return (kept fields) s'.
Proof.
  intros Hlen Hrun Hfuel. unfold _read_struct, bind. rewrite Hlen.
  now apply read_struct_loop_complete with (values := []).
Qed.

Lemma get_base_struct_fields {codecs : Codecs} s v s' :
  _get_base_struct s = Return v s' <->
  exists fuel len sa fields s1,
    _uleb128_decode s = Return len sa
    /\ fields_to_stop (_read_field (_read_value fuel)) sa fields s1
    /\ v = mkBondValue (fresh s1) 0 Struct (PList (kept fields))
    /\ s' = mkState (offset s1) (unread s1) (S (fresh s1)).
Proof.
  split.
  - intros H. unfold _get_base_struct in H.
    apply bind_Return in H as (l & s1 & Hl & Hnew).
    apply read_struct_fields in Hl as (len & sa & fields & Hlen & Hrun & ->).
    inversion Hnew; subst.
    now exists (enough s), len, sa, fields, s1.
  - intros (fuel & len & sa & fields & s1 & Hlen & Hrun & -> & ->).
    apply base_struct_with_canonical with (fuel := Nat.max fuel (S (length fields)));
      [|discriminate].
    unfold base_struct_with. unfold bind at 1.
    rewrite (@read_struct_of_fields _ (_read_value (Nat.max fuel (S (length fields))))
               (Nat.max fuel (S (length fields))) s len sa fields s1 Hlen);
      [reflexivity| |lia].
    apply fields_to_stop_refines with (rv := _read_value fuel); [|exact Hrun].
    intros i t. apply refines_read_value. lia.
Qed.

(** C2. [_read_struct] reads the length varint and then fields up to the
    first one of type [Stop]: what it returns is what came before that
    field, in order and without the fields of type [StopBase], and the
    [Stop] field, whatever its id, is left out; any run of fields closed
    by a [Stop] field is returned so. [_get_base_struct] returns exactly
    the [Struct] with id 0 of such a run, made after its fields. A
    length varint and a one-byte [Stop] tag decode to a [Struct] without
    children, nothing behind the tag being read. *)
Theorem read_struct_until_Stop {codecs : Codecs} :
  (forall fuel s l s',
      _read_struct (_read_value fuel) fuel s = Return l s' ->
      exists len sa fields,
        _uleb128_decode s = Return len sa
        /\ fields_to_stop (_read_field (_read_value fuel)) sa fields s'
        /\ l = kept fields)
  /\ (forall fuel s len sa fields s',
         _uleb128_decode s = Return len sa ->
         fields_to_stop (_read_field (_read_value fuel)) sa fields s' ->
         (length fields < fuel)%nat ->
         _read_struct (_read_value fuel) fuel s = Return (kept fields) s')
  /\ (forall s v s',
         _get_base_struct s = Return v s' <->
         exists fuel len sa fields s1,
           _uleb128_decode s = Return len sa
           /\ fields_to_stop (_read_field (_read_value fuel)) sa fields s1
           /\ v = mkBondValue (fresh s1) 0 Struct (PList (kept fields))
           /\ s' = mkState (offset s1) (unread s1) (S (fresh s1)))
  /\ (forall (body : list byte) (last b : byte) (more : list byte) (off fr : nat),
         forallb continues body = true -> continues last = false ->
         Z.land (byte_val b) 0x1F = 0 -> Z.shiftr (byte_val b) 5 <= 5 ->
         _get_base_struct (mkState off (body ++ last :: b :: more) fr)
         = Return (mkBondValue (S fr) 0 Struct (PList []))
                  (mkState (off + length body + 1 + 1) more (S (S fr)))).
Proof.
  split; [|split; [|split]].
  - intros fuel s l s'. apply read_struct_fields.
  - intros fuel s len sa fields s'. apply read_struct_of_fields.
  - apply get_base_struct_fields.
  - apply get_base_struct_empty.
Qed.

Lemma read_struct_until_Stop_witness :
  (_uleb128_decode (start [x00; x23; x07; x01; x43; x09; x00])
   = Return 0 (mkState 1 [x23; x07; x01; x43; x09; x00] 0)
   /\ fields_to_stop (_read_field (@_read_value CPython.codecs 1))
        (mkState 1 [x23; x07; x01; x43; x09; x00] 0)
        [mkBondValue 0 1 Uint8 (PInt 7); mkBondValue 1 0 StopBase PNone;
         mkBondValue 2 2 Uint8 (PInt 9)]
        (mkState 7 [] 4))
  /\ @_get_base_struct CPython.codecs (start [x00; x23; x07; x01; x43; x09; x00])
     = Return (mkBondValue 4 0 Struct
                 (PList [mkBondValue 0 1 Uint8 (PInt 7); mkBondValue 2 2 Uint8 (PInt 9)]))
              (mkState 7 [] 5).
Proof.
  assert (Hrun : fields_to_stop (_read_field (@_read_value CPython.codecs 1))
                   (mkState 1 [x23; x07; x01; x43; x09; x00] 0)
                   [mkBondValue 0 1 Uint8 (PInt 7); mkBondValue 1 0 StopBase PNone;
                    mkBondValue 2 2 Uint8 (PInt 9)]
                   (mkState 7 [] 4)).
  { eapply more_field; [reflexivity|discriminate|].
    eapply more_field; [reflexivity|discriminate|].
    eapply more_field; [reflexivity|discriminate|].
    eapply stop_field; [reflexivity|reflexivity]. }
  split; [split; [reflexivity|exact Hrun]|].
  exact (proj2 (proj1 (proj2 (proj2 (@read_struct_until_Stop CPython.codecs)))
                  (start [x00; x23; x07; x01; x43; x09; x00])
                  (mkBondValue 4 0 Struct
                     (PList [mkBondValue 0 1 Uint8 (PInt 7);
                             mkBondValue 2 2 Uint8 (PInt 9)]))
                  (mkState 7 [] 5))
           (ex_intro _ 1%nat
              (ex_intro _ 0
                 (ex_intro _ (mkState 1 [x23; x07; x01; x43; x09; x00] 0)
                    (ex_intro _ [mkBondValue 0 1 Uint8 (PInt 7);
                                 mkBondValue 1 0 StopBase PNone;
                                 mkBondValue 2 2 Uint8 (PInt 9)]
                       (ex_intro _ (mkState 7 [] 4)
                          (conj eq_refl (conj Hrun (conj eq_refl eq_refl))))))))).
Defined.

(** ** What [_read_value] returns *)

Lemma stable_fresh {A} (bad : Outcome A -> Prop) (m : M A) s a s' :
  stable bad m -> m s = Return a s' -> (fresh s <= fresh s')%nat.
Proof. intros H Hm. destruct (H _ _ _ Hm) as (c & _ & _ & Hf & _). exact Hf. Qed.

Ltac unbind H :=
  repeat match type of H with
         | bind _ _ _ = Return _ _ =>
             let a := fresh "a" in
             let s := fresh "s" in
             let Hm := fresh "Hm" in
             apply bind_Return in H as (a & s & Hm & H)
         end.

Section Returns.

Context {codecs : Codecs}.
Variable rv : Z -> BondType -> M BondValue.
Hypothesis stable_rv : forall i t, stable starved (rv i t).
Hypothesis at_end_rv : forall i t, at_end starved (rv i t).

Lemma read_value_body_returns fuel i t s v s' :
  read_value_body rv fuel i t s = Return v s' ->
  oid v = fresh s /\ id v = i /\ type v = t /\ (fresh s < fresh s')%nat.
Proof.
  unfold read_value_body. intros H.
  apply bind_Return in H as (val & s1 & Hnew & H).
  inversion Hnew; subst val s1; clear Hnew.
  assert (Hstruct : stable starved (_read_struct rv fuel))
    by (apply stable_read_struct; assumption).
  assert (Hlist : forall t', stable starved (_read_list rv t'))
    by (intros; apply stable_read_list; assumption).
  assert (Hmap : stable starved (_read_map rv))
    by (apply stable_read_map; assumption).
  pose proof stable_read_string as Hstr.
  pose proof stable_read_wstring as Hwstr.
  pose proof (stable_stuck_starved stable_read_byte) as Hbyte.
  pose proof (stable_stuck_starved stable_uleb128_decode) as Huleb.
  destruct t; unbind H; inversion H; subst; cbn [oid id type set_value];
    repeat match goal with
           | Hm : ?m ?sa = Return _ ?sb |- _ =>
               apply (@stable_fresh _ starved) in Hm; [|solve [auto with cut]]
           end;
    cbn [fresh] in *; repeat split; lia.
Qed.

End Returns.

Lemma read_value_returns {codecs : Codecs} (fuel : nat) (i : Z) (t : BondType) s v s' :
  _read_value fuel i t s = Return v s' ->
  oid v = fresh s /\ id v = i /\ type v = t /\ (fresh s < fresh s')%nat.
Proof.
  destruct fuel as [|fuel]; [discriminate|]. cbn [_read_value].
  apply read_value_body_returns; [apply stable_read_value|apply at_end_read_value].
Qed.

(** ** Lists and sets *)

Section ListLoop.

Variable rv : Z -> BondType -> M BondValue.

Lemma read_list_loop_sound count t :
  forall values s vs s',
    read_list_loop rv count t values s = Return vs s' ->
    exists vals, elements_read rv t count s vals s' /\ vs = values ++ vals.
Proof.
  induction count as [|count IH]; intros values s vs s' H; cbn [read_list_loop] in H.
  - inversion H; subst. exists []. split; [constructor|now rewrite app_nil_r].
  - apply bind_Return in H as (val & s1 & Hval & H).
    apply IH in H as (vals & Hrun & ->).
    exists (val :: vals). split; [now apply elements_next with s1|].
    now rewrite <- app_assoc.
Qed.

Lemma read_list_loop_complete count t s vals s' :
  elements_read rv t count s vals s' ->
  forall values, read_list_loop rv count t values s = Return (values ++ vals) s'.
Proof.
  induction 1 as [s|n s val s1 vals s' Hval Hrun IH]; intros values;
    cbn [read_list_loop].
  - unfold ret. now rewrite app_nil_r.
  - unfold bind. rewrite Hval, IH, <- app_assoc. reflexivity.
Qed.

Lemma elements_read_length t count s vals s' :
  elements_read rv t count s vals s' -> length vals = count.
Proof. induction 1; cbn [length]; congruence. Qed.

Lemma read_list_split (ty : BondType) s t n s1 :
  _get_type_count s = Return (t, n) s1 ->
  _read_list rv ty s
  = if BondType_eqb t List || BondType_eqb t Int8 || BondType_eqb t Uint8
    then (_ <- _read_blobs n ;; ret []) s1
    else read_list_loop rv (Z.to_nat n) t [] s1.
Proof.
  intros H. unfold _read_list. unfold bind at 1. rewrite H.
  destruct (BondType_eqb t List || BondType_eqb t Int8 || BondType_eqb t Uint8);
    reflexivity.
Qed.

Lemma read_blobs_in_range (n : Z) (s : State) :
  0 <= n -> Z.of_nat (offset s) + n <= PY_SSIZE_T_MAX ->
  (_ <- _read_blobs n ;; ret (@nil BondValue)) s
  = Return [] (mkState (offset s + Z.to_nat n) (skipn (Z.to_nat n) (unread s)) (fresh s)).
Proof.
  intros Hn Hle. unfold bind, _read_blobs.
  rewrite seek_cur_in_range by lia. reflexivity.
Qed.

Lemma read_blobs_too_far (n : Z) (s : State) :
  0 <= n -> PY_SSIZE_T_MAX < Z.of_nat (offset s) + n ->
  (_ <- _read_blobs n ;; ret (@nil BondValue)) s = Raise OverflowError.
Proof.
  intros Hn Hgt. unfold bind, _read_blobs.
  rewrite seek_cur_too_far by lia. reflexivity.
Qed.

End ListLoop.

Lemma get_type_count_nonneg s t n s1 : _get_type_count s = Return (t, n) s1 -> 0 <= n.
Proof.
  unfold _get_type_count. intros H.
  apply bind_Return in H as (b & sa & Hb & H).
  apply bind_Return in H as (t' & sb & Ht & H).
  destruct (Z.eqb_spec (Z.shiftr b 5) 0) as [E|E].
  - apply bind_Return in H as (c & sc & Hc & H). inversion H; subst.
    now apply uleb128_decode_nonneg in Hc.
  - inversion H; subst.
    destruct sa as [o u f]. destruct s as [o' [|x u'] f']; [discriminate Hb|].
    rewrite read_byte_cons in Hb. inversion Hb; subst.
    pose proof (selector_range x). lia.
Qed.

Lemma elements_read_typed {codecs : Codecs} fuel t count s vals s' :
  elements_read (_read_value fuel) t count s vals s' ->
  Forall (fun val => id val = 0 /\ type val = t) vals.
Proof.
  induction 1 as [s|n s val s1 vals s' Hval Hrun IH]; constructor; [|exact IH].
  apply read_value_returns in Hval. tauto.
Qed.

(** C3. When the element type of a list or set is [List], [Int8] or
    [Uint8] nothing is decoded: the position moves by the count, also
    past the end of the input, and the children are none; this is so as
    long as the new position is one the stream can have, and beyond
    that nothing is returned. For any other element type the children
    are exactly [count] values of that type, read one after the other,
    each with id 0. A tag for 5 elements of [Uint8] skips 5 bytes. *)
Theorem read_list_blob_or_elements {codecs : Codecs}
        (fuel : nat) (ty : BondType) (s : State) (t : BondType) (n : Z) (s1 : State) :
  _get_type_count s = Return (t, n) s1 ->
  0 <= n
  /\ (t = List \/ t = Int8 \/ t = Uint8 ->
      (Z.of_nat (offset s1) + n <= PY_SSIZE_T_MAX ->
       exists s',
         _read_list (_read_value fuel) ty s = Return [] s'
         /\ Z.of_nat (offset s') = Z.of_nat (offset s1) + n
         /\ unread s' = skipn (Z.to_nat n) (unread s1)
         /\ fresh s' = fresh s1)
      /\ (PY_SSIZE_T_MAX < Z.of_nat (offset s1) + n ->
          forall vals s', _read_list (_read_value fuel) ty s <> Return vals s'))
  /\ (t <> List -> t <> Int8 -> t <> Uint8 ->
      forall vals s',
        _read_list (_read_value fuel) ty s = Return vals s'
        <-> elements_read (_read_value fuel) t (Z.to_nat n) s1 vals s')
  /\ (forall vals s',
        elements_read (_read_value fuel) t (Z.to_nat n) s1 vals s' ->
        Z.of_nat (length vals) = n
        /\ Forall (fun val => id val = 0 /\ type val = t) vals)
  /\ (forall more off fr,
        Z.of_nat (off + 1 + 5) <= PY_SSIZE_T_MAX ->
        _read_list (_read_value fuel) ty (mkState off (xc3 :: more) fr)
        = Return [] (mkState (off + 1 + 5) (skipn 5 more) fr)).
Proof.
  intros H. pose proof (get_type_count_nonneg _ H) as Hn.
  pose proof (read_list_split (_read_value fuel) ty _ H) as Hsplit.
  split; [exact Hn|]. split; [|split; [|split]].
  - intros Ht.
    assert (Hblob : BondType_eqb t List || BondType_eqb t Int8 || BondType_eqb t Uint8
                    = true) by (destruct Ht as [-> | [-> | ->]]; reflexivity).
    rewrite Hblob in Hsplit. split.
    + intros Hle. eexists. split.
      * rewrite Hsplit. now apply read_blobs_in_range.
      * cbn [offset unread fresh]. repeat split. lia.
    + intros Hgt vals s'. rewrite Hsplit, read_blobs_too_far by assumption.
      discriminate.
  - intros H1 H2 H3 vals s'. rewrite Hsplit.
    replace (BondType_eqb t List || BondType_eqb t Int8 || BondType_eqb t Uint8)
      with false by (destruct t; try reflexivity; congruence).
    split.
    + intros Hrun. apply read_list_loop_sound in Hrun as (vals' & Hrun & ->).
      exact Hrun.
    + intros Hrun. now apply read_list_loop_complete with (values := []) in Hrun.
  - intros vals s' Hrun. split.
    + apply elements_read_length in Hrun. lia.
    + now apply elements_read_typed in Hrun.
  - intros more off fr Hle.
    rewrite (@read_list_split (_read_value fuel) ty (mkState off (xc3 :: more) fr)
               Uint8 5 (mkState (off + 1) more fr) eq_refl).
    cbn [BondType_eqb BondType_code Z.eqb Pos.eqb orb].
    rewrite read_blobs_in_range by (cbn [offset]; lia).
    reflexivity.
Qed.

Lemma read_list_blob_or_elements_witness :
  (_get_type_count (mkState 0 [x69; x01; x41; x02; xc3; xa9] 0)
   = Return (String, 2) (mkState 1 [x01; x41; x02; xc3; xa9] 0)
   /\ (@_read_list (@_read_value CPython.codecs 1) List
         (mkState 0 [x69; x01; x41; x02; xc3; xa9] 0)
       = Return [mkBondValue 0 0 String (PStr [65%N]); mkBondValue 1 0 String (PStr [233%N])]
                (mkState 6 [] 2)
       <-> elements_read (@_read_value CPython.codecs 1) String 2
             (mkState 1 [x01; x41; x02; xc3; xa9] 0)
             [mkBondValue 0 0 String (PStr [65%N]); mkBondValue 1 0 String (PStr [233%N])]
             (mkState 6 [] 2)))
  /\ (_get_type_count (mkState 7 [x63; x0a; x0b; x55] 0)
      = Return (Uint8, 2) (mkState 8 [x0a; x0b; x55] 0)
      /\ Z.of_nat 8 + 2 <= PY_SSIZE_T_MAX
      /\ exists s',
          @_read_list (@_read_value CPython.codecs 1) List
            (mkState 7 [x63; x0a; x0b; x55] 0) = Return [] s'
          /\ Z.of_nat (offset s') = Z.of_nat 8 + 2
          /\ unread s' = [x55]
          /\ fresh s' = 0%nat).
Proof.
  split.
  - split; [reflexivity|].
    refine (proj1 (proj2 (proj2
              (@read_list_blob_or_elements CPython.codecs 1 List
                 (mkState 0 [x69; x01; x41; x02; xc3; xa9] 0) String 2
                 (mkState 1 [x01; x41; x02; xc3; xa9] 0) eq_refl))) _ _ _ _ _);
      discriminate.
  - split; [reflexivity|]. split; [discriminate|].
    exact (proj1 (proj1 (proj2
              (@read_list_blob_or_elements CPython.codecs 1 List
                 (mkState 7 [x63; x0a; x0b; x55] 0) Uint8 2
                 (mkState 8 [x0a; x0b; x55] 0) eq_refl))
              (or_intror (or_intror eq_refl)))
             (fun H => match H with eq_refl => I end)).
Defined.

(** ** Maps *)

Lemma read_map_cons (rv : Z -> BondType -> M BondValue) (k v : byte)
      (more : list byte) (off fr : nat) :
  _read_map rv (mkState off (k :: v :: more) fr)
  = match BondType_of_int (Z.land (byte_val k) 0x1F),
          BondType_of_int (Z.land (byte_val v) 0x1F) with
    | Some key_type, Some value_type =>
        (count <- _uleb128_decode ;;
         read_map_loop rv (Z.to_nat count) key_type value_type [])
          (mkState (off + 1 + 1) more fr)
    | _, _ => Raise ValueError
    end.
Proof.
  unfold _read_map. unfold bind at 1. rewrite read_byte_cons.
  unfold bind at 1. unfold to_BondType at 1.
  destruct (BondType_of_int (Z.land (byte_val k) 31)) as [kt|]; [|reflexivity].
  unfold ret at 1. unfold bind at 1. rewrite read_byte_cons.
  unfold bind at 1. unfold to_BondType at 1.
  destruct (BondType_of_int (Z.land (byte_val v) 31)) as [vt|]; reflexivity.
Qed.

(** C10. [_read_map] looks at the low 5 bits of the key type byte and of
    the value type byte only: two inputs that differ in the high 3 bits
    of these bytes have the same outcome, be it a map or an exception. *)
Theorem read_map_ignores_high_bits
        (rv : Z -> BondType -> M BondValue) (k1 k2 v1 v2 : byte)
        (more : list byte) (off fr : nat) :
  Z.land (byte_val k1) 0x1F = Z.land (byte_val k2) 0x1F ->
  Z.land (byte_val v1) 0x1F = Z.land (byte_val v2) 0x1F ->
  _read_map rv (mkState off (k1 :: v1 :: more) fr)
  = _read_map rv (mkState off (k2 :: v2 :: more) fr).
Proof.
  intros Hk Hv. rewrite !read_map_cons, Hk, Hv. reflexivity.
Qed.

Lemma read_map_ignores_high_bits_witness :
  (Z.land (byte_val xe3) 0x1F = Z.land (byte_val x03) 0x1F
   /\ Z.land (byte_val x49) 0x1F = Z.land (byte_val x09) 0x1F)
  /\ _read_map (@_read_value CPython.codecs 1) (mkState 0 [xe3; x49; x01; x05; x01; x41] 0)
     = _read_map (@_read_value CPython.codecs 1) (mkState 0 [x03; x09; x01; x05; x01; x41] 0).
Proof.
  split; [split; reflexivity|].
  exact (@read_map_ignores_high_bits (@_read_value CPython.codecs 1)
           xe3 x03 x49 x09 [x01; x05; x01; x41] 0%nat 0%nat eq_refl eq_refl).
Defined.

Lemma dict_set_new (values : list (BondValue * BondValue)) (key val : BondValue) :
  Forall (fun kv => oid (fst kv) <> oid key) values ->
  dict_set values key val = values ++ [(key, val)].
Proof.
  induction 1 as [|[k v] more Hk Hmore IH]; [reflexivity|].
  cbn [dict_set app fst] in *. apply Nat.eqb_neq in Hk. now rewrite Hk, IH.
Qed.

Lemma dict_get_own (d : list (BondValue * BondValue)) (k v : BondValue) :
  NoDup (map (fun kv => oid (fst kv)) d) -> In (k, v) d -> dict_get d k = Some v.
Proof.
  induction d as [|[k' v'] d IH]; intros Hnd Hin; [contradiction|].
  cbn [map fst] in Hnd. inversion Hnd as [|x l Hnotin Hnd']; subst.
  cbn [dict_get]. destruct Hin as [E|Hin].
  - inversion E; subst. now rewrite Nat.eqb_refl.
  - destruct (Nat.eqb_spec (oid k') (oid k)) as [E|E].
    + exfalso. apply Hnotin. rewrite E.
      apply (in_map (fun kv => oid (fst kv)) d (k, v) Hin).
    + now apply IH.
Qed.

Section MapLoop.

Context {codecs : Codecs}.
Variable fuel : nat.

(** Every key of a run of entries is an object made during the run,
    and no two keys are the same object. *)
Lemma entries_read_keys kt vt count s entries s' :
  entries_read (_read_value fuel) kt vt count s entries s' ->
  (fresh s <= fresh s')%nat
  /\ Forall (fun kv => (fresh s <= oid (fst kv) < fresh s')%nat) entries
  /\ NoDup (map (fun kv => oid (fst kv)) entries).
Proof.
  induction 1 as [s|n s key s1 val s2 entries s' Hkey Hval Hrun (Hle & Hall & Hnd)].
  - repeat split; [lia|constructor|constructor].
  - apply read_value_returns in Hkey as (Hoid & _ & _ & Hk).
    apply read_value_returns in Hval as (_ & _ & _ & Hv).
    split; [lia|]. split.
    + constructor; [cbn [fst]; lia|].
      eapply Forall_impl; [|exact Hall]. cbn beta. intros kv Hkv. lia.
    + cbn [map fst]. constructor; [|exact Hnd].
      intros Hin. apply in_map_iff in Hin as (kv & Heq & Hin).
      rewrite Forall_forall in Hall. specialize (Hall kv Hin). lia.
Qed.

Lemma entries_read_length kt vt count s entries s' :
  entries_read (_read_value fuel) kt vt count s entries s' -> length entries = count.
Proof. induction 1; cbn [length]; congruence. Qed.

Lemma read_map_loop_keeps kt vt count :
  forall values s d s',
    Forall (fun kv => (oid (fst kv) < fresh s)%nat) values ->
    read_map_loop (_read_value fuel) count kt vt values s = Return d s' ->
    exists entries,
      entries_read (_read_value fuel) kt vt count s entries s'
      /\ d = values ++ entries.
Proof.
  induction count as [|count IH]; intros values s d s' Hold H; cbn [read_map_loop] in H.
  - inversion H; subst. exists []. split; [constructor|now rewrite app_nil_r].
  - apply bind_Return in H as (key & s1 & Hkey & H).
    apply bind_Return in H as (val & s2 & Hval & H).
    pose proof (read_value_returns _ _ _ _ Hkey) as (Hoid & _ & _ & Hk).
    pose proof (read_value_returns _ _ _ _ Hval) as (_ & _ & _ & Hv).
    rewrite dict_set_new in H.
    + apply IH in H as (entries & Hrun & ->).
      * exists ((key, val) :: entries). split; [now apply entries_next with s1 s2|].
        now rewrite <- app_assoc.
      * apply Forall_app. split.
        -- eapply Forall_impl; [|exact Hold]. cbn beta. intros kv Hkv. lia.
        -- constructor; [cbn [fst]; lia|constructor].
    + eapply Forall_impl; [|exact Hold]. cbn beta. intros kv Hkv. lia.
Qed.

End MapLoop.

(** C6 (as stated, refuted). A map of two entries whose keys are both the
    [Uint8] 5 decodes to two entries: the keys hold the same thing, the
    first entry still has its value 7, and the value 8 of the second has
    not replaced it. *)
Lemma read_map_keeps_duplicate_keys :
  exists k1 v1 k2 v2 s',
    _read_map (@_read_value CPython.codecs 1)
              (start [x03; x03; x02; x05; x07; x05; x08])
    = Return [(k1, v1); (k2, v2)] s'
    /\ same_content k1 k2
    /\ value k1 = PInt 5 /\ value v1 = PInt 7 /\ value v2 = PInt 8
    /\ dict_get [(k1, v1); (k2, v2)] k1 = Some v1.
Proof.
  do 5 eexists. split; [reflexivity|]. repeat split.
Qed.

(** C6 (amended). The entries of a decoded map are the [count] pairs of
    key and value in the order they were read. A key is looked up by the
    identity of its node, every key read is a node of its own, so no
    entry replaces another, whatever the keys hold: the map has [count]
    entries and gives for every key read the value read with it. *)
Theorem read_map_keeps_every_entry {codecs : Codecs} (fuel : nat) s d s' :
  _read_map (_read_value fuel) s = Return d s' ->
  exists k v key_type value_type count s2 s1,
    (k <- read_byte ;; v <- read_byte ;; ret (k, v)) s = Return (k, v) s2
    /\ BondType_of_int (Z.land k 0x1F) = Some key_type
    /\ BondType_of_int (Z.land v 0x1F) = Some value_type
    /\ _uleb128_decode s2 = Return count s1
    /\ entries_read (_read_value fuel) key_type value_type (Z.to_nat count) s1 d s'
    /\ Z.of_nat (length d) = count
    /\ NoDup (map (fun kv => oid (fst kv)) d)
    /\ forall key val, In (key, val) d -> dict_get d key = Some val.
Proof.
  unfold _read_map. intros H.
  apply bind_Return in H as (k & sa & Hk & H).
  apply bind_Return in H as (kt & sb & Hkt & H).
  apply bind_Return in H as (v & sc & Hv & H).
  apply bind_Return in H as (vt & sd & Hvt & H).
  apply bind_Return in H as (count & s1 & Hcount & H).
  unfold to_BondType in Hkt, Hvt.
  destruct (BondType_of_int (Z.land k 31)) as [kt'|] eqn:Ekt; [|discriminate].
  destruct (BondType_of_int (Z.land v 31)) as [vt'|] eqn:Evt; [|discriminate].
  inversion Hkt; inversion Hvt; subst.
  apply read_map_loop_keeps in H as (entries & Hrun & Hd); [|constructor].
  cbn [app] in Hd. subst entries.
  exists k, v, kt, vt, count, sd, s1.
  pose proof Hrun as Hkeys. apply entries_read_keys in Hkeys as (_ & _ & Hnd).
  pose proof Hrun as Hlen. apply entries_read_length in Hlen.
  pose proof (uleb128_decode_nonneg _ Hcount) as Hpos.
  repeat split; try assumption.
  - unfold bind. rewrite Hk, Hv. reflexivity.
  - lia.
  - intros key val. now apply dict_get_own.
Qed.

Lemma read_map_keeps_every_entry_witness :
  _read_map (@_read_value CPython.codecs 1) (start [x03; x03; x02; x05; x07; x05; x08])
  = Return [(mkBondValue 0 0 Uint8 (PInt 5), mkBondValue 1 0 Uint8 (PInt 7));
            (mkBondValue 2 0 Uint8 (PInt 5), mkBondValue 3 0 Uint8 (PInt 8))]
           (mkState 7 [] 4)
  /\ exists k v key_type value_type count s2 s1,
      (k <- read_byte ;; v <- read_byte ;; ret (k, v))
        (start [x03; x03; x02; x05; x07; x05; x08]) = Return (k, v) s2
      /\ BondType_of_int (Z.land k 0x1F) = Some key_type
      /\ BondType_of_int (Z.land v 0x1F) = Some value_type
      /\ _uleb128_decode s2 = Return count s1
      /\ entries_read (@_read_value CPython.codecs 1) key_type value_type
           (Z.to_nat count) s1
           [(mkBondValue 0 0 Uint8 (PInt 5), mkBondValue 1 0 Uint8 (PInt 7));
            (mkBondValue 2 0 Uint8 (PInt 5), mkBondValue 3 0 Uint8 (PInt 8))]
           (mkState 7 [] 4)
      /\ Z.of_nat 2 = count
      /\ NoDup [0%nat; 2%nat]
      /\ forall key val,
          In (key, val)
             [(mkBondValue 0 0 Uint8 (PInt 5), mkBondValue 1 0 Uint8 (PInt 7));
              (mkBondValue 2 0 Uint8 (PInt 5), mkBondValue 3 0 Uint8 (PInt 8))] ->
          dict_get
            [(mkBondValue 0 0 Uint8 (PInt 5), mkBondValue 1 0 Uint8 (PInt 7));
             (mkBondValue 2 0 Uint8 (PInt 5), mkBondValue 3 0 Uint8 (PInt 8))] key
          = Some val.
Proof.
  split; [reflexivity|].
  exact (@read_map_keeps_every_entry CPython.codecs 1
           (start [x03; x03; x02; x05; x07; x05; x08]) _ _ eq_refl).
Defined.

(** ** Exceptions on the way out *)

Lemma uleb128_decode_fresh s n s1 (fr : nat) :
  _uleb128_decode s = Return n s1 ->
  _uleb128_decode (mkState (offset s) (unread s) fr)
  = Return n (mkState (offset s1) (unread s1) fr).
Proof.
  unfold _uleb128_decode. cbn [offset unread fresh].
  destruct (uleb128_loop (unread s) 0 0 0) as [[[r k] more]|e]; [|discriminate].
  intros H. inversion H; subst. reflexivity.
Qed.

Lemma fields_before_refines {codecs : Codecs} (rv rv' : Z -> BondType -> M BondValue) :
  (forall i t, refines (rv i t) (rv' i t)) ->
  forall s n s', fields_before (_read_field rv) s n s' ->
                 fields_before (_read_field rv') s n s'.
Proof.
  intros Hrv s n s'. induction 1 as [s|s val s1 n s' Hf Ht Hrun IH]; [constructor|].
  apply before_next with val s1; try assumption.
  rewrite <- Hf. apply refines_read_field; [assumption|congruence].
Qed.

Section Propagation.

Context {codecs : Codecs}.

Lemma read_string_invalid s n s1 :
  _uleb128_decode s = Return n s1 ->
  n <= PY_SSIZE_T_MAX ->
  decode_utf8 (firstn (Z.to_nat n) (unread s1)) = None ->
  _read_string s = Raise StringReadError.
Proof.
  intros Hn Hle Hbad. pose proof (uleb128_decode_nonneg _ Hn) as Hpos.
  unfold _read_string. unfold bind at 1. rewrite Hn.
  unfold bind. rewrite read_in_range by lia. now rewrite Hbad.
Qed.

Lemma read_wstring_invalid s n s1 :
  _uleb128_decode s = Return n s1 ->
  n * 2 <= PY_SSIZE_T_MAX ->
  decode_utf16 (firstn (Z.to_nat (n * 2)) (unread s1)) = None ->
  _read_wstring s = Raise WStringReadError.
Proof.
  intros Hn Hle Hbad. pose proof (uleb128_decode_nonneg _ Hn) as Hpos.
  unfold _read_wstring. unfold bind at 1. rewrite Hn.
  unfold bind. rewrite read_in_range by lia. now rewrite Hbad.
Qed.

Lemma read_value_String_invalid fuel i s n s1 :
  _uleb128_decode s = Return n s1 ->
  n <= PY_SSIZE_T_MAX ->
  decode_utf8 (firstn (Z.to_nat n) (unread s1)) = None ->
  _read_value (S fuel) i String s = Raise StringReadError.
Proof.
  intros Hn Hle Hbad. cbn [_read_value]. unfold read_value_body.
  unfold bind at 1. cbn [new_BondValue]. unfold bind at 1.
  erewrite read_string_invalid; [reflexivity| | |].
  - apply uleb128_decode_fresh, Hn.
  - exact Hle.
  - exact Hbad.
Qed.

Lemma read_value_Wstring_invalid fuel i s n s1 :
  _uleb128_decode s = Return n s1 ->
  n * 2 <= PY_SSIZE_T_MAX ->
  decode_utf16 (firstn (Z.to_nat (n * 2)) (unread s1)) = None ->
  _read_value (S fuel) i Wstring s = Raise WStringReadError.
Proof.
  intros Hn Hle Hbad. cbn [_read_value]. unfold read_value_body.
  unfold bind at 1. cbn [new_BondValue]. unfold bind at 1.
  erewrite read_wstring_invalid; [reflexivity| | |].
  - apply uleb128_decode_fresh, Hn.
  - exact Hle.
  - exact Hbad.
Qed.

Lemma read_field_raises (rv : Z -> BondType -> M BondValue) s i t s1 e :
  _type_and_id s = Return (i, t) s1 -> rv i t s1 = Raise e ->
  _read_field rv s = Raise e.
Proof. intros Hh He. unfold _read_field, bind. now rewrite Hh. Qed.

Lemma read_value_Struct_raises (rv : Z -> BondType -> M BondValue) fuel i s e :
  _read_struct rv fuel (mkState (offset s) (unread s) (S (fresh s))) = Raise e ->
  read_value_body rv fuel i Struct s = Raise e.
Proof.
  intros H. unfold read_value_body. unfold bind at 1. cbn [new_BondValue].
  unfold bind at 1. now rewrite H.
Qed.

Lemma read_struct_raises (rv : Z -> BondType -> M BondValue) fuel s len s1 n s2 e :
  _uleb128_decode s = Return len s1 ->
  fields_before (_read_field rv) s1 n s2 -> _read_field rv s2 = Raise e ->
  (n < fuel)%nat ->
  _read_struct rv fuel s = Raise e.
Proof.
  intros Hlen Hrun He Hn. unfold _read_struct, bind. rewrite Hlen.
  now apply read_struct_loop_before with n s2.
Qed.

Lemma get_base_struct_raises fuel s0 len s1 n s e :
  _uleb128_decode s0 = Return len s1 ->
  fields_before (_read_field (_read_value fuel)) s1 n s ->
  _read_field (_read_value fuel) s = Raise e ->
  _get_base_struct s0 = Raise e.
Proof.
  intros Hlen Hrun He.
  apply base_struct_with_canonical with (fuel := Nat.max fuel (S n)); [|discriminate].
  assert (Hrv : forall i t, refines (_read_value fuel i t)
                                    (_read_value (Nat.max fuel (S n)) i t))
    by (intros i t; apply refines_read_value; lia).
  unfold base_struct_with. unfold bind at 1.
  erewrite read_struct_raises; [reflexivity|exact Hlen| | |].
  - apply fields_before_refines with (rv := _read_value fuel); eassumption.
  - rewrite <- He. apply refines_read_field; [exact Hrv|congruence].
  - lia.
Qed.

End Propagation.

(** C8. A [String] whose declared span of bytes lies in the input and
    is no UTF-8 makes [_read_string], and the [_read_value] around it,
    raise [StringReadError]; a [Wstring] whose span of twice as many
    bytes is no UTF-16 raises [WStringReadError]. No reader catches
    anything: when such a field follows any number of fields in the loop
    of the base struct, [_get_base_struct] raises the same exception,
    and so does every struct loop, at any depth, around a field that
    raises. *)
Theorem string_errors_reach_the_caller {codecs : Codecs} :
  (forall fuel s0 len s1 k s i sh n sl,
      _uleb128_decode s0 = Return len s1 ->
      fields_before (_read_field (_read_value (S fuel))) s1 k s ->
      _type_and_id s = Return (i, String) sh ->
      _uleb128_decode sh = Return n sl ->
      n <= PY_SSIZE_T_MAX -> n <= Z.of_nat (length (unread sl)) ->
      decode_utf8 (firstn (Z.to_nat n) (unread sl)) = None ->
      _read_string sh = Raise StringReadError
      /\ _read_value (S fuel) i String sh = Raise StringReadError
      /\ _get_base_struct s0 = Raise StringReadError)
  /\ (forall fuel s0 len s1 k s i sh n sl,
         _uleb128_decode s0 = Return len s1 ->
         fields_before (_read_field (_read_value (S fuel))) s1 k s ->
         _type_and_id s = Return (i, Wstring) sh ->
         _uleb128_decode sh = Return n sl ->
         n * 2 <= PY_SSIZE_T_MAX -> n * 2 <= Z.of_nat (length (unread sl)) ->
         decode_utf16 (firstn (Z.to_nat (n * 2)) (unread sl)) = None ->
         _read_wstring sh = Raise WStringReadError
         /\ _read_value (S fuel) i Wstring sh = Raise WStringReadError
         /\ _get_base_struct s0 = Raise WStringReadError)
  /\ (forall (rv : Z -> BondType -> M BondValue) fuel i s len s1 k s2 e,
         _uleb128_decode (mkState (offset s) (unread s) (S (fresh s))) = Return len s1 ->
         fields_before (_read_field rv) s1 k s2 ->
         _read_field rv s2 = Raise e ->
         (k < fuel)%nat ->
         read_value_body rv fuel i Struct s = Raise e).
Proof.
  split; [|split].
  - intros fuel s0 len s1 k s i sh n sl Hlen Hrun Hh Hn Hle _ Hbad.
    pose proof (read_value_String_invalid fuel i _ Hn Hle Hbad) as Hval.
    repeat split; [now apply read_string_invalid with n sl|exact Hval|].
    apply get_base_struct_raises with (S fuel) len s1 k s; try assumption.
    now apply read_field_raises with i String sh.
  - intros fuel s0 len s1 k s i sh n sl Hlen Hrun Hh Hn Hle _ Hbad.
    pose proof (read_value_Wstring_invalid fuel i _ Hn Hle Hbad) as Hval.
    repeat split; [now apply read_wstring_invalid with n sl|exact Hval|].
    apply get_base_struct_raises with (S fuel) len s1 k s; try assumption.
    now apply read_field_raises with i Wstring sh.
  - intros rv fuel i s len s1 k s2 e Hlen Hrun He Hk.
    apply read_value_Struct_raises.
    now apply read_struct_raises with len s1 k s2.
Qed.

Lemma string_errors_reach_the_caller_witness :
  (_uleb128_decode (start [x00; x22; x07; x29; x01; xff; x00])
   = Return 0 (mkState 1 [x22; x07; x29; x01; xff; x00] 0)
   /\ fields_before (_read_field (@_read_value CPython.codecs 1))
        (mkState 1 [x22; x07; x29; x01; xff; x00] 0) 1
        (mkState 3 [x29; x01; xff; x00] 1)
   /\ _type_and_id (mkState 3 [x29; x01; xff; x00] 1)
      = Return (1, String) (mkState 4 [x01; xff; x00] 1)
   /\ _uleb128_decode (mkState 4 [x01; xff; x00] 1) = Return 1 (mkState 5 [xff; x00] 1)
   /\ 1 <= PY_SSIZE_T_MAX /\ 1 <= Z.of_nat (length [xff; x00])
   /\ CPython.utf8 (firstn (Z.to_nat 1) [xff; x00]) = None)
  /\ @_get_base_struct CPython.codecs (start [x00; x22; x07; x29; x01; xff; x00])
     = Raise StringReadError.
Proof.
  assert (Hrun : fields_before (_read_field (@_read_value CPython.codecs 1))
                   (mkState 1 [x22; x07; x29; x01; xff; x00] 0) 1
                   (mkState 3 [x29; x01; xff; x00] 1)).
  { eapply before_next; [reflexivity|discriminate|constructor]. }
  assert (Hle : 1 <= PY_SSIZE_T_MAX) by discriminate.
  assert (Hin : 1 <= Z.of_nat (length [xff; x00])) by discriminate.
  split; [repeat split; try reflexivity; assumption|].
  exact (proj2 (proj2
           (proj1 (@string_errors_reach_the_caller CPython.codecs)
              0%nat (start [x00; x22; x07; x29; x01; xff; x00]) 0
              (mkState 1 [x22; x07; x29; x01; xff; x00] 0) 1%nat
              (mkState 3 [x29; x01; xff; x00] 1) 1
              (mkState 4 [x01; xff; x00] 1) 1 (mkState 5 [xff; x00] 1)
              eq_refl Hrun eq_refl eq_refl Hle Hin eq_refl))).
Defined.

(** ** Truncated input *)

Lemma type_and_id_result (b : byte) (more : list byte) (off fr : nat) i t sh :
  _type_and_id (mkState off (b :: more) fr) = Return (i, t) sh ->
  BondType_of_int (Z.land (byte_val b) 0x1F) = Some t /\ fresh sh = fr.
Proof.
  destruct (BondType_of_int (Z.land (byte_val b) 0x1F)) as [t0|] eqn:Et.
  - rewrite (type_and_id_cons b more off fr Et).
    destruct (Z.shiftr (byte_val b) 5 =? 6); [|destruct (Z.shiftr (byte_val b) 5 =? 7)];
      intros H; unbind H; inversion H; subst.
    + destruct more as [|x more]; [discriminate Hm|].
      rewrite read_byte_cons in Hm. inversion Hm; subst. now split.
    + inversion Hm; subst. now split.
    + now split.
  - unfold _type_and_id. unfold bind at 1. rewrite read_byte_cons.
    unfold bind at 1. unfold to_BondType. rewrite Et. discriminate.
Qed.

Lemma read_value_Stop_inv {codecs : Codecs} (fuel : nat) (i : Z) s v s' :
  _read_value fuel i Stop s = Return v s' -> fresh s' = S (fresh s).
Proof.
  destruct fuel as [|fuel]; [discriminate|]. rewrite read_value_Stop.
  intros H. now inversion H.
Qed.

Section Truncation.

Context {codecs : Codecs}.
Variable F : nat.

Lemma read_field_cut s val s1 k val' st :
  _read_field (_read_value F) s = Return val s1 ->
  _read_field (_read_value F) (trunc k s) = Return val' st ->
  type val' = type val /\ (type val = Stop -> fresh st = fresh s1).
Proof.
  unfold _read_field. intros H H'.
  apply bind_Return in H as ([i t] & sh & Hh & H).
  apply bind_Return in H' as ([i' t'] & sh' & Hh' & H').
  destruct s as [o [|b more] f]; [discriminate Hh|].
  destruct k as [|k]; [discriminate Hh'|].
  unfold trunc in Hh'. cbn [offset unread fresh firstn] in Hh'.
  apply type_and_id_result in Hh as (Ht & Hfr).
  apply type_and_id_result in Hh' as (Ht' & Hfr').
  assert (t' = t) by congruence. subst t'.
  pose proof (read_value_returns _ _ _ _ H) as (_ & _ & Hty & _).
  pose proof (read_value_returns _ _ _ _ H') as (_ & _ & Hty' & _).
  split; [congruence|]. intros Hstop.
  assert (Et : t = Stop) by congruence. clear Hty Hty' Hstop. subst t.
  apply read_value_Stop_inv in H. apply read_value_Stop_inv in H'. congruence.
Qed.

Lemma read_struct_loop_cut fuel :
  forall values s vs s' k,
    read_struct_loop (_read_value F) fuel values s = Return vs s' ->
    (k < offset s' - offset s)%nat ->
    match read_struct_loop (_read_value F) fuel values (trunc k s) with
    | Return vs' st => vs' = vs /\ fresh st = fresh s'
    | Raise e => truncation_error e = true
    | OutOfFuel => True
    end.
Proof.
  induction fuel as [|fuel IH]; intros values s vs s' k H Hk; [discriminate H|].
  destruct (_read_field (_read_value F) s) as [val s1|e|] eqn:Hf.
  2: { rewrite (@read_struct_loop_raise (_read_value F) fuel values s e Hf) in H.
       discriminate H. }
  2: { cbn [read_struct_loop] in H. unfold bind in H. rewrite Hf in H. discriminate H. }
  assert (Hstable : stable starved (_read_field (_read_value F)))
    by (apply stable_read_field; [apply stable_read_value|apply at_end_read_value]).
  destruct (Hstable _ _ _ Hf) as (c1 & Ho1 & _ & _ & Hcut).
  destruct (Hcut k) as [Hin Hout].
  destruct (Nat.le_gt_cases c1 k) as [Hc|Hc].
  - specialize (Hin Hc).
    destruct (BondType_eqb (type val) Stop) eqn:Ht.
    + apply BondType_eqb_eq in Ht.
      rewrite (@read_struct_loop_stop (_read_value F) fuel values s val s1 Hf Ht) in H.
      inversion H; subst. lia.
    + assert (Hne : type val <> Stop).
      { intros E. apply BondType_eqb_eq in E. congruence. }
      rewrite (@read_struct_loop_next (_read_value F) fuel values s val s1 Hf Hne) in H.
      rewrite (@read_struct_loop_next (_read_value F) fuel values _ val _ Hin Hne).
      apply IH; [exact H|lia].
  - specialize (Hout Hc).
    destruct (_read_field (_read_value F) (trunc k s)) as [val' st|e|] eqn:Hf'.
    + cbn [starved] in Hout.
      destruct (read_field_cut _ _ Hf Hf') as (Hty & Hfr).
      destruct (BondType_eqb (type val) Stop) eqn:Ht.
      * apply BondType_eqb_eq in Ht.
        rewrite (@read_struct_loop_stop (_read_value F) fuel values s val s1 Hf Ht) in H.
        inversion H; subst.
        rewrite (@read_struct_loop_stop (_read_value F) fuel _ _ val' st Hf')
          by congruence.
        split; [reflexivity|now apply Hfr].
      * assert (Hne : type val' <> Stop).
        { rewrite Hty. intros E. apply BondType_eqb_eq in E. congruence. }
        rewrite (@read_struct_loop_next (_read_value F) fuel _ _ val' st Hf' Hne).
        pose proof (@at_end_read_struct_loop (_read_value F) fuel
                      (values ++ kept [val']) st Hout) as Hend.
        destruct (read_struct_loop (_read_value F) fuel (values ++ kept [val']) st);
          [contradiction Hend|exact Hend|exact I].
    + rewrite (@read_struct_loop_raise (_read_value F) fuel values _ e Hf').
      exact Hout.
    + cbn [read_struct_loop]. unfold bind. rewrite Hf'. exact I.
Qed.

Lemma base_struct_with_cut s v s' k :
  base_struct_with F s = Return v s' ->
  (k < offset s' - offset s)%nat ->
  match base_struct_with F (trunc k s) with
  | Return v' _ => v' = v
  | Raise e => truncation_error e = true
  | OutOfFuel => True
  end.
Proof.
  unfold base_struct_with, _read_struct. intros H Hk.
  apply bind_Return in H as (l & s1 & H & Hnew).
  apply bind_Return in H as (len & sa & Hlen & Hloop).
  inversion Hnew; subst v s'; clear Hnew. cbn [offset] in Hk.
  destruct (stable_uleb128_decode _ Hlen) as (ca & Hoa & _ & _ & Hcut).
  destruct (Hcut k) as [Hin Hout].
  unfold bind at 1 2.
  destruct (Nat.le_gt_cases ca k) as [Hc|Hc].
  - rewrite (Hin Hc).
    pose proof (@read_struct_loop_cut F [] sa l s1 (k - ca)%nat Hloop) as Hl.
    destruct (read_struct_loop (_read_value F) F [] (trunc (k - ca) sa))
      as [vs' st|e|].
    + destruct Hl as [-> Hfr]; [lia|]. unfold new_BondValue. now rewrite Hfr.
    + apply Hl. lia.
    + exact I.
  - specialize (Hout Hc).
    destruct (_uleb128_decode (trunc k s)) as [x st|e|];
      [contradiction Hout|exact Hout|exact I].
Qed.

End Truncation.

Lemma get_base_struct_cut {codecs : Codecs} s v s' k :
  _get_base_struct s = Return v s' ->
  (k < offset s' - offset s)%nat ->
  same_or_fails v (_get_base_struct (trunc k s)).
Proof.
  intros H Hk. change (_get_base_struct s) with (base_struct_with (enough s) s) in H.
  pose proof (base_struct_with_cut _ _ H Hk) as Hcut.
  assert (Hfuel : base_struct_with (enough s) (trunc k s) <> OutOfFuel).
  { apply safe_base_struct_with. unfold enough, trunc. cbn [unread].
    rewrite length_firstn. lia. }
  assert (Hcanon : _get_base_struct (trunc k s)
                   = base_struct_with (enough s) (trunc k s))
    by (apply base_struct_with_canonical with (fuel := enough s);
        [reflexivity|exact Hfuel]).
  rewrite Hcanon. unfold same_or_fails.
  destruct (base_struct_with (enough s) (trunc k s)); [exact Hcut|exact Hcut|congruence].
Qed.

Lemma sleb128_decode_exhausted (s : State) :
  forallb continues (unread s) = true ->
  _uleb128_decode s = Raise IndexError /\ _sleb128_decode s = Raise IndexError.
Proof.
  intros H. assert (Hu : _uleb128_decode s = Raise IndexError).
  { unfold _uleb128_decode. now rewrite uleb128_loop_exhausted. }
  split; [exact Hu|]. unfold _sleb128_decode, bind. now rewrite Hu.
Qed.

(** C7 (as stated, refuted). A struct closed by a [Stop] header with a
    two-byte id, cut inside that id, decodes without any exception, to
    the node of the whole input; and a struct cut inside a two-byte
    character of a string raises [StringReadError], not the exception of
    a read past the end. *)
Lemma truncated_input_not_always_IndexError :
  (exists v s' st,
      @_get_base_struct CPython.codecs (start [x00; x29; x01; x78; xe0; x05; x00])
      = Return v s'
      /\ offset s' = 7%nat
      /\ @_get_base_struct CPython.codecs
           (start (firstn 5 [x00; x29; x01; x78; xe0; x05; x00]))
         = Return v st)
  /\ (exists v s',
         @_get_base_struct CPython.codecs (start [x00; x29; x02; xc3; xa9; x00])
         = Return v s'
         /\ offset s' = 6%nat
         /\ @_get_base_struct CPython.codecs
              (start (firstn 4 [x00; x29; x02; xc3; xa9; x00]))
            = Raise StringReadError).
Proof.
  split.
  - do 3 eexists. repeat split; reflexivity.
  - do 2 eexists. repeat split; reflexivity.
Qed.

(** C7 (amended). When the input ends before a byte with its high bit
    clear, both varint decoders raise [IndexError]. When the input of
    [_get_base_struct] is cut anywhere before the end of what the
    decoder reads, the outcome is an exception ([IndexError], or
    [struct.error], [StringReadError] or [WStringReadError] where the
    short read is that of a float or of a string) or the very node the
    whole input decodes to; a different node is never returned. *)
Theorem truncated_input_fails_or_same {codecs : Codecs} :
  (forall s,
      forallb continues (unread s) = true ->
      _uleb128_decode s = Raise IndexError /\ _sleb128_decode s = Raise IndexError)
  /\ (forall s v s' k,
         _get_base_struct s = Return v s' ->
         (k < offset s' - offset s)%nat ->
         same_or_fails v (_get_base_struct (trunc k s))).
Proof.
  split.
  - apply sleb128_decode_exhausted.
  - apply get_base_struct_cut.
Qed.

Lemma truncated_input_fails_or_same_witness :
  (forallb continues [xac; x82] = true
   /\ @_get_base_struct CPython.codecs (start [x00; x29; x01; x78; x00])
      = Return (mkBondValue 2 0 Struct (PList [mkBondValue 0 1 String (PStr [120%N])]))
               (mkState 5 [] 3)
   /\ (3 < 5 - 0)%nat)
  /\ (_sleb128_decode (start [xac; x82]) = Raise IndexError
      /\ same_or_fails
           (mkBondValue 2 0 Struct (PList [mkBondValue 0 1 String (PStr [120%N])]))
           (@_get_base_struct CPython.codecs
              (trunc 3 (start [x00; x29; x01; x78; x00])))).
Proof.
  split; [repeat split; lia|]. split.
  - exact (proj2 (proj1 (@truncated_input_fails_or_same CPython.codecs)
                    (start [xac; x82]) eq_refl)).
  - exact (proj2 (@truncated_input_fails_or_same CPython.codecs)
             (start [x00; x29; x01; x78; x00])
             (mkBondValue 2 0 Struct (PList [mkBondValue 0 1 String (PStr [120%N])]))
             (mkState 5 [] 3) 3%nat eq_refl (le_S _ _ (le_n 4))).
Defined.

(** * Further properties *)

(** ** Varints, both ways *)

Lemma zigzag_decode (u : Z) : Z.lxor (Z.shiftr u 1) (- Z.land u 1) = zigzag u.
Proof.
  unfold zigzag. rewrite Z.shiftr_div_pow2 by lia. change (2 ^ 1) with 2.
  change 1 with (Z.ones 1) at 1. rewrite Z.land_ones by lia. change (2 ^ 1) with 2.
  rewrite Zmod_even. destruct (Z.even u).
  - apply Z.lxor_0_r.
  - change (- (1)) with (-1). rewrite Z.lxor_m1_r, Z.lnot_eq_pred_opp. reflexivity.
Qed.

Lemma zigzag_code_nonneg (z : Z) : 0 <= zigzag_code z.
Proof. unfold zigzag_code. destruct (Z.leb_spec 0 z); lia. Qed.

Lemma zigzag_zigzag_code (z : Z) : zigzag (zigzag_code z) = z.
Proof.
  unfold zigzag, zigzag_code. destruct (Z.leb_spec 0 z).
  - rewrite Z.even_mul. cbn [Z.even orb].
    rewrite Z.mul_comm, Z.div_mul by lia. reflexivity.
  - replace (- 2 * z - 1) with (1 + 2 * (- z - 1)) by lia.
    rewrite Z.even_add_mul_2. cbn [Z.even].
    rewrite Z.mul_comm, Z.div_add by lia. change (1 / 2) with 0. lia.
Qed.

Lemma zigzag_code_zigzag (u : Z) : 0 <= u -> zigzag_code (zigzag u) = u.
Proof.
  intros Hu. unfold zigzag, zigzag_code.
  pose proof (Z.div_mod u 2 ltac:(lia)) as Hdiv. rewrite Zmod_even in Hdiv.
  assert (0 <= u / 2) by (apply Z.div_pos; lia).
  destruct (Z.even u).
  - destruct (Z.leb_spec 0 (u / 2)); lia.
  - destruct (Z.leb_spec 0 (- (u / 2) - 1)); lia.
Qed.

(** X1. [_sleb128_decode] reads what [_uleb128_decode] reads and turns
    the unsigned [u] into [u / 2] when [u] is even and into
    [- (u / 2) - 1] when it is odd; every integer is the value of exactly
    one unsigned number. *)
Theorem sleb128_decode_zigzag :
  (forall s,
      _sleb128_decode s
      = match _uleb128_decode s with
        | Return u s' => Return (zigzag u) s'
        | Raise e => Raise e
        | OutOfFuel => OutOfFuel
        end)
  /\ (forall z, 0 <= zigzag_code z /\ zigzag (zigzag_code z) = z)
  /\ (forall u, 0 <= u -> zigzag_code (zigzag u) = u).
Proof.
  split; [|split].
  - intros s. unfold _sleb128_decode, bind.
    destruct (_uleb128_decode s) as [u s'| |]; try reflexivity.
    unfold ret. now rewrite zigzag_decode.
  - intros z. split; [apply zigzag_code_nonneg|apply zigzag_zigzag_code].
  - apply zigzag_code_zigzag.
Qed.

Lemma sleb128_decode_zigzag_witness :
  0 <= 3 /\ zigzag_code (zigzag 3) = 3.
Proof.
  split; [lia|].
  apply (proj2 (proj2 sleb128_decode_zigzag) 3). lia.
Defined.

Lemma byte_val_byte_of (z : Z) : 0 <= z < 256 -> byte_val (byte_of z) = z.
Proof.
  intros Hz. unfold byte_val, byte_of.
  destruct (Byte.of_N (Z.to_N z)) as [b|] eqn:E.
  - apply Byte.to_of_N in E. rewrite E. lia.
  - pose proof (Byte.to_of_N_option_map (Z.to_N z)) as H. rewrite E in H.
    cbn [option_map] in H. destruct (N.leb_spec (Z.to_N z) 255); [discriminate|lia].
Qed.

Lemma land_128_low (z : Z) : 0 <= z < 128 -> Z.land z 128 = 0.
Proof.
  intros Hz. apply Z.bits_inj'. intros n Hn. rewrite Z.land_spec, Z.bits_0.
  destruct (Z.eq_dec n 7) as [-> | Hne].
  - rewrite <- (Z.mod_small z (2 ^ 7)) by (change (2 ^ 7) with 128; lia).
    rewrite Z.mod_pow2_bits_high by lia. reflexivity.
  - change 128 with (2 ^ 7). rewrite Z.pow2_bits_false by lia. apply andb_false_r.
Qed.

Lemma low7_of_group (z : Z) (hi : Z) :
  0 <= z < 128 -> hi = 0 \/ hi = 128 ->
  Z.land (byte_val (byte_of (z + hi))) 0x7F = z
  /\ Z.land (byte_val (byte_of (z + hi))) 0x80 = hi.
Proof.
  intros Hz Hhi. rewrite byte_val_byte_of by lia.
  change 0x7F with (Z.ones 7). rewrite Z.land_ones by lia. change (2 ^ 7) with 128.
  destruct Hhi as [-> | ->].
  - rewrite Z.add_0_r. split; [apply Z.mod_small; lia|now apply land_128_low].
  - split.
    + replace (z + 128) with (z + 1 * 128) by lia. rewrite Z.mod_add by lia.
      apply Z.mod_small. lia.
    + replace (z + 128) with (Z.lor z (Z.shiftl 1 7))
        by (rewrite lor_shiftl_add; change (2 ^ 7) with 128; lia).
      change (Z.shiftl 1 7) with 128. rewrite Z.land_lor_distr_l.
      rewrite land_128_low by assumption. reflexivity.
Qed.

Lemma uleb128_bytes_split (more : nat) :
  forall v, 0 <= v < 128 ^ Z.of_nat (S more) ->
    exists body last,
      uleb128_bytes more v = body ++ [last]
      /\ forallb continues body = true /\ continues last = false
      /\ length body = more /\ base128 (body ++ [last]) = v.
Proof.
  induction more as [|more IH]; intros v Hv.
  - change (128 ^ Z.of_nat 1) with 128 in Hv.
    exists [], (byte_of (v mod 128)). cbn [uleb128_bytes app forallb length base128].
    rewrite Z.mod_small by lia.
    destruct (@low7_of_group v 0) as [H7 H8]; [lia|now left|].
    rewrite Z.add_0_r in H7, H8. unfold continues. rewrite H7, H8.
    repeat split. lia.
  - rewrite Nat2Z.inj_succ, Z.pow_succ_r in Hv by lia.
    pose proof (Z.mod_pos_bound v 128 ltac:(lia)) as Hmod.
    pose proof (Z.div_mod v 128 ltac:(lia)) as Hdiv.
    assert (Hq : 0 <= v / 128 < 128 ^ Z.of_nat (S more)).
    { split; [apply Z.div_pos; lia|apply Z.div_lt_upper_bound; lia]. }
    destruct (IH _ Hq) as (body & last & Hsplit & Hbody & Hlast & Hlen & Hval).
    exists (byte_of (v mod 128 + 128) :: body), last.
    cbn [uleb128_bytes app forallb length base128].
    destruct (@low7_of_group (v mod 128) 128) as [H7 H8]; [lia|now right|].
    unfold continues at 1. rewrite H7, H8, Hsplit, Hbody, Hlast, Hlen, Hval.
    repeat split. lia.
Qed.

Lemma uleb128_decode_of_bytes (more : nat) (v : Z) (rest : list byte) (off fr : nat) :
  0 <= v < 128 ^ Z.of_nat (S more) ->
  _uleb128_decode (mkState off (uleb128_bytes more v ++ rest) fr)
  = Return v (mkState (off + S more) rest fr).
Proof.
  intros Hv.
  destruct (uleb128_bytes_split more Hv) as (body & last & Hsplit & Hbody & Hlast & Hlen & Hval).
  rewrite Hsplit, <- app_assoc. cbn [app].
  rewrite uleb128_decode_exact by assumption. rewrite Hval, Hlen.
  do 2 f_equal. lia.
Qed.

(** X2. Round trip of the unsigned varint: the bytes that write [v] in
    [more + 1] groups of seven bits, low groups first and the high bit
    set on all but the last, decode to [v], whatever follows them. *)
Theorem uleb128_decode_encoded (more : nat) (v : Z) (rest : list byte) (off fr : nat) :
  0 <= v < 128 ^ Z.of_nat (S more) ->
  _uleb128_decode (mkState off (uleb128_bytes more v ++ rest) fr)
  = Return v (mkState (off + S more) rest fr).
Proof. apply uleb128_decode_of_bytes. Qed.

Lemma uleb128_decode_encoded_witness :
  0 <= 300 < 128 ^ Z.of_nat 2
  /\ _uleb128_decode (mkState 0 (uleb128_bytes 1 300 ++ [x55]) 0)
     = Return 300 (mkState (0 + 2) [x55] 0).
Proof.
  split; [split; [lia|reflexivity]|].
  apply (@uleb128_decode_encoded 1 300 [x55] 0 0). split; [lia|reflexivity].
Defined.

(** X3. Round trip of the signed varint: the bytes that write the
    zig-zag code of [z] decode to [z]. *)
Theorem sleb128_decode_encoded (more : nat) (z : Z) (rest : list byte) (off fr : nat) :
  zigzag_code z < 128 ^ Z.of_nat (S more) ->
  _sleb128_decode (mkState off (uleb128_bytes more (zigzag_code z) ++ rest) fr)
  = Return z (mkState (off + S more) rest fr).
Proof.
  intros Hz. unfold _sleb128_decode, bind.
  rewrite uleb128_decode_of_bytes by (split; [apply zigzag_code_nonneg|exact Hz]).
  unfold ret. now rewrite zigzag_decode, zigzag_zigzag_code.
Qed.

Lemma sleb128_decode_encoded_witness :
  zigzag_code (-2) < 128 ^ Z.of_nat 1
  /\ _sleb128_decode (mkState 0 (uleb128_bytes 0 (zigzag_code (-2)) ++ []) 0)
     = Return (-2) (mkState (0 + 1) [] 0).
Proof.
  split; [reflexivity|].
  exact (@sleb128_decode_encoded 0 (-2) [] 0 0 eq_refl).
Defined.

Lemma uleb128_loop_raises (bs : list byte) :
  forall result shift off e,
    uleb128_loop bs result shift off = Raises e ->
    e = IndexError /\ forallb continues bs = true.
Proof.
  induction bs as [|b bs IH]; intros result shift off e H.
  - inversion H. now split.
  - cbn [uleb128_loop] in H. cbn [forallb]. unfold continues at 1.
    destruct (Z.land (byte_val b) 128 =? 0); [discriminate H|].
    apply IH in H as [-> Hall]. now rewrite Hall.
Qed.

Lemma uleb128_decode_raises (s : State) (e : Exception) :
  _uleb128_decode s = Raise e -> e = IndexError /\ forallb continues (unread s) = true.
Proof.
  unfold _uleb128_decode. intros H.
  destruct (uleb128_loop (unread s) 0 0 0) as [[[r n] more]|e'] eqn:Hloop;
    [discriminate H|].
  inversion H; subst. now apply uleb128_loop_raises in Hloop.
Qed.

(** X4. [_uleb128_decode] stops at the first unread byte whose high bit
    is clear: it reads the bytes up to and including that one, returns a
    number below [128 ^ n] for the [n] bytes read, and leaves the object
    counter alone. Its only exception is [IndexError], raised exactly
    when every unread byte has its high bit set. *)
Theorem uleb128_decode_reads_to_terminator (s : State) :
  (forall v s',
      _uleb128_decode s = Return v s' ->
      exists body last,
        unread s = body ++ last :: unread s'
        /\ forallb continues body = true /\ continues last = false
        /\ offset s' = (offset s + length body + 1)%nat /\ fresh s' = fresh s
        /\ 0 <= v < 128 ^ Z.of_nat (length body + 1))
  /\ (forall e, _uleb128_decode s = Raise e <->
                e = IndexError /\ forallb continues (unread s) = true)
  /\ _uleb128_decode s <> OutOfFuel.
Proof.
  split; [|split].
  - intros v s' H.
    destruct (uleb128_decode_inv _ H) as (body & last & Hu & Hb & Hl & Ho & Hf & Hv).
    exists body, last. repeat split; try assumption.
    + rewrite Hv. apply base128_nonneg.
    + rewrite Hv. pose proof (base128_bound (body ++ [last])) as Hlt.
      rewrite length_app in Hlt. exact Hlt.
  - intros e. split.
    + apply uleb128_decode_raises.
    + intros [-> Hall]. unfold _uleb128_decode.
      now rewrite uleb128_loop_exhausted.
  - apply total_uleb128_decode.
Qed.

Lemma uleb128_decode_reads_to_terminator_witness :
  _uleb128_decode (start [xac; x02; x55]) = Return 300 (mkState 2 [x55] 0)
  /\ exists body last,
      unread (start [xac; x02; x55]) = body ++ last :: unread (mkState 2 [x55] 0)
      /\ forallb continues body = true /\ continues last = false
      /\ offset (mkState 2 [x55] 0) = (offset (start [xac; x02; x55]) + length body + 1)%nat
      /\ fresh (mkState 2 [x55] 0) = fresh (start [xac; x02; x55])
      /\ 0 <= 300 < 128 ^ Z.of_nat (length body + 1).
Proof.
  split; [reflexivity|].
  exact (proj1 (uleb128_decode_reads_to_terminator (start [xac; x02; x55]))
           300 (mkState 2 [x55] 0) eq_refl).
Defined.

(** ** Navigation, the rest *)

Lemma find_id_Some (i : Z) (elements : list BondValue) (e : BondValue) :
  find_id i elements = Some e <->
  exists before after,
    elements = before ++ e :: after /\ id e = i /\ Forall (fun x => id x <> i) before.
Proof.
  induction elements as [|x more IH]; cbn [find_id].
  - split; [discriminate|]. intros (before & after & H & _). now destruct before.
  - destruct (Z.eqb_spec (id x) i) as [E|E].
    + split.
      * intros H. inversion H; subst. exists [], more. repeat split. constructor.
      * intros (before & after & H & Hid & Hall).
        destruct before as [|y before]; cbn [app] in H; inversion H; subst.
        -- reflexivity.
        -- inversion Hall; subst. contradiction.
    + rewrite IH. split.
      * intros (before & after & -> & Hid & Hall).
        exists (x :: before), after. repeat split; try assumption. now constructor.
      * intros (before & after & H & Hid & Hall).
        destruct before as [|y before]; cbn [app] in H; inversion H; subst.
        -- contradiction.
        -- inversion Hall; subst. now exists before, after.
Qed.

Lemma find_id_None (i : Z) (elements : list BondValue) :
  find_id i elements = None <-> Forall (fun x => id x <> i) elements.
Proof.
  induction elements as [|x more IH]; cbn [find_id].
  - split; [constructor|reflexivity].
  - destruct (Z.eqb_spec (id x) i) as [E|E].
    + split; [discriminate|]. intros H. inversion H; subst. contradiction.
    + rewrite IH. split; [now constructor|]. intros H. now inversion H.
Qed.

(** X5. [get_by_id] returns the first of the node's elements that has
    the id, and [None] exactly when no element has it. *)
Theorem get_by_id_first (self : BondValue) (i : Z) :
  (forall e,
      get_by_id self i = Some e <->
      exists before after,
        get_elements self = before ++ e :: after /\ id e = i
        /\ Forall (fun x => id x <> i) before)
  /\ (get_by_id self i = None <-> Forall (fun x => id x <> i) (get_elements self)).
Proof.
  unfold get_by_id. split; [intros e; apply find_id_Some|apply find_id_None].
Qed.

Lemma get_by_id_first_witness :
  get_by_id root_1_2 1 = Some child_1
  /\ exists before after,
      get_elements root_1_2 = before ++ child_1 :: after /\ id child_1 = 1
      /\ Forall (fun x => id x <> 1) before.
Proof.
  split; [reflexivity|].
  exact (proj1 (proj1 (get_by_id_first root_1_2 1) child_1) eq_refl).
Defined.

Lemma nth_error_in_range {A} (l : list A) (n : nat) :
  (n < length l)%nat -> exists x, nth_error l n = Some x.
Proof.
  intros H. destruct (nth_error l n) as [x|] eqn:E; [now exists x|].
  apply nth_error_None in E. lia.
Qed.

(** X6. [get_value] checks the upper bound only: an index from 0 below
    the number of elements gives that element, an index at or above it
    raises [ValueOutOfRangeError]; a negative index is not refused, it
    counts from the end as list indexing does, and below minus the
    number of elements it is the list's [IndexError] that is raised. *)
Theorem get_value_by_index (self : BondValue) (index : Z) :
  let n := Z.of_nat (length (get_elements self)) in
  (0 <= index < n ->
   exists e, nth_error (get_elements self) (Z.to_nat index) = Some e
             /\ get_value self index = Returns e)
  /\ (n <= index -> get_value self index = Raises ValueOutOfRangeError)
  /\ (- n <= index < 0 ->
      exists e, nth_error (get_elements self) (Z.to_nat (n + index)) = Some e
                /\ get_value self index = Returns e)
  /\ (index < - n -> get_value self index = Raises IndexError).
Proof.
  cbv zeta. unfold get_value, py_item.
  set (elements := get_elements self). set (n := Z.of_nat (length elements)).
  repeat split.
  - intros H. destruct (@nth_error_in_range _ elements (Z.to_nat index)) as [e He];
      [lia|].
    exists e. split; [exact He|].
    replace (index <? n) with true by (symmetry; apply Z.ltb_lt; lia).
    replace (0 <=? index) with true by (symmetry; apply Z.leb_le; lia).
    cbn [andb]. now rewrite He.
  - intros H. replace (index <? n) with false by (symmetry; apply Z.ltb_ge; lia).
    reflexivity.
  - intros H.
    destruct (@nth_error_in_range _ elements (Z.to_nat (n + index))) as [e He]; [lia|].
    exists e. split; [exact He|].
    replace (index <? n) with true by (symmetry; apply Z.ltb_lt; lia).
    replace (0 <=? index) with false by (symmetry; apply Z.leb_gt; lia).
    replace (- n <=? index) with true by (symmetry; apply Z.leb_le; lia).
    replace (index <? 0) with true by (symmetry; apply Z.ltb_lt; lia).
    cbn [andb]. now rewrite He.
  - intros H. assert (0 <= n) by (unfold n; lia).
    replace (index <? n) with true by (symmetry; apply Z.ltb_lt; lia).
    replace (0 <=? index) with false by (symmetry; apply Z.leb_gt; lia).
    replace (- n <=? index) with false by (symmetry; apply Z.leb_gt; lia).
    reflexivity.
Qed.

Lemma get_value_by_index_witness :
  (- Z.of_nat (length (get_elements root_1_2)) <= -1 < 0)
  /\ exists e,
      nth_error (get_elements root_1_2)
                (Z.to_nat (Z.of_nat (length (get_elements root_1_2)) + -1)) = Some e
      /\ get_value root_1_2 (-1) = Returns e.
Proof.
  split; [cbn; lia|].
  apply (proj1 (proj2 (proj2 (get_value_by_index root_1_2 (-1))))). cbn. lia.
Defined.

Lemma find_id_In (i : Z) (elements : list BondValue) (e : BondValue) :
  find_id i elements = Some e -> In e elements.
Proof.
  intros H. apply find_id_Some in H as (before & after & -> & _).
  apply in_elt.
Qed.

Lemma follow_ones_inside : forall self, inside self (follow_ones self).
Proof.
  fix IH 1. intros [o n t p]. cbn [follow_ones].
  destruct (BondType_eqb t List || BondType_eqb t Set_ || BondType_eqb t Struct) eqn:Ht;
    [|constructor].
  destruct p; try constructor.
  assert (Hel : forall c, In c l -> In c (get_elements (mkBondValue o n t (PList l)))).
  { intros c Hc. unfold get_elements. cbn [type value]. now rewrite Ht. }
  revert Hel. generalize (mkBondValue o n t (PList l)) as self.
  induction l as [|e more IHl]; intros self Hel; [constructor|].
  destruct (id e =? 1).
  - apply inside_child with e; [apply Hel; now left|apply IH].
  - apply IHl. intros c Hc. apply Hel. now right.
Qed.

Lemma py_item_nil {A} (index : Z) : @py_item A [] index = None.
Proof.
  unfold py_item.
  repeat match goal with
         | |- context [if ?c then _ else _] => destruct c
         end; try reflexivity; apply nth_error_nil.
Qed.

(** X7. [traverse] given at least one id never raises, and what it
    returns is the node itself or a node below it. Given no id at all it
    returns the node when the node has no elements, and raises
    [IndexError] as soon as there is an element to compare. *)
Theorem traverse_stays_inside (self : BondValue) :
  (forall i ids, exists x, traverse self (i :: ids) 0 = Returns x /\ inside self x)
  /\ (forall index,
         traverse self [] index
         = match get_elements self with
           | [] => Returns self
           | _ :: _ => Raises IndexError
           end).
Proof.
  split.
  - intros i ids. destruct ids as [|j ids].
    + rewrite traverse_one_id. eexists. split; [reflexivity|].
      cbn [walk]. destruct (get_by_id self i) as [e|] eqn:E; [|constructor].
      apply inside_child with e; [now apply find_id_In with i|constructor].
    + rewrite traverse_many_ids by discriminate. eexists. split; [reflexivity|].
      destruct (get_by_id self i) as [e|] eqn:E; [|constructor].
      apply inside_child with e; [now apply find_id_In with i|apply follow_ones_inside].
  - intros index. destruct self as [o n t p]. unfold get_elements.
    cbn [traverse type value].
    destruct (BondType_eqb t List || BondType_eqb t Set_ || BondType_eqb t Struct);
      [|reflexivity].
    destruct p; try reflexivity.
    destruct l as [|e more]; [reflexivity|]. now rewrite py_item_nil.
Qed.

(** ** Tags that are no type *)

Lemma low5_range (b : byte) : 0 <= Z.land (byte_val b) 0x1F < 32.
Proof.
  change 0x1F with (Z.ones 5). rewrite Z.land_ones by lia.
  apply Z.mod_pos_bound. reflexivity.
Qed.

Lemma BondType_of_int_None (n : Z) :
  0 <= n < 32 -> (BondType_of_int n = None <-> 18 < n).
Proof.
  intros Hn. destruct n as [|p|p]; [split; [discriminate|lia]| |lia].
  do 5 (try destruct p as [p|p|]); try lia; cbn [BondType_of_int];
    (split; [first [discriminate | lia] | first [reflexivity | lia]]).
Qed.

Lemma tag_not_Unavailable (b : byte) (t : BondType) :
  BondType_of_int (Z.land (byte_val b) 0x1F) = Some t -> t <> Unavailable.
Proof.
  intros H ->. apply BondType_of_int_code in H. pose proof (low5_range b).
  cbn [BondType_code] in H. lia.
Qed.

(** X8. A tag byte whose low 5 bits are 19 to 31 is no [BondType]:
    [_type_and_id], [_get_type_count] and [_read_map] raise [ValueError]
    on it, before any id, count or entry is read, and they raise
    [ValueError] on no other byte; a type that comes from a tag is never
    [Unavailable]. *)
Theorem unknown_tag_ValueError (rv : Z -> BondType -> M BondValue)
        (b : byte) (more : list byte) (off fr : nat) :
  (_type_and_id (mkState off (b :: more) fr) = Raise ValueError
   <-> 18 < Z.land (byte_val b) 0x1F)
  /\ (_get_type_count (mkState off (b :: more) fr) = Raise ValueError
      <-> 18 < Z.land (byte_val b) 0x1F)
  /\ (18 < Z.land (byte_val b) 0x1F ->
      _read_map rv (mkState off (b :: more) fr) = Raise ValueError
      /\ forall k, _read_map rv (mkState off (k :: b :: more) fr) = Raise ValueError)
  /\ (forall t, BondType_of_int (Z.land (byte_val b) 0x1F) = Some t -> t <> Unavailable).
Proof.
  pose proof (BondType_of_int_None (low5_range b)) as Hnone.
  split; [|split; [|split]].
  - destruct (BondType_of_int (Z.land (byte_val b) 0x1F)) as [t|] eqn:Et.
    + rewrite (type_and_id_cons b more off fr Et). split.
      * destruct (Z.shiftr (byte_val b) 5 =? 6); [|destruct (Z.shiftr (byte_val b) 5 =? 7)];
          try discriminate.
        unfold bind. destruct more as [|x more]; [discriminate|].
        rewrite read_byte_cons. discriminate.
      * intros H. apply Hnone in H. discriminate H.
    + split; [intros _; now apply Hnone|intros _].
      unfold _type_and_id. unfold bind at 1. rewrite read_byte_cons.
      unfold bind, to_BondType. now rewrite Et.
  - destruct (BondType_of_int (Z.land (byte_val b) 0x1F)) as [t|] eqn:Et.
    + rewrite (get_type_count_cons b more off fr Et). split.
      * destruct (Z.shiftr (byte_val b) 5 =? 0); [|discriminate].
        unfold bind. intros H.
        destruct (_uleb128_decode (mkState (off + 1) more fr)) as [v s'|e|] eqn:Hu;
          try discriminate.
        inversion H; subst.
        apply uleb128_decode_raises in Hu as [Hu _]. discriminate Hu.
      * intros H. apply Hnone in H. discriminate H.
    + split; [intros _; now apply Hnone|intros _].
      unfold _get_type_count. unfold bind at 1. rewrite read_byte_cons.
      unfold bind, to_BondType. now rewrite Et.
  - intros H. apply Hnone in H. split.
    + unfold _read_map. unfold bind at 1. rewrite read_byte_cons.
      unfold bind, to_BondType. now rewrite H.
    + intros k. rewrite read_map_cons, H.
      destruct (BondType_of_int (Z.land (byte_val k) 31)); reflexivity.
  - intros t. apply tag_not_Unavailable.
Qed.

Lemma unknown_tag_ValueError_witness :
  18 < Z.land (byte_val x13) 0x1F
  /\ _read_map (@_read_value CPython.codecs 1) (mkState 0 [x13; x03; x00] 0)
     = Raise ValueError
  /\ forall k, _read_map (@_read_value CPython.codecs 1) (mkState 0 [k; x13; x03; x00] 0)
               = Raise ValueError.
Proof.
  split; [reflexivity|].
  apply (proj1 (proj2 (proj2
           (@unknown_tag_ValueError (@_read_value CPython.codecs 1) x13 [x03; x00] 0 0)))).
  reflexivity.
Defined.

(** ** Scalars of fixed width *)

(** X9. The scalars of fixed width read exactly their bytes: one for
    [Uint8], [Int8] and [Bool], four for [Float], eight for [Double].
    [Uint8] is the byte, [Int8] the byte read as two's complement, in
    -128..127, [Bool] is true unless the byte is 0. When the bytes are
    not all there, [Uint8] and [Bool] raise [IndexError], and [Int8],
    [Float] and [Double], which go through [struct.unpack], raise
    [struct.error]. *)
Theorem read_value_fixed_width {codecs : Codecs} (fuel : nat) (i : Z) (s : State) :
  (forall b more,
      unread s = b :: more ->
      let s' := mkState (offset s + 1) more (S (fresh s)) in
      _read_value (S fuel) i Uint8 s
      = Return (mkBondValue (fresh s) i Uint8 (PInt (byte_val b))) s'
      /\ (exists n,
             _read_value (S fuel) i Int8 s
             = Return (mkBondValue (fresh s) i Int8 (PInt n)) s'
             /\ -128 <= n <= 127 /\ (n - byte_val b) mod 256 = 0)
      /\ _read_value (S fuel) i Bool s
         = Return (mkBondValue (fresh s) i Bool (PBool (negb (byte_val b =? 0)))) s')
  /\ (unread s = [] ->
      _read_value (S fuel) i Uint8 s = Raise IndexError
      /\ _read_value (S fuel) i Bool s = Raise IndexError
      /\ _read_value (S fuel) i Int8 s = Raise StructError)
  /\ (forall t width,
         (t = Float /\ width = 4%nat) \/ (t = Double /\ width = 8%nat) ->
         _read_value (S fuel) i t s
         = if (width <=? length (unread s))%nat
           then Return (mkBondValue (fresh s) i t (PFloat (firstn width (unread s))))
                       (mkState (offset s + width) (skipn width (unread s)) (S (fresh s)))
           else Raise StructError).
Proof.
  destruct s as [off u fr]. cbn [unread offset fresh]. split; [|split].
  - intros b more ->. cbv zeta. split; [reflexivity|]. split; [|reflexivity].
    pose proof (byte_val_range b) as Hb.
    exists (if byte_val b <? 128 then byte_val b else byte_val b - 256).
    split; [reflexivity|].
    destruct (Z.ltb_spec (byte_val b) 128).
    + split; [lia|]. now rewrite Z.sub_diag.
    + split; [lia|]. replace (byte_val b - 256 - byte_val b) with (-1 * 256) by lia.
      apply Z.mod_mul. lia.
  - intros ->. repeat split.
  - intros t width [[-> ->] | [-> ->]].
    + cbn [_read_value]. unfold read_value_body, bind, new_BondValue, read, unpack_float.
      change (Z.of_nat 4 <=? PY_SSIZE_T_MAX) with true.
      cbn [unread offset fresh]. rewrite length_firstn.
      destruct (Nat.leb_spec 4 (length u)).
      * rewrite Nat.min_l by assumption. reflexivity.
      * replace (Nat.min 4 (length u) =? 4)%nat with false
          by (symmetry; apply Nat.eqb_neq; lia).
        reflexivity.
    + cbn [_read_value]. unfold read_value_body, bind, new_BondValue, read, unpack_float.
      change (Z.of_nat 8 <=? PY_SSIZE_T_MAX) with true.
      cbn [unread offset fresh]. rewrite length_firstn.
      destruct (Nat.leb_spec 8 (length u)).
      * rewrite Nat.min_l by assumption. reflexivity.
      * replace (Nat.min 8 (length u) =? 8)%nat with false
          by (symmetry; apply Nat.eqb_neq; lia).
        reflexivity.
Qed.

Lemma read_value_fixed_width_witness :
  unread (mkState 0 [xff; x01] 0) = xff :: [x01]
  /\ exists n,
      @_read_value CPython.codecs 1 7 Int8 (mkState 0 [xff; x01] 0)
      = Return (mkBondValue 0 7 Int8 (PInt n)) (mkState (0 + 1) [x01] 1)
      /\ -128 <= n <= 127 /\ (n - byte_val xff) mod 256 = 0.
Proof.
  split; [reflexivity|].
  exact (proj1 (proj2 (proj1 (@read_value_fixed_width CPython.codecs 0 7
                                (mkState 0 [xff; x01] 0)) xff [x01] eq_refl))).
Defined.

(** ** Strings *)

(** X10. A [String] is its length varint and then as many bytes, a
    [Wstring] twice as many: when the bytes are there, the reader ends
    right behind them with their text, or with [StringReadError] or
    [WStringReadError] when they do not decode. A number of bytes that
    is no [Py_ssize_t] is refused by [data.read] with [OverflowError],
    which the reader does not catch. *)
Theorem read_string_span {codecs : Codecs} (s : State) (n : Z) (s1 : State) :
  _uleb128_decode s = Return n s1 ->
  (n <= Z.of_nat (length (unread s1)) -> n <= PY_SSIZE_T_MAX ->
   _read_string s
   = match decode_utf8 (firstn (Z.to_nat n) (unread s1)) with
     | Some text =>
         Return text (mkState (offset s1 + Z.to_nat n)
                              (skipn (Z.to_nat n) (unread s1)) (fresh s1))
     | None => Raise StringReadError
     end)
  /\ (n * 2 <= Z.of_nat (length (unread s1)) -> n * 2 <= PY_SSIZE_T_MAX ->
      _read_wstring s
      = match decode_utf16 (firstn (Z.to_nat (n * 2)) (unread s1)) with
        | Some text =>
            Return text (mkState (offset s1 + Z.to_nat (n * 2))
                                 (skipn (Z.to_nat (n * 2)) (unread s1)) (fresh s1))
        | None => Raise WStringReadError
        end)
  /\ (PY_SSIZE_T_MAX < n -> _read_string s = Raise OverflowError)
  /\ (PY_SSIZE_T_MAX < n * 2 -> _read_wstring s = Raise OverflowError).
Proof.
  intros Hn. pose proof (uleb128_decode_nonneg _ Hn) as Hpos.
  split; [|split; [|split]].
  - intros Hin Hle. unfold _read_string. unfold bind at 1. rewrite Hn.
    unfold bind. rewrite read_in_range by lia.
    rewrite length_firstn, Nat.min_l by lia.
    now destruct (decode_utf8 (firstn (Z.to_nat n) (unread s1))).
  - intros Hin Hle. unfold _read_wstring. unfold bind at 1. rewrite Hn.
    unfold bind. rewrite read_in_range by lia.
    rewrite length_firstn, Nat.min_l by lia.
    now destruct (decode_utf16 (firstn (Z.to_nat (n * 2)) (unread s1))).
  - intros Hgt. unfold _read_string. unfold bind at 1. rewrite Hn.
    unfold bind. now rewrite read_too_large by lia.
  - intros Hgt. unfold _read_wstring. unfold bind at 1. rewrite Hn.
    unfold bind. now rewrite read_too_large by lia.
Qed.

Lemma read_string_span_witness :
  (_uleb128_decode (mkState 0 [x02; x41; x42; x55] 0) = Return 2 (mkState 1 [x41; x42; x55] 0)
   /\ 2 <= Z.of_nat (length [x41; x42; x55]) /\ 2 <= PY_SSIZE_T_MAX)
  /\ @_read_string CPython.codecs (mkState 0 [x02; x41; x42; x55] 0)
     = Return [65%N; 66%N] (mkState (1 + 2) [x55] 0).
Proof.
  assert (Hin : 2 <= Z.of_nat (length [x41; x42; x55])) by discriminate.
  assert (Hle : 2 <= PY_SSIZE_T_MAX) by discriminate.
  split; [repeat split; assumption|].
  exact (proj1 (@read_string_span CPython.codecs (mkState 0 [x02; x41; x42; x55] 0)
                  2 (mkState 1 [x41; x42; x55] 0) eq_refl) Hin Hle).
Defined.



(** ** Sizes the stream does not take *)





(** ** The position in the stream *)

Lemma at_offset_same (o : nat) (s : State) : at_offset (o + 0) s = at_offset o s.
Proof. now rewrite Nat.add_0_r. Qed.

Lemma relocatable_ret {A} (a : A) : relocatable (ret a).
Proof.
  intros s. split; [|discriminate].
  intros x s' H. inversion H; subst. exists 0%nat. split; [lia|].
  intros o _. unfold ret. now rewrite at_offset_same.
Qed.

Lemma relocatable_raise {A} (e : Exception) : relocatable (@raise A e).
Proof. intros s. split; [discriminate|]. intros e' H _ o _. exact H. Qed.

Lemma relocatable_to_BondType (n : Z) : relocatable (to_BondType n).
Proof.
  unfold to_BondType.
  destruct (BondType_of_int n); [apply relocatable_ret|apply relocatable_raise].
Qed.

Lemma relocatable_new_BondValue i t p : relocatable (new_BondValue i t p).
Proof.
  intros s. split; [|discriminate].
  intros x s' H. inversion H; subst. exists 0%nat. cbn [offset]. split; [lia|].
  intros o _. unfold new_BondValue, at_offset. cbn [offset unread fresh].
  now rewrite Nat.add_0_r.
Qed.

(** [data.read] checks the size, not the position. *)
Lemma relocatable_read (n : nat) : relocatable (read n).
Proof.
  intros s. split.
  - intros bs s' H. apply read_Return in H as (Hle & -> & ->).
    exists (length (firstn n (unread s))). cbn [offset]. split; [reflexivity|].
    intros o _. now rewrite read_in_range by exact Hle.
  - intros e H Hne. apply read_Raise in H as [-> _]. now contradiction Hne.
Qed.

(** [data.seek] checks the position it moves to. *)
Lemma relocatable_seek_cur (n : nat) : relocatable (seek_cur n).
Proof.
  intros s. split.
  - intros [] s' H. apply seek_cur_Return in H as [Hle ->].
    exists n. cbn [offset]. split; [reflexivity|].
    intros o Ho. rewrite seek_cur_in_range by (cbn [at_offset offset]; lia).
    reflexivity.
  - intros e H Hne. apply seek_cur_Raise in H as [-> _]. now contradiction Hne.
Qed.

Lemma relocatable_uleb128_decode : relocatable _uleb128_decode.
Proof.
  intros s. unfold _uleb128_decode, at_offset. cbn [offset unread fresh].
  destruct (uleb128_loop (unread s) 0 0 0) as [[[r n] more]|e]; split;
    try discriminate.
  - intros a s' H. inversion H; subst. exists n. cbn [offset]. split; [reflexivity|].
    intros o _. reflexivity.
  - intros e' H _ o _. exact H.
Qed.

Lemma relocatable_bind {A B} (m : M A) (f : A -> M B) :
  relocatable m -> (forall a, relocatable (f a)) -> relocatable (bind m f).
Proof.
  intros Hm Hf s. destruct (Hm s) as [Hret Hraise]. split.
  - intros b s2 H. apply bind_Return in H as (a & s1 & E1 & E2).
    destruct (Hret _ _ E1) as (c1 & Ho1 & R1).
    destruct (proj1 (Hf a s1) _ _ E2) as (c2 & Ho2 & R2).
    exists (c1 + c2)%nat. split; [lia|]. intros o Ho.
    unfold bind. rewrite R1 by lia.
    change (f a (at_offset (o + c1) s1)
            = Return b (at_offset (o + (c1 + c2)) s2)).
    rewrite Nat.add_assoc. apply R2. lia.
  - intros e H Hne o Ho. unfold bind in H |- *.
    destruct (m s) as [a s1|e1|] eqn:E1; [| |discriminate H].
    + destruct (Hret _ _ eq_refl) as (c1 & Ho1 & R1).
      rewrite R1 by lia.
      apply (proj2 (Hf a s1) e H Hne). lia.
    + inversion H; subst. now rewrite (Hraise e eq_refl Hne o Ho).
Qed.

Ltac relocate_step :=
  match goal with
  | |- forall _, _ => intros ?
  | |- relocatable (bind _ _) => apply relocatable_bind
  | |- relocatable (ret _) => apply relocatable_ret
  | |- relocatable (raise _) => apply relocatable_raise
  | |- relocatable (to_BondType _) => apply relocatable_to_BondType
  | |- relocatable (new_BondValue _ _ _) => apply relocatable_new_BondValue
  | |- relocatable (read _) => apply relocatable_read
  | |- relocatable (seek_cur _) => apply relocatable_seek_cur
  | |- relocatable _uleb128_decode => apply relocatable_uleb128_decode
  | |- relocatable (match ?x with _ => _ end) => destruct x
  | |- relocatable (if ?x then _ else _) => destruct x
  | |- relocatable _ => solve [auto]
  end.

Ltac relocate_auto := repeat relocate_step.

Lemma relocatable_read_byte : relocatable read_byte.
Proof. unfold read_byte. relocate_auto. Qed.

Lemma relocatable_sleb128_decode : relocatable _sleb128_decode.
Proof. unfold _sleb128_decode. relocate_auto. Qed.

Lemma relocatable_type_and_id : relocatable _type_and_id.
Proof. unfold _type_and_id, read_byte. relocate_auto. Qed.

Lemma relocatable_get_type_count : relocatable _get_type_count.
Proof. unfold _get_type_count, read_byte. relocate_auto. Qed.

Section Relocate.

Context {codecs : Codecs}.
Variable rv : Z -> BondType -> M BondValue.
Hypothesis relocatable_rv : forall i t, relocatable (rv i t).

Lemma relocatable_read_list_loop count t values :
  relocatable (read_list_loop rv count t values).
Proof.
  revert values. induction count as [|count IH]; intros values; cbn [read_list_loop];
    relocate_auto.
Qed.

Lemma relocatable_read_list t : relocatable (_read_list rv t).
Proof.
  unfold _read_list, _read_blobs. pose proof relocatable_get_type_count.
  pose proof relocatable_read_list_loop. relocate_auto.
Qed.

Lemma relocatable_read_map_loop count kt vt values :
  relocatable (read_map_loop rv count kt vt values).
Proof.
  revert values. induction count as [|count IH]; intros values; cbn [read_map_loop];
    relocate_auto.
Qed.

Lemma relocatable_read_map : relocatable (_read_map rv).
Proof.
  unfold _read_map, read_byte. pose proof relocatable_read_map_loop. relocate_auto.
Qed.

Lemma relocatable_read_field : relocatable (_read_field rv).
Proof. unfold _read_field. pose proof relocatable_type_and_id. relocate_auto. Qed.

Lemma relocatable_read_struct_loop fuel values :
  relocatable (read_struct_loop rv fuel values).
Proof.
  revert values. induction fuel as [|fuel IH]; intros values; cbn [read_struct_loop].
  - intros s. split; discriminate.
  - pose proof relocatable_read_field. relocate_auto.
Qed.

Lemma relocatable_read_struct fuel : relocatable (_read_struct rv fuel).
Proof. unfold _read_struct. pose proof relocatable_read_struct_loop. relocate_auto. Qed.

Lemma relocatable_read_value_body fuel i t : relocatable (read_value_body rv fuel i t).
Proof.
  unfold read_value_body, _read_string, _read_wstring, read_byte, unpack_b, unpack_float.
  pose proof relocatable_read_struct. pose proof relocatable_read_list.
  pose proof relocatable_read_map. pose proof relocatable_sleb128_decode.
  destruct t; relocate_auto.
Qed.

End Relocate.

Lemma relocatable_read_value {codecs : Codecs} (fuel : nat) :
  forall i t, relocatable (_read_value fuel i t).
Proof.
  induction fuel as [|fuel IH]; intros i t; cbn [_read_value].
  - intros s. split; discriminate.
  - now apply relocatable_read_value_body.
Qed.

Lemma relocatable_struct_fields {codecs : Codecs} (fuel : nat) :
  relocatable (l <- read_struct_loop (_read_value fuel) fuel [] ;;
               new_BondValue 0 Struct (PList l)).
Proof.
  apply relocatable_bind.
  - apply relocatable_read_struct_loop, relocatable_read_value.
  - intros l. apply relocatable_new_BondValue.
Qed.

Lemma relocatable_base_struct_with {codecs : Codecs} (fuel : nat) :
  relocatable (base_struct_with fuel).
Proof.
  unfold base_struct_with. apply relocatable_bind.
  - apply relocatable_read_struct, relocatable_read_value.
  - intros l. apply relocatable_new_BondValue.
Qed.

Lemma get_base_struct_as_fuel {codecs : Codecs} (fuel : nat) (s : State) :
  (enough s <= fuel)%nat -> _get_base_struct s = base_struct_with fuel s.
Proof.
  intros Hle. apply base_struct_with_canonical with (fuel := fuel); [reflexivity|].
  apply safe_base_struct_with. unfold enough in Hle. lia.
Qed.

(** X11. Decoding looks at the position in the stream only where
    [data.seek] keeps it in range. When [_read_value] or
    [_get_base_struct] returns a node after moving on by [c], it returns
    the same node, and moves on by [c], on the same unread bytes at any
    position nearer to the start of the stream and at any position from
    which moving on by [c] stays in range. An exception other than
    [OverflowError] is raised from every position nearer to the start
    as well. *)
Theorem decoding_ignores_position {codecs : Codecs} (s : State) :
  (forall fuel i t v s',
      _read_value fuel i t s = Return v s' ->
      exists c : nat,
        offset s' = (offset s + c)%nat
        /\ forall o : nat,
             (o <= offset s)%nat \/ Z.of_nat (o + c) <= PY_SSIZE_T_MAX ->
             _read_value fuel i t (at_offset o s) = Return v (at_offset (o + c) s'))
  /\ (forall v s',
         _get_base_struct s = Return v s' ->
         exists c : nat,
           offset s' = (offset s + c)%nat
           /\ forall o : nat,
                (o <= offset s)%nat \/ Z.of_nat (o + c) <= PY_SSIZE_T_MAX ->
                _get_base_struct (at_offset o s) = Return v (at_offset (o + c) s'))
  /\ (forall e o,
         _get_base_struct s = Raise e -> e <> OverflowError -> (o <= offset s)%nat ->
         _get_base_struct (at_offset o s) = Raise e).
Proof.
  split; [|split].
  - intros fuel i t. apply relocatable_read_value.
  - intros v s' H.
    change (_get_base_struct s) with (base_struct_with (enough s) s) in H.
    destruct (proj1 (relocatable_base_struct_with (enough s) s) _ _ H) as (c & Ho & R).
    exists c. split; [exact Ho|]. intros o Hin.
    change (_get_base_struct (at_offset o s))
      with (base_struct_with (enough s) (at_offset o s)).
    now apply R.
  - intros e o H Hne Ho.
    change (_get_base_struct s) with (base_struct_with (enough s) s) in H.
    change (_get_base_struct (at_offset o s))
      with (base_struct_with (enough s) (at_offset o s)).
    now apply (proj2 (relocatable_base_struct_with (enough s) s)).
Qed.

Lemma decoding_ignores_position_witness :
  @_get_base_struct CPython.codecs (mkState 0 [x00; x2b; x63; x01; x02; x00] 0)
  = Return (mkBondValue 2 0 Struct (PList [mkBondValue 0 1 List (PList [])]))
           (mkState 6 [] 3)
  /\ exists c : nat,
      offset (mkState 6 [] 3) = (offset (mkState 0 [x00; x2b; x63; x01; x02; x00] 0) + c)%nat
      /\ forall o : nat,
           (o <= offset (mkState 0 [x00; x2b; x63; x01; x02; x00] 0))%nat
           \/ Z.of_nat (o + c) <= PY_SSIZE_T_MAX ->
           @_get_base_struct CPython.codecs
             (at_offset o (mkState 0 [x00; x2b; x63; x01; x02; x00] 0))
           = Return (mkBondValue 2 0 Struct (PList [mkBondValue 0 1 List (PList [])]))
                    (at_offset (o + c) (mkState 6 [] 3)).
Proof.
  split; [reflexivity|].
  exact (proj1 (proj2 (@decoding_ignores_position CPython.codecs
                         (mkState 0 [x00; x2b; x63; x01; x02; x00] 0)))
           (mkBondValue 2 0 Struct (PList [mkBondValue 0 1 List (PList [])]))
           (mkState 6 [] 3) eq_refl).
Defined.

Lemma base_struct_with_after_length {codecs : Codecs} (fuel : nat)
      (body : list byte) (last : byte) (rest : list byte) (off fr : nat) :
  forallb continues body = true -> continues last = false ->
  base_struct_with fuel (mkState off (body ++ last :: rest) fr)
  = (l <- read_struct_loop (_read_value fuel) fuel [] ;;
     new_BondValue 0 Struct (PList l)) (mkState (off + length body + 1) rest fr).
Proof.
  intros Hbody Hlast. unfold base_struct_with, _read_struct.
  unfold bind at 1 2. rewrite uleb128_decode_exact by assumption. reflexivity.
Qed.

(** X12. The length a struct declares is read and never used: when an
    input decodes to a node, the input with any other length varint in
    its place decodes to the same node and ends as many bytes later or
    earlier as the two varints differ in size, provided the varint is no
    longer or that end is a position in range; and an input that raises
    anything but [OverflowError] raises the same with any length varint
    that is no longer. *)
Theorem struct_length_is_ignored {codecs : Codecs}
        (body1 body2 : list byte) (last1 last2 : byte) (rest : list byte) (off fr : nat) :
  forallb continues body1 = true -> continues last1 = false ->
  forallb continues body2 = true -> continues last2 = false ->
  (forall v s',
      _get_base_struct (mkState off (body1 ++ last1 :: rest) fr) = Return v s' ->
      (length body1 <= offset s')%nat
      /\ ((length body2 <= length body1)%nat
          \/ Z.of_nat (offset s' - length body1 + length body2) <= PY_SSIZE_T_MAX ->
          _get_base_struct (mkState off (body2 ++ last2 :: rest) fr)
          = Return v (at_offset (offset s' - length body1 + length body2) s')))
  /\ (forall e,
         _get_base_struct (mkState off (body1 ++ last1 :: rest) fr) = Raise e ->
         e <> OverflowError -> (length body2 <= length body1)%nat ->
         _get_base_struct (mkState off (body2 ++ last2 :: rest) fr) = Raise e).
Proof.
  intros Hb1 Hl1 Hb2 Hl2.
  remember (Nat.max (enough (mkState off (body1 ++ last1 :: rest) fr))
                    (enough (mkState off (body2 ++ last2 :: rest) fr))) as F eqn:HF.
  rewrite (@get_base_struct_as_fuel _ F (mkState off (body1 ++ last1 :: rest) fr))
    by (subst F; apply Nat.le_max_l).
  rewrite (@get_base_struct_as_fuel _ F (mkState off (body2 ++ last2 :: rest) fr))
    by (subst F; apply Nat.le_max_r).
  rewrite !base_struct_with_after_length by assumption.
  pose proof (relocatable_struct_fields F (mkState (off + length body1 + 1) rest fr))
    as [Hret Hraise].
  split.
  - intros v s' H. destruct (Hret _ _ H) as (c & Ho & R). cbn [offset] in Ho.
    split; [lia|]. intros Hin.
    specialize (R (off + length body2 + 1)%nat). cbn [offset] in R.
    unfold at_offset at 1 in R. cbn [unread fresh] in R.
    rewrite R by lia. do 2 f_equal. lia.
  - intros e H Hne Hle.
    specialize (Hraise e H Hne (off + length body2 + 1)%nat). cbn [offset] in Hraise.
    unfold at_offset in Hraise. cbn [unread fresh] in Hraise.
    apply Hraise. lia.
Qed.

Lemma struct_length_is_ignored_witness :
  (forallb continues [] = true /\ continues x00 = false
   /\ forallb continues [xac] = true /\ continues x02 = false
   /\ @_get_base_struct CPython.codecs (mkState 0 ([] ++ x00 :: [x23; x07; x00]) 0)
      = Return (mkBondValue 2 0 Struct (PList [mkBondValue 0 1 Uint8 (PInt 7)]))
               (mkState 4 [] 3)
   /\ Z.of_nat (4 - 0 + 1) <= PY_SSIZE_T_MAX)
  /\ @_get_base_struct CPython.codecs (mkState 0 ([xac] ++ x02 :: [x23; x07; x00]) 0)
     = Return (mkBondValue 2 0 Struct (PList [mkBondValue 0 1 Uint8 (PInt 7)]))
              (mkState 5 [] 3).
Proof.
  assert (Hle : Z.of_nat (4 - 0 + 1) <= PY_SSIZE_T_MAX) by discriminate.
  split; [repeat split; assumption|].
  exact (proj2 (proj1 (@struct_length_is_ignored CPython.codecs [] [xac] x00 x02
                         [x23; x07; x00] 0 0 eq_refl eq_refl eq_refl eq_refl)
                  (mkBondValue 2 0 Struct (PList [mkBondValue 0 1 Uint8 (PInt 7)]))
                  (mkState 4 [] 3) eq_refl)
           (or_intror Hle)).
Defined.

Lemma stable_base_struct_with {codecs : Codecs} (fuel : nat) :
  stable starved (base_struct_with fuel).
Proof.
  unfold base_struct_with. apply stable_bind.
  - apply stable_read_struct; [apply stable_read_value|apply at_end_read_value].
  - intros l. apply stable_new_BondValue.
  - intros l. apply at_end_new_BondValue.
Qed.

Lemma stable_offset {A} (bad : Outcome A -> Prop) (m : M A) s a s' :
  stable bad m -> m s = Return a s' -> (offset s <= offset s')%nat.
Proof. intros H Hm. destruct (H _ _ _ Hm) as (c & Ho & _). lia. Qed.

Lemma read_byte_advances s b s' :
  read_byte s = Return b s' -> offset s' = (offset s + 1)%nat.
Proof.
  destruct s as [o [|x u] f]; [discriminate|]. rewrite read_byte_cons.
  intros H. now inversion H.
Qed.

Lemma read_field_advances {codecs : Codecs} (fuel : nat) s val s' :
  _read_field (_read_value fuel) s = Return val s' -> (offset s < offset s')%nat.
Proof.
  unfold _read_field. intros H.
  apply bind_Return in H as ([i t] & s1 & Hh & H).
  apply (@stable_offset _ starved) in H; [|apply stable_read_value].
  unfold _type_and_id in Hh. apply bind_Return in Hh as (b & s0 & Hb & Hh).
  apply read_byte_advances in Hb.
  apply (@stable_offset _ starved) in Hh; [lia|].
  cut_auto.
Qed.

Lemma fields_to_stop_advances {codecs : Codecs} (fuel : nat) s fields s' :
  fields_to_stop (_read_field (_read_value fuel)) s fields s' ->
  (offset s < offset s')%nat.
Proof.
  induction 1 as [s val s' Hf _|s val s1 vals s' Hf _ _ IH];
    apply read_field_advances in Hf; lia.
Qed.

(** X13. What lies behind the bytes the decoder read does not matter:
    when [_get_base_struct] returns a node, it returns the same node at
    the same position on every input cut at or after that position; the
    decoder only moves forward and the base struct takes at least two
    bytes. *)
Theorem trailing_bytes_do_not_matter {codecs : Codecs} (s : State) v s' :
  _get_base_struct s = Return v s' ->
  (offset s + 2 <= offset s')%nat
  /\ unread s' = skipn (offset s' - offset s) (unread s)
  /\ forall k, (offset s' - offset s <= k)%nat ->
               _get_base_struct (trunc k s)
               = Return v (trunc (k - (offset s' - offset s)) s').
Proof.
  intros H. change (_get_base_struct s) with (base_struct_with (enough s) s) in H.
  destruct (stable_base_struct_with (enough s) _ H) as (c & Ho & Hu & _ & Hcut).
  replace (offset s' - offset s)%nat with c by lia.
  split; [|split; [exact Hu|]].
  - unfold base_struct_with, _read_struct in H.
    apply bind_Return in H as (l & s1 & H & Hnew).
    apply bind_Return in H as (len & sa & Hlen & Hloop).
    inversion Hnew; subst. cbn [offset] in *.
    apply uleb128_decode_inv in Hlen as (body & last & _ & _ & _ & Hoa & _).
    apply read_struct_loop_sound in Hloop as (fields & Hrun & _).
    apply fields_to_stop_advances in Hrun. lia.
  - intros k Hk.
    rewrite (@get_base_struct_as_fuel _ (enough s) (trunc k s)).
    + now apply Hcut.
    + unfold enough, trunc. cbn [unread]. rewrite length_firstn. lia.
Qed.

Lemma trailing_bytes_do_not_matter_witness :
  @_get_base_struct CPython.codecs (start [x00; x23; x07; x00; x55; x66])
  = Return (mkBondValue 2 0 Struct (PList [mkBondValue 0 1 Uint8 (PInt 7)]))
           (mkState 4 [x55; x66] 3)
  /\ @_get_base_struct CPython.codecs (trunc 4 (start [x00; x23; x07; x00; x55; x66]))
     = Return (mkBondValue 2 0 Struct (PList [mkBondValue 0 1 Uint8 (PInt 7)]))
              (trunc (4 - (4 - 0)) (mkState 4 [x55; x66] 3)).
Proof.
  split; [reflexivity|].
  apply (proj2 (proj2 (@trailing_bytes_do_not_matter CPython.codecs
                         (start [x00; x23; x07; x00; x55; x66]) _ _ eq_refl)) 4%nat).
  cbn. lia.
Defined.

(** ** The shape of a decoded tree *)

Lemma read_byte_range s n s' : read_byte s = Return n s' -> 0 <= n <= 255.
Proof.
  destruct s as [o [|b u] f]; [discriminate|]. rewrite read_byte_cons.
  intros H. inversion H; subst. pose proof (byte_val_range b). lia.
Qed.

Lemma to_BondType_tag (k : Z) s t s' :
  to_BondType (Z.land k 0x1F) s = Return t s' -> t <> Unavailable.
Proof.
  unfold to_BondType.
  destruct (BondType_of_int (Z.land k 0x1F)) as [t'|] eqn:Et; [|discriminate].
  intros H Hu. inversion H; subst. apply BondType_of_int_code in Et.
  cbn [BondType_code] in Et. change 0x1F with (Z.ones 5) in Et.
  rewrite Z.land_ones in Et by lia.
  pose proof (Z.mod_pos_bound k (2 ^ 5) ltac:(reflexivity)) as Hb.
  change (2 ^ 5) with 32 in *. lia.
Qed.

Lemma int_from_bytes_little_2 (bs : list byte) (u : list byte) :
  bs = firstn 2 u -> 0 <= int_from_bytes_little bs < 65536.
Proof.
  intros ->. destruct u as [|b0 [|b1 u]]; cbn [firstn int_from_bytes_little].
  - lia.
  - pose proof (byte_val_range b0). lia.
  - pose proof (byte_val_range b0). pose proof (byte_val_range b1). lia.
Qed.

Lemma type_and_id_range s i t s1 :
  _type_and_id s = Return (i, t) s1 -> t <> Unavailable /\ 0 <= i < 65536.
Proof.
  unfold _type_and_id. intros H.
  apply bind_Return in H as (b & sa & Hb & H).
  apply bind_Return in H as (t' & sb & Ht & H).
  pose proof (to_BondType_tag _ _ Ht) as Htag.
  pose proof (read_byte_range _ Hb) as Hrange.
  assert (Hsel : 0 <= Z.shiftr b 5 <= 7).
  { rewrite Z.shiftr_div_pow2 by lia. change (2 ^ 5) with 32.
    split; [apply Z.div_pos; lia|].
    assert (b / 32 < 8) by (apply Z.div_lt_upper_bound; lia). lia. }
  destruct (Z.shiftr b 5 =? 6); [|destruct (Z.shiftr b 5 =? 7)].
  - apply bind_Return in H as (x & sc & Hx & H). inversion H; subst.
    apply read_byte_range in Hx. split; [assumption|lia].
  - apply bind_Return in H as (bs & sc & Hbs & H). inversion H; subst.
    inversion Hbs; subst. split; [assumption|].
    now apply int_from_bytes_little_2 with (unread sb).
  - inversion H; subst. split; [assumption|lia].
Qed.

Lemma get_type_count_type s t n s1 :
  _get_type_count s = Return (t, n) s1 -> t <> Unavailable.
Proof.
  unfold _get_type_count. intros H.
  apply bind_Return in H as (b & sa & Hb & H).
  apply bind_Return in H as (t' & sb & Ht & H).
  pose proof (to_BondType_tag _ _ Ht) as Htag.
  destruct (Z.shiftr b 5 =? 0).
  - apply bind_Return in H as (x & sc & Hx & H). now inversion H; subst.
  - now inversion H; subst.
Qed.

Section Shape.

Context {codecs : Codecs}.
Variable fuel : nat.
Hypothesis IH : forall i t s v s',
    _read_value fuel i t s = Return v s' -> well_formed v.

Lemma fields_well_formed s fields s' :
  fields_to_stop (_read_field (_read_value fuel)) s fields s' ->
  Forall well_formed fields
  /\ Forall (fun c => type c <> Stop /\ type c <> Unavailable /\ 0 <= id c < 65536) fields.
Proof.
  induction 1 as [s val s' Hf Ht|s val s1 vals s' Hf Ht Hrun [IHw IHt]].
  - split; constructor.
  - unfold _read_field in Hf. apply bind_Return in Hf as ([i t] & sh & Hh & Hv).
    apply type_and_id_range in Hh as [Hu Hi].
    pose proof (read_value_returns _ _ _ _ Hv) as (_ & Hid & Hty & _).
    split; constructor; try assumption.
    + now apply IH in Hv.
    + rewrite Hid. rewrite Hty in *. tauto.
Qed.

Lemma kept_well_formed fields :
  Forall well_formed fields ->
  Forall (fun c => type c <> Stop /\ type c <> Unavailable /\ 0 <= id c < 65536) fields ->
  Forall well_formed (kept fields)
  /\ Forall (fun c => type c <> Stop /\ type c <> StopBase /\ type c <> Unavailable
                      /\ 0 <= id c < 65536) (kept fields).
Proof.
  intros Hw Ht. unfold kept. split.
  - rewrite Forall_forall in *. intros c Hc. apply filter_In in Hc as [Hc _]. now apply Hw.
  - rewrite Forall_forall in *. intros c Hc. apply filter_In in Hc as [Hc Hk].
    specialize (Ht c Hc). apply negb_true_iff in Hk.
    repeat split; try tauto.
    intros E. rewrite E in Hk. discriminate Hk.
Qed.

Lemma elements_well_formed t count s vals s' :
  elements_read (_read_value fuel) t count s vals s' -> Forall well_formed vals.
Proof.
  induction 1 as [s|n s val s1 vals s' Hval Hrun IHl]; constructor; [|exact IHl].
  now apply IH in Hval.
Qed.

Lemma entries_well_formed kt vt count s entries s' :
  entries_read (_read_value fuel) kt vt count s entries s' ->
  Forall well_formed (map fst entries) /\ Forall well_formed (map snd entries)
  /\ Forall (fun kv => id (fst kv) = 0 /\ type (fst kv) = kt
                       /\ id (snd kv) = 0 /\ type (snd kv) = vt) entries.
Proof.
  induction 1 as [s|n s key s1 val s2 entries s' Hkey Hval Hrun (IHk & IHv & IHt)].
  - repeat split; constructor.
  - pose proof (read_value_returns _ _ _ _ Hkey) as (_ & Hkid & Hkty & _).
    pose proof (read_value_returns _ _ _ _ Hval) as (_ & Hvid & Hvty & _).
    cbn [map fst snd]. repeat split; constructor; try assumption.
    + now apply IH in Hkey.
    + now apply IH in Hval.
    + cbn [fst snd]. tauto.
Qed.

Lemma read_list_well_formed o i t ty s l s' :
  t = List \/ t = Set_ ->
  _read_list (_read_value fuel) ty s = Return l s' ->
  well_formed (mkBondValue o i t (PList l)).
Proof.
  intros Ht Hm. unfold _read_list in Hm.
  apply bind_Return in Hm as ([et n] & sa & Hcount & Hl).
  pose proof (get_type_count_type _ Hcount) as Het.
  destruct (BondType_eqb et List || BondType_eqb et Int8 || BondType_eqb et Uint8) eqn:Eb.
  - unbind Hl. inversion Hl; subst. apply wf_list with et; auto.
  - apply read_list_loop_sound in Hl as (vals & Hrun & ->). cbn [app].
    apply wf_list with et; auto.
    + now apply elements_well_formed in Hrun.
    + now apply elements_read_typed in Hrun.
    + intros [-> | [-> | ->]]; discriminate Eb.
Qed.

Lemma read_struct_well_formed o i n s l s' :
  _read_struct (_read_value fuel) n s = Return l s' ->
  well_formed (mkBondValue o i Struct (PList l)).
Proof.
  intros Hm. unfold _read_struct in Hm.
  apply bind_Return in Hm as (len & sa & Hlen & Hloop).
  apply read_struct_loop_sound in Hloop as (fields & Hrun & ->).
  apply fields_well_formed in Hrun as [Hw Ht].
  destruct (kept_well_formed Hw Ht) as [Hkw Hkt].
  cbn [app]. now apply wf_struct.
Qed.

Lemma read_map_well_formed o i s d s' :
  _read_map (_read_value fuel) s = Return d s' ->
  well_formed (mkBondValue o i Map (PDict d)).
Proof.
  intros Hm. unfold _read_map in Hm.
  apply bind_Return in Hm as (k & sa & Hk & Hm).
  apply bind_Return in Hm as (kt & sb & Hkt & Hm).
  apply bind_Return in Hm as (x & sc & Hx & Hm).
  apply bind_Return in Hm as (vt & sd & Hvt & Hm).
  apply bind_Return in Hm as (count & se & Hcount & Hm).
  apply read_map_loop_keeps in Hm as (entries & Hrun & ->); [|constructor].
  cbn [app]. apply entries_well_formed in Hrun as (Hkw & Hvw & Hty).
  apply wf_map with kt vt; try assumption.
  - now apply to_BondType_tag in Hkt.
  - now apply to_BondType_tag in Hvt.
Qed.

Lemma unpack_b_range bs s n s' : unpack_b bs s = Return n s' -> -128 <= n <= 127.
Proof.
  unfold unpack_b. destruct bs as [|b [|b' bs]]; try discriminate.
  intros H. inversion H; subst. pose proof (byte_val_range b).
  destruct (Z.ltb_spec (byte_val b) 128); lia.
Qed.

Lemma unpack_float_length size bs s p s' :
  unpack_float size bs s = Return p s' -> p = PFloat bs /\ length bs = size.
Proof.
  unfold unpack_float. destruct (Nat.eqb_spec (length bs) size); [|discriminate].
  intros H. inversion H; subst. now split.
Qed.

Lemma read_value_body_well_formed i t s v s' :
  read_value_body (_read_value fuel) fuel i t s = Return v s' -> well_formed v.
Proof.
  unfold read_value_body. intros H.
  apply bind_Return in H as (val & s1 & Hnew & H).
  inversion Hnew; subst val s1; clear Hnew.
  destruct t; unbind H; inversion H; subst; unfold set_value; cbn [oid id type];
    repeat match goal with
           | Hm : read_byte _ = Return _ _ |- _ => apply read_byte_range in Hm
           | Hm : _uleb128_decode _ = Return _ _ |- _ => apply uleb128_decode_nonneg in Hm
           | Hm : unpack_b _ _ = Return _ _ |- _ => apply unpack_b_range in Hm
           | Hm : unpack_float _ _ _ = Return _ _ |- _ =>
               apply unpack_float_length in Hm as [-> Hm]
           end;
    first [ eapply read_struct_well_formed; eassumption
          | eapply read_list_well_formed; [|eassumption]; (now left) || (now right)
          | eapply read_map_well_formed; eassumption
          | apply wf_scalar; cbn [payload_shape]; first [exact I | assumption] ].
Qed.

End Shape.

Lemma read_value_well_formed {codecs : Codecs} (fuel : nat) :
  forall i t s v s', _read_value fuel i t s = Return v s' -> well_formed v.
Proof.
  induction fuel as [|fuel IH]; intros i t s v s' H; [discriminate H|].
  cbn [_read_value] in H. now apply read_value_body_well_formed in H.
Qed.

(** X14. Every tree the reader returns is well formed: each node has the
    payload of its type (a [Uint8] in 0..255, an [Int8] in -128..127, a
    [Float] of 4 bytes, a list for a struct, ...), no struct holds a
    [Stop] or [StopBase] field or a field id outside 0..65535, the
    elements of a list or set and the keys and values of a map have id 0
    and one type, no type is [Unavailable], and a list of [List], [Int8]
    or [Uint8] elements is empty. The root is a [Struct] with id 0. *)
Theorem decoded_tree_is_well_formed {codecs : Codecs} :
  (forall fuel i t s v s',
      _read_value fuel i t s = Return v s' ->
      well_formed v /\ id v = i /\ type v = t)
  /\ (forall s v s',
         _get_base_struct s = Return v s' ->
         well_formed v /\ id v = 0 /\ type v = Struct).
Proof.
  split.
  - intros fuel i t s v s' H. split; [now apply read_value_well_formed in H|].
    apply read_value_returns in H. tauto.
  - intros s v s' H. unfold _get_base_struct, _read_struct in H.
    apply bind_Return in H as (l & s1 & H & Hnew).
    apply bind_Return in H as (len & sa & Hlen & Hloop).
    inversion Hnew; subst. cbn [id type]. repeat split.
    apply read_struct_loop_sound in Hloop as (fields & Hrun & ->).
    apply fields_well_formed in Hrun as [Hw Ht]; [|apply read_value_well_formed].
    destruct (kept_well_formed Hw Ht) as [Hkw Hkt].
    cbn [app]. now apply wf_struct.
Qed.

Lemma decoded_tree_is_well_formed_witness :
  @_get_base_struct CPython.codecs (start [x00; x2b; x23; xc3; xa9; x00; x00])
  = Return (mkBondValue 3 0 Struct
              (PList [mkBondValue 0 1 List (PList []);
                      mkBondValue 1 169 Uint8 (PInt 0)]))
           (mkState 7 [] 4)
  /\ well_formed (mkBondValue 3 0 Struct
                    (PList [mkBondValue 0 1 List (PList []);
                            mkBondValue 1 169 Uint8 (PInt 0)])).
Proof.
  split; [reflexivity|].
  exact (proj1 (proj2 (@decoded_tree_is_well_formed CPython.codecs)
                  (start [x00; x2b; x23; xc3; xa9; x00; x00])
                  (mkBondValue 3 0 Struct
                     (PList [mkBondValue 0 1 List (PList []);
                             mkBondValue 1 169 Uint8 (PInt 0)]))
                  (mkState 7 [] 4) eq_refl)).
Defined.

(** ** The identities of a decoded tree *)

Lemma node_oids_list o i t (l : list BondValue) :
  node_oids (mkBondValue o i t (PList l)) = o :: flat_map node_oids l.
Proof. reflexivity. Qed.

Lemma node_oids_dict o i t (d : list (BondValue * BondValue)) :
  node_oids (mkBondValue o i t (PDict d))
  = o :: flat_map (fun kv => node_oids (fst kv) ++ node_oids (snd kv)) d.
Proof.
  cbn [node_oids]. f_equal. induction d as [|[k x] more IHd]; [reflexivity|].
  cbn [flat_map fst snd]. now rewrite IHd, app_assoc.
Qed.

Lemma owned_nil lo hi : owned lo hi [].
Proof. split; constructor. Qed.

Lemma owned_widen lo hi lo' hi' l :
  owned lo hi l -> (lo' <= lo)%nat -> (hi <= hi')%nat -> owned lo' hi' l.
Proof.
  intros [Hnd Hall] Hlo Hhi. split; [exact Hnd|].
  eapply Forall_impl; [|exact Hall]. cbn beta. intros o Ho. lia.
Qed.

Lemma owned_app lo mid hi a b :
  (lo <= mid)%nat -> (mid <= hi)%nat ->
  owned lo mid a -> owned mid hi b -> owned lo hi (a ++ b).
Proof.
  intros Hlo Hhi [Hna Ha] [Hnb Hb]. split.
  - induction a as [|x a IHa]; [exact Hnb|].
    inversion Hna; subst. inversion Ha; subst. cbn [app]. constructor.
    + intros Hin. apply in_app_or in Hin as [Hin|Hin]; [contradiction|].
      rewrite Forall_forall in Hb. specialize (Hb x Hin). lia.
    + now apply IHa.
  - apply Forall_app. split.
    + eapply Forall_impl; [|exact Ha]. cbn beta. intros o Ho. lia.
    + eapply Forall_impl; [|exact Hb]. cbn beta. intros o Ho. lia.
Qed.

Lemma owned_cons lo hi o l :
  (lo <= o)%nat -> owned (S o) hi l -> (o < hi)%nat -> owned lo hi (o :: l).
Proof.
  intros Hlo [Hnd Hall] Hhi. split.
  - constructor; [|exact Hnd]. intros Hin.
    rewrite Forall_forall in Hall. specialize (Hall o Hin). lia.
  - constructor; [lia|]. eapply Forall_impl; [|exact Hall]. cbn beta. intros x Hx. lia.
Qed.

Section Own.

Context {codecs : Codecs}.
Variable fuel : nat.
Hypothesis IH : forall i t s v s',
    _read_value fuel i t s = Return v s' -> owned (fresh s) (fresh s') (node_oids v).

Lemma read_field_owned s val s' :
  _read_field (_read_value fuel) s = Return val s' ->
  (fresh s < fresh s')%nat /\ owned (fresh s) (fresh s') (node_oids val).
Proof.
  unfold _read_field. intros H.
  apply bind_Return in H as ([i t] & sh & Hh & Hv).
  apply (@stable_fresh _ starved) in Hh; [|apply stable_type_and_id].
  pose proof (read_value_returns _ _ _ _ Hv) as (_ & _ & _ & Hlt).
  split; [lia|]. apply IH in Hv. apply owned_widen with (fresh sh) (fresh s'); auto.
Qed.

Lemma fields_owned s fields s' :
  fields_to_stop (_read_field (_read_value fuel)) s fields s' ->
  (fresh s < fresh s')%nat
  /\ owned (fresh s) (fresh s') (flat_map node_oids (kept fields)).
Proof.
  induction 1 as [s val s' Hf Ht|s val s1 vals s' Hf Ht Hrun [IHlt IHo]].
  - apply read_field_owned in Hf as [Hlt _]. split; [exact Hlt|apply owned_nil].
  - apply read_field_owned in Hf as [Hlt Ho]. split; [lia|].
    unfold kept. cbn [filter].
    destruct (negb (BondType_eqb (type val) StopBase)).
    + cbn [flat_map]. apply owned_app with (fresh s1); try lia; assumption.
    + apply owned_widen with (fresh s1) (fresh s'); try lia. exact IHo.
Qed.

Lemma elements_owned t count s vals s' :
  elements_read (_read_value fuel) t count s vals s' ->
  (fresh s <= fresh s')%nat /\ owned (fresh s) (fresh s') (flat_map node_oids vals).
Proof.
  induction 1 as [s|n s val s1 vals s' Hval Hrun [IHle IHo]].
  - split; [lia|apply owned_nil].
  - pose proof (read_value_returns _ _ _ _ Hval) as (_ & _ & _ & Hlt).
    apply IH in Hval. split; [lia|]. cbn [flat_map].
    apply owned_app with (fresh s1); try lia; assumption.
Qed.

Lemma entries_owned kt vt count s entries s' :
  entries_read (_read_value fuel) kt vt count s entries s' ->
  (fresh s <= fresh s')%nat
  /\ owned (fresh s) (fresh s')
        (flat_map (fun kv => node_oids (fst kv) ++ node_oids (snd kv)) entries).
Proof.
  induction 1 as [s|n s key s1 val s2 entries s' Hkey Hval Hrun [IHle IHo]].
  - split; [lia|apply owned_nil].
  - pose proof (read_value_returns _ _ _ _ Hkey) as (_ & _ & _ & Hk).
    pose proof (read_value_returns _ _ _ _ Hval) as (_ & _ & _ & Hv).
    apply IH in Hkey. apply IH in Hval. split; [lia|]. cbn [flat_map fst snd].
    apply owned_app with (fresh s2); try lia; [|assumption].
    apply owned_app with (fresh s1); try lia; assumption.
Qed.

Lemma read_struct_owned n s l s' :
  _read_struct (_read_value fuel) n s = Return l s' ->
  (fresh s <= fresh s')%nat /\ owned (fresh s) (fresh s') (flat_map node_oids l).
Proof.
  intros Hm. unfold _read_struct in Hm.
  apply bind_Return in Hm as (len & sa & Hlen & Hloop).
  apply uleb128_decode_inv in Hlen as (_ & _ & _ & _ & _ & _ & Hfr & _).
  apply read_struct_loop_sound in Hloop as (fields & Hrun & ->).
  apply fields_owned in Hrun as [Hlt Ho]. cbn [app]. rewrite Hfr in *.
  split; [lia|exact Ho].
Qed.

Lemma read_list_owned ty s l s' :
  _read_list (_read_value fuel) ty s = Return l s' ->
  (fresh s <= fresh s')%nat /\ owned (fresh s) (fresh s') (flat_map node_oids l).
Proof.
  intros Hm. unfold _read_list in Hm.
  apply bind_Return in Hm as ([et n] & sa & Hcount & Hl).
  apply (@stable_fresh _ starved) in Hcount; [|apply stable_get_type_count].
  destruct (BondType_eqb et List || BondType_eqb et Int8 || BondType_eqb et Uint8).
  - unbind Hl. inversion Hl; subst. unfold _read_blobs in Hm.
    apply seek_cur_Return in Hm as [_ ->]. cbn [fresh] in *.
    split; [lia|apply owned_nil].
  - apply read_list_loop_sound in Hl as (vals & Hrun & ->). cbn [app].
    apply elements_owned in Hrun as [Hle Ho].
    split; [lia|]. apply owned_widen with (fresh sa) (fresh s'); auto.
Qed.

Lemma read_map_owned s d s' :
  _read_map (_read_value fuel) s = Return d s' ->
  (fresh s <= fresh s')%nat
  /\ owned (fresh s) (fresh s')
        (flat_map (fun kv => node_oids (fst kv) ++ node_oids (snd kv)) d).
Proof.
  intros Hm. pose proof Hm as Hall.
  apply (@stable_fresh _ starved) in Hall;
    [|apply stable_read_map; [apply stable_read_value|apply at_end_read_value]].
  unfold _read_map in Hm.
  apply bind_Return in Hm as (k & sa & Hk & Hm).
  apply bind_Return in Hm as (kt & sb & Hkt & Hm).
  apply bind_Return in Hm as (x & sc & Hx & Hm).
  apply bind_Return in Hm as (vt & sd & Hvt & Hm).
  apply bind_Return in Hm as (count & se & Hcount & Hm).
  apply read_map_loop_keeps in Hm as (entries & Hrun & ->); [|constructor].
  cbn [app]. apply entries_owned in Hrun as [Hle Ho].
  split; [exact Hall|].
  apply owned_widen with (fresh se) (fresh s'); auto.
  apply (@stable_fresh _ starved) in Hk; [|apply stable_stuck_starved, stable_read_byte].
  apply (@stable_fresh _ starved) in Hkt; [|apply stable_to_BondType].
  apply (@stable_fresh _ starved) in Hx; [|apply stable_stuck_starved, stable_read_byte].
  apply (@stable_fresh _ starved) in Hvt; [|apply stable_to_BondType].
  apply (@stable_fresh _ starved) in Hcount;
    [|apply stable_stuck_starved, stable_uleb128_decode].
  lia.
Qed.

Lemma read_value_body_owned i t s v s' :
  read_value_body (_read_value fuel) fuel i t s = Return v s' ->
  owned (fresh s) (fresh s') (node_oids v).
Proof.
  intros H.
  assert (Hlt : (fresh s < fresh s')%nat).
  { apply read_value_body_returns in H;
      [tauto|apply stable_read_value|apply at_end_read_value]. }
  unfold read_value_body in H.
  apply bind_Return in H as (val & s1 & Hnew & H).
  inversion Hnew; subst val s1; clear Hnew.
  destruct t; unbind H; inversion H; subst; unfold set_value; cbn [oid id type];
    first [ rewrite node_oids_list;
            first [ apply read_struct_owned in Hm as [_ Ho]
                  | apply read_list_owned in Hm as [_ Ho] ];
            cbn [fresh] in Ho; now apply owned_cons
          | rewrite node_oids_dict; apply read_map_owned in Hm as [_ Ho];
            cbn [fresh] in Ho; now apply owned_cons
          | cbn [node_oids]; apply owned_cons; [lia|apply owned_nil|lia]
          | match goal with
            | Hf : unpack_float _ _ _ = Return _ _ |- _ =>
                apply unpack_float_length in Hf as [-> _]
            end;
            cbn [node_oids]; apply owned_cons; [lia|apply owned_nil|lia] ].
Qed.

End Own.

Lemma read_value_owned {codecs : Codecs} (fuel : nat) :
  forall i t s v s',
    _read_value fuel i t s = Return v s' -> owned (fresh s) (fresh s') (node_oids v).
Proof.
  induction fuel as [|fuel IH]; intros i t s v s' H; [discriminate H|].
  cbn [_read_value] in H. now apply read_value_body_owned in H.
Qed.

(** X15. The nodes of a returned tree are all different objects, made
    during the call: the identities of the node, of its elements and of
    the keys and values of its maps, all the way down, are pairwise
    different and lie between the object counter before and after the
    call; no node is shared inside a tree or reused from before. *)
Theorem decoded_nodes_are_distinct {codecs : Codecs} :
  (forall fuel i t s v s',
      _read_value fuel i t s = Return v s' ->
      NoDup (node_oids v)
      /\ Forall (fun o => (fresh s <= o < fresh s')%nat) (node_oids v))
  /\ (forall s v s',
         _get_base_struct s = Return v s' ->
         NoDup (node_oids v)
         /\ Forall (fun o => (fresh s <= o < fresh s')%nat) (node_oids v)).
Proof.
  split.
  - intros fuel i t s v s' H. now apply read_value_owned in H.
  - intros s v s' H. unfold _get_base_struct in H.
    apply bind_Return in H as (l & s1 & H & Hnew).
    apply read_struct_owned in H as [Hle [Hnd Hall]]; [|apply read_value_owned].
    inversion Hnew; subst. rewrite node_oids_list. cbn [fresh]. split.
    + constructor; [|exact Hnd]. intros Hin.
      rewrite Forall_forall in Hall. specialize (Hall _ Hin). lia.
    + constructor; [lia|]. eapply Forall_impl; [|exact Hall]. cbn beta.
      intros o Ho. lia.
Qed.

Lemma decoded_nodes_are_distinct_witness :
  @_get_base_struct CPython.codecs (start [x00; x2d; x03; x03; x02; x05; x07; x05; x08; x00])
  = Return (mkBondValue 6 0 Struct
              (PList [mkBondValue 0 1 Map
                        (PDict [(mkBondValue 1 0 Uint8 (PInt 5),
                                 mkBondValue 2 0 Uint8 (PInt 7));
                                (mkBondValue 3 0 Uint8 (PInt 5),
                                 mkBondValue 4 0 Uint8 (PInt 8))])]))
           (mkState 10 [] 7)
  /\ NoDup [6; 0; 1; 2; 3; 4]%nat.
Proof.
  split; [reflexivity|].
  exact (proj1 (proj2 (@decoded_nodes_are_distinct CPython.codecs)
                  (start [x00; x2d; x03; x03; x02; x05; x07; x05; x08; x00])
                  (mkBondValue 6 0 Struct
                     (PList [mkBondValue 0 1 Map
                               (PDict [(mkBondValue 1 0 Uint8 (PInt 5),
                                        mkBondValue 2 0 Uint8 (PInt 7));
                                       (mkBondValue 3 0 Uint8 (PInt 5),
                                        mkBondValue 4 0 Uint8 (PInt 8))])]))
                  (mkState 10 [] 7) eq_refl)).
Defined.

(** ** Where a returned struct ends *)

Lemma stable_span {A} (bad : Outcome A -> Prop) (m : M A) s a s' :
  stable bad m -> m s = Return a s' -> unread s' <> [] ->
  (offset s' + length (unread s') = offset s + length (unread s))%nat.
Proof.
  intros H Hm Hne. destruct (H _ _ _ Hm) as (c & Ho & Hu & _).
  rewrite Hu in Hne |- *. rewrite length_skipn.
  destruct (Nat.le_gt_cases (length (unread s)) c) as [Hc|Hc]; [|lia].
  exfalso. apply Hne. now apply skipn_all2.
Qed.

Lemma type_and_id_inside s i t s' :
  _type_and_id s = Return (i, t) s' ->
  (offset s' <= offset s + length (unread s))%nat.
Proof.
  unfold _type_and_id. intros H.
  apply bind_Return in H as (b & sa & Hb & H).
  apply bind_Return in H as (t' & sb & Ht & H).
  destruct s as [o [|x u] f]; [discriminate Hb|].
  rewrite read_byte_cons in Hb. inversion Hb; subst. clear Hb.
  unfold to_BondType in Ht. destruct (BondType_of_int _); [|discriminate Ht].
  inversion Ht; subst. clear Ht. cbn [offset unread length].
  destruct (Z.shiftr (byte_val x) 5 =? 6); [|destruct (Z.shiftr (byte_val x) 5 =? 7)].
  - apply bind_Return in H as (y & sc & Hy & H). inversion H; subst.
    destruct u as [|z u]; [discriminate Hy|]. rewrite read_byte_cons in Hy.
    inversion Hy; subst. cbn [offset length]. lia.
  - apply bind_Return in H as (bs & sc & Hbs & H). inversion H; subst.
    unfold read in Hbs. cbn [offset unread fresh] in Hbs.
    destruct u as [|y [|z u]]; inversion Hbs; subst; cbn [offset length]; lia.
  - inversion H; subst. cbn [offset]. lia.
Qed.

Lemma stop_field_inside {codecs : Codecs} (fuel : nat) s val s' :
  _read_field (_read_value fuel) s = Return val s' -> type val = Stop ->
  (offset s' <= offset s + length (unread s))%nat.
Proof.
  unfold _read_field. intros H Ht.
  apply bind_Return in H as ([i t] & sh & Hh & Hv).
  pose proof (read_value_returns _ _ _ _ Hv) as (_ & _ & Hty & _).
  assert (Et : t = Stop) by congruence. rewrite Et in Hv.
  destruct fuel as [|fuel]; [discriminate Hv|].
  rewrite read_value_Stop in Hv. inversion Hv; subst s'. cbn [offset].
  now apply type_and_id_inside in Hh.
Qed.

Lemma fields_to_stop_inside {codecs : Codecs} (fuel : nat) s fields s' :
  fields_to_stop (_read_field (_read_value fuel)) s fields s' ->
  (offset s' <= offset s + length (unread s))%nat.
Proof.
  induction 1 as [s val s' Hf Ht|s val s1 vals s' Hf Ht Hrun IH].
  - now apply stop_field_inside with fuel val.
  - assert (Hne : unread s1 <> []).
    { intros Hend. destruct Hrun as [s1 v1 s2 Hf1 _|s1 v1 s2 vs s3 Hf1 _ _];
        pose proof (@at_end_read_field (_read_value fuel) s1 Hend) as Hstuck;
        rewrite Hf1 in Hstuck; exact Hstuck. }
    apply (@stable_span _ starved) in Hf; [lia| |exact Hne].
    apply stable_read_field; [apply stable_read_value|apply at_end_read_value].
Qed.

(** X16. A struct that is returned ends inside the input: the position
    after [_get_base_struct] is not past the end, and the unread bytes
    are the input from that position on. A blob whose count runs past
    the end of the input is skipped without complaint, but the struct
    around it then never returns. *)
Theorem returned_struct_ends_inside {codecs : Codecs} (s : State) v s' :
  _get_base_struct s = Return v s' ->
  (offset s' <= offset s + length (unread s))%nat
  /\ (offset s' + length (unread s') = offset s + length (unread s))%nat.
Proof.
  intros H.
  assert (Hin : (offset s' <= offset s + length (unread s))%nat).
  { unfold _get_base_struct, _read_struct in H.
    apply bind_Return in H as (l & s1 & H & Hnew).
    apply bind_Return in H as (len & sa & Hlen & Hloop).
    inversion Hnew; subst. cbn [offset].
    apply uleb128_decode_inv in Hlen as (body & last & Hu & _ & _ & Hoa & _).
    apply read_struct_loop_sound in Hloop as (fields & Hrun & _).
    apply fields_to_stop_inside in Hrun. rewrite Hu, length_app. cbn [length]. lia. }
  split; [exact Hin|].
  change (_get_base_struct s) with (base_struct_with (enough s) s) in H.
  destruct (stable_base_struct_with (enough s) _ H) as (c & Ho & Hu & _).
  rewrite Hu, length_skipn. lia.
Qed.

Lemma returned_struct_ends_inside_witness :
  @_get_base_struct CPython.codecs (start [x00; x2b; x63; x01; x02; x00])
  = Return (mkBondValue 2 0 Struct (PList [mkBondValue 0 1 List (PList [])]))
           (mkState 6 [] 3)
  /\ (offset (mkState 6 [] 3) + length (unread (mkState 6 [] 3))
      = offset (start [x00; x2b; x63; x01; x02; x00])
        + length (unread (start [x00; x2b; x63; x01; x02; x00])))%nat.
Proof.
  split; [reflexivity|].
  exact (proj2 (@returned_struct_ends_inside CPython.codecs
                  (start [x00; x2b; x63; x01; x02; x00])
                  (mkBondValue 2 0 Struct (PList [mkBondValue 0 1 List (PList [])]))
                  (mkState 6 [] 3) eq_refl)).
Defined.

(** ** Navigation and the types without elements *)

(** X17. Only [List], [Set] and [Struct] nodes have elements: on a node
    of any other type, a map included, and on a node whose payload is no
    list, [get_elements] is empty, [get_by_id] finds nothing, [traverse]
    returns the node itself whatever the ids, and [get_value] raises
    [ValueOutOfRangeError] for every index from 0 on. *)
Theorem navigation_stops_at_non_sequences (self : BondValue) :
  (type self <> List /\ type self <> Set_ /\ type self <> Struct)
  \/ (forall l, value self <> PList l) ->
  get_elements self = []
  /\ (forall i, get_by_id self i = None)
  /\ (forall ids index, traverse self ids index = Returns self)
  /\ (forall index, 0 <= index -> get_value self index = Raises ValueOutOfRangeError).
Proof.
  intros H.
  assert (He : get_elements self = []).
  { unfold get_elements. destruct H as [(H1 & H2 & H3)|H].
    - destruct (type self); try reflexivity; contradiction.
    - destruct (value self); try (now destruct (_ || _)).
      now contradiction (H l). }
  split; [exact He|]. split; [|split].
  - intros i. unfold get_by_id. now rewrite He.
  - intros ids index. destruct self as [o n t p]. unfold get_elements in He.
    cbn [type value] in *. cbn [traverse].
    destruct (BondType_eqb t List || BondType_eqb t Set_ || BondType_eqb t Struct);
      [|reflexivity].
    destruct p; try reflexivity. now subst l.
  - intros index Hi. unfold get_value. rewrite He. cbn [length Z.of_nat].
    replace (index <? 0) with false by (symmetry; apply Z.ltb_ge; lia). reflexivity.
Qed.

Lemma navigation_stops_at_non_sequences_witness :
  (type (mkBondValue 0 1 Map (PDict [(leaf_x, leaf_x)])) <> List
   /\ type (mkBondValue 0 1 Map (PDict [(leaf_x, leaf_x)])) <> Set_
   /\ type (mkBondValue 0 1 Map (PDict [(leaf_x, leaf_x)])) <> Struct)
  /\ forall i, get_by_id (mkBondValue 0 1 Map (PDict [(leaf_x, leaf_x)])) i = None.
Proof.
  assert (H : type (mkBondValue 0 1 Map (PDict [(leaf_x, leaf_x)])) <> List
              /\ type (mkBondValue 0 1 Map (PDict [(leaf_x, leaf_x)])) <> Set_
              /\ type (mkBondValue 0 1 Map (PDict [(leaf_x, leaf_x)])) <> Struct)
    by (repeat split; discriminate).
  split; [exact H|].
  exact (proj1 (proj2 (@navigation_stops_at_non_sequences
                         (mkBondValue 0 1 Map (PDict [(leaf_x, leaf_x)]))
                         (or_introl H)))).
Defined.

(** ** The exceptions of the reader *)

Lemma reader_errors_bind {A B} (m : M A) (f : A -> M B) :
  raises_reader_errors m -> (forall a, raises_reader_errors (f a)) ->
  raises_reader_errors (bind m f).
Proof.
  intros Hm Hf s e. unfold bind.
  destruct (m s) as [a s1|e'|] eqn:E; [apply Hf| |discriminate].
  intros H. inversion H; subst. now apply Hm in E.
Qed.

Lemma reader_errors_uleb128_decode : raises_reader_errors _uleb128_decode.
Proof. intros s e H. now apply uleb128_decode_raises in H as [-> _]. Qed.

Lemma reader_errors_read (n : nat) : raises_reader_errors (read n).
Proof. intros s e H. now apply read_Raise in H as [-> _]. Qed.

Lemma reader_errors_seek_cur (n : nat) : raises_reader_errors (seek_cur n).
Proof. intros s e H. now apply seek_cur_Raise in H as [-> _]. Qed.

Ltac errors_step :=
  match goal with
  | |- forall _, _ => intros ?
  | |- raises_reader_errors (bind _ _) => apply reader_errors_bind
  | |- raises_reader_errors _uleb128_decode => apply reader_errors_uleb128_decode
  | |- raises_reader_errors (read _) => apply reader_errors_read
  | |- raises_reader_errors (seek_cur _) => apply reader_errors_seek_cur
  | |- raises_reader_errors (match ?x with _ => _ end) => destruct x
  | |- raises_reader_errors (if ?x then _ else _) => destruct x
  | |- raises_reader_errors _ => solve [auto]
  | |- raises_reader_errors _ =>
      solve [let s := fresh in let e := fresh in let H := fresh in
             intros s e H; inversion H; reflexivity]
  end.

Ltac errors_auto := repeat errors_step.

Section ReaderErrors.

Context {codecs : Codecs}.
Variable rv : Z -> BondType -> M BondValue.
Hypothesis errors_rv : forall i t, raises_reader_errors (rv i t).

Lemma reader_errors_read_list_loop count t values :
  raises_reader_errors (read_list_loop rv count t values).
Proof.
  revert values. induction count as [|count IH]; intros values; cbn [read_list_loop];
    errors_auto.
Qed.

Lemma reader_errors_read_map_loop count kt vt values :
  raises_reader_errors (read_map_loop rv count kt vt values).
Proof.
  revert values. induction count as [|count IH]; intros values; cbn [read_map_loop];
    errors_auto.
Qed.

Lemma reader_errors_read_struct_loop fuel values :
  raises_reader_errors (read_struct_loop rv fuel values).
Proof.
  revert values. induction fuel as [|fuel IH]; intros values; cbn [read_struct_loop].
  - intros s e H. discriminate H.
  - unfold _read_field, _type_and_id, read_byte, to_BondType. errors_auto.
Qed.

Lemma reader_errors_read_value_body fuel i t :
  raises_reader_errors (read_value_body rv fuel i t).
Proof.
  pose proof reader_errors_read_list_loop. pose proof reader_errors_read_map_loop.
  pose proof reader_errors_read_struct_loop.
  unfold read_value_body, _read_struct, _read_list, _read_map, _read_string,
    _read_wstring, _sleb128_decode, _get_type_count, _read_blobs, read_byte,
    to_BondType, unpack_b, unpack_float, new_BondValue.
  destruct t; errors_auto.
Qed.

End ReaderErrors.

Lemma reader_errors_read_value {codecs : Codecs} (fuel : nat) :
  forall i t, raises_reader_errors (_read_value fuel i t).
Proof.
  induction fuel as [|fuel IH]; intros i t; cbn [_read_value].
  - intros s e H. discriminate H.
  - now apply reader_errors_read_value_body.
Qed.

(** X18. [ValueOutOfRangeError] belongs to [get_value] alone: it is
    never the outcome of [_read_value] or of [_get_base_struct], and it
    is what [get_value] raises for every index at or above the number of
    elements. *)
Theorem reader_never_raises_ValueOutOfRange {codecs : Codecs} :
  (forall fuel i t s, _read_value fuel i t s <> Raise ValueOutOfRangeError)
  /\ (forall s, _get_base_struct s <> Raise ValueOutOfRangeError)
  /\ (forall self index,
         Z.of_nat (length (get_elements self)) <= index ->
         get_value self index = Raises ValueOutOfRangeError).
Proof.
  split; [|split].
  - intros fuel i t s H. apply reader_errors_read_value in H. discriminate H.
  - intros s H. unfold _get_base_struct in H.
    assert (He : raises_reader_errors (base_struct_with (enough s))).
    { unfold base_struct_with, _read_struct, new_BondValue.
      assert (forall fuel values,
                 raises_reader_errors
                   (read_struct_loop (_read_value (enough s)) fuel values))
        by (intros; apply reader_errors_read_struct_loop, reader_errors_read_value).
      errors_auto. }
    apply He in H. discriminate H.
  - intros self index Hi. unfold get_value.
    replace (index <? Z.of_nat (length (get_elements self))) with false
      by (symmetry; apply Z.ltb_ge; lia).
    reflexivity.
Qed.

Lemma reader_never_raises_ValueOutOfRange_witness :
  Z.of_nat (length (get_elements root_1_2)) <= 1
  /\ get_value root_1_2 1 = Raises ValueOutOfRangeError.
Proof.
  split; [cbn; lia|].
  apply (proj2 (proj2 (@reader_never_raises_ValueOutOfRange CPython.codecs)) root_1_2 1).
  cbn. lia.
Defined.
